(** * Archetype storage of the arche ECS: a shallow embedding

    The development follows [ecs/storage.go] (the reflection based column
    [Storage]) and [ecs/archetype.go] (the archetype with its layout table).

    Conventions.
    - [uint32] fields ([len], [cap], [capacityIncrement]) are integers with
      the wrap-around written as [wrap32]; [uintptr] arithmetic wraps with
      [wrap64] (a 64-bit platform).
    - Component ids ([ID], a [uint32]) and positions in [Ids] only ever index
      slices and are compared; they are natural numbers.
    - Go memory is a list of blocks, one per [reflect.New]; an
      [unsafe.Pointer] is [nil] or a block with a byte offset.
    - A Go panic is the outcome [Panic]; an access through an
      [unsafe.Pointer] that leaves its block is the outcome [Fault]. *)

From Stdlib Require Import ZArith Lia String.
From Stdlib.Strings Require Import Byte.
From stdpp Require Import base option list sorting.

Open Scope Z_scope.

(** ** Machine integers *)

Definition wrap32 (z : Z) : Z := z mod 2 ^ 32.
Definition wrap64 (z : Z) : Z := z mod 2 ^ 64.

(** [math.MaxInt32] *)
Definition MaxInt32 : Z := 2 ^ 31 - 1.

(** ** Outcomes of a call *)

Inductive outcome (A : Type) : Type :=
  | Ok (a : A)
  | Panic (msg : string)
  | Fault.
Arguments Ok {A} a.
Arguments Panic {A} msg.
Arguments Fault {A}.

Global Instance outcome_ret : MRet outcome := fun A a => Ok a.
Global Instance outcome_bind : MBind outcome := fun A B f m =>
  match m with
  | Ok a => f a
  | Panic msg => Panic msg
  | Fault => Fault
  end.

Definition panics {A} (m : outcome A) : Prop := ∃ msg, m = Panic msg.

(** ** Memory *)

Module Mem.

Abbreviation heap := (list (list byte)).

Inductive pointer :=
  | nil
  | Ptr (b : nat) (off : Z).

Definition is_nil (p : pointer) : bool :=
  match p with nil => true | Ptr _ _ => false end.

(** [unsafe.Add].  Arithmetic on [nil] never reaches a block; it is kept
    as [nil], and every access through it is a [Fault]. *)
Definition unsafe_Add (p : pointer) (n : Z) : pointer :=
  match p with
  | nil => nil
  | Ptr b off => Ptr b (off + n)
  end.

(** A fresh block of [n] zero bytes, as [reflect.New] hands out. *)
Definition alloc (h : heap) (n : Z) : heap * nat :=
  (h ++ [replicate (Z.to_nat n) x00], length h).

(** A fresh block holding [bs]: a value that escapes to the heap. *)
Definition escape (h : heap) (bs : list byte) : heap * pointer :=
  (h ++ [bs], Ptr (length h) 0).

Definition in_block (blk : list byte) (off n : Z) : bool :=
  (0 <=? off) && (0 <=? n) && (off + n <=? Z.of_nat (length blk)).

Definition load (h : heap) (p : pointer) (n : Z) : option (list byte) :=
  match p with
  | nil => None
  | Ptr b off =>
      blk ← h !! b;
      if in_block blk off n
      then Some (take (Z.to_nat n) (drop (Z.to_nat off) blk))
      else None
  end.

Definition store (h : heap) (p : pointer) (bs : list byte) : option heap :=
  match p with
  | nil => None
  | Ptr b off =>
      blk ← h !! b;
      if in_block blk off (Z.of_nat (length bs))
      then Some (<[b := list_inserts (Z.to_nat off) bs blk]> h)
      else None
  end.

(** The builtin [copy] on two byte slices of [n] bytes (a memmove). *)
Definition memmove (h : heap) (src dst : pointer) (n : Z) : option heap :=
  bs ← load h src n; store h dst bs.

End Mem.
Import Mem.

Definition lift_mem {A} (o : option A) : outcome A :=
  match o with Some a => Ok a | None => Fault end.

(** The byte copy shared by [Storage.set], [Storage.Remove] and
    [archetype.copy]: both pointers are reinterpreted as arrays of
    [math.MaxInt32] bytes and sliced to [size] bytes (the slice expression
    panics past the array length), then [copy(dstSlice, srcSlice)]. *)
Definition slice_copy (h : heap) (src dst : pointer) (size : Z) : outcome heap :=
  if MaxInt32 <? size then Panic "slice bounds out of range"
  else lift_mem (memmove h src dst size).

(** ** reflect *)

(** A [reflect.Type] as far as the code looks at it. *)
Record rtype := { Size : Z; Align : Z }.

(** A [reflect.Value]: the zero Value, or an addressable array. *)
Inductive rvalue :=
  | Invalid
  | ArrayAt (b : nat) (ty : rtype) (n : Z).

(** [reflect.New(reflect.ArrayOf(n, ty)).Elem()].  [reflect.ArrayOf] also
    panics when the array would exceed the address space, which a length
    below [2^32] with an element size of at most [MaxInt32] never does;
    that panic is left out, and the allocation is taken to succeed. *)
Definition reflect_New_ArrayOf (h : heap) (n : Z) (ty : rtype) : outcome (heap * rvalue) :=
  if n <? 0 then Panic "reflect.ArrayOf: negative length"
  else let '(h', b) := alloc h (n * Size ty) in Ok (h', ArrayAt b ty n).

(** [v.Addr().UnsafePointer()] *)
Definition Addr (v : rvalue) : pointer :=
  match v with
  | Invalid => nil
  | ArrayAt b _ _ => Ptr b 0
  end.

(** [reflect.Copy(dst, src)]: copies [min(dst.Len(), src.Len())] elements. *)
Definition reflect_Copy (h : heap) (dst src : rvalue) : outcome heap :=
  match dst, src with
  | ArrayAt bd ty nd, ArrayAt bs _ ns =>
      lift_mem (memmove h (Ptr bs 0) (Ptr bd 0) (Z.min nd ns * Size ty))
  | _, _ => Panic "reflect: call of reflect.Copy on zero Value"
  end.

Global Instance pointer_eq_dec : EqDecision pointer.
Proof. solve_decision. Defined.
Global Instance rtype_eq_dec : EqDecision rtype.
Proof. solve_decision. Defined.
Global Instance rvalue_eq_dec : EqDecision rvalue.
Proof. solve_decision. Defined.

(** The block behind a [reflect.Value], and the length of a block. *)
Definition block_of (v : rvalue) : option nat :=
  match v with
  | Invalid => None
  | ArrayAt b _ _ => Some b
  end.

Definition block_length (h : heap) (b : nat) : option Z :=
  (λ blk : list byte, Z.of_nat (length blk)) <$> h !! b.

(** A [reflect.Type] of Go: the size is a multiple of the alignment (and
    small enough for the byte slices of [slice_copy]). *)
Definition valid_type (ty : rtype) : Prop :=
  0 ≤ Size ty ≤ MaxInt32 ∧ 0 < Align ty ∧ Size ty mod Align ty = 0.

(** ** ecs/types.go *)

Abbreviation ID := nat (only parsing).

(** [Component]: an id with a pointer to the component's value. *)
Record Component := { C_ID : ID; Comp : pointer }.

Record componentType := { ID_of : ID; Type_of : rtype }.

(** The monadic [for ... range] over a slice. *)
Fixpoint for_each {S X : Type} (f : S → X → outcome S) (s : S) (xs : list X)
  : outcome S :=
  match xs with
  | [] => Ok s
  | x :: xs' => s' ← f s x; for_each f s' xs'
  end.

(** An indexed read [xs[i]] of a slice: out of range is a run-time panic. *)
Definition index_slice {A} (xs : list A) (i : nat) : outcome A :=
  match xs !! i with
  | Some x => Ok x
  | None => Panic "index out of range"
  end.

(** ** ecs/storage.go *)

Module Stor.

Record Storage := mkStorage {
  buffer : rvalue;
  bufferAddress : pointer;
  typeOf : rtype;
  itemSize : Z;
  len : Z;
  cap : Z;
  capacityIncrement : Z
}.

Definition with_len (s : Storage) (n : Z) : Storage :=
  mkStorage (buffer s) (bufferAddress s) (typeOf s) (itemSize s) n (cap s)
    (capacityIncrement s).

Definition with_buffer (s : Storage) (c : Z) (buf : rvalue) : Storage :=
  mkStorage buf (Addr buf) (typeOf s) (itemSize s) (len s) c
    (capacityIncrement s).

Definition NewReflectStorage (h : heap) (tp : rtype) (increment : Z)
  : outcome (heap * Storage) :=
  let size := Size tp in
  '(h', buf) ← reflect_New_ArrayOf h increment tp;
  Ok (h', mkStorage buf (Addr buf) tp size 0 (wrap32 increment)
            (wrap32 increment)).

Definition Get (s : Storage) (index : Z) : pointer :=
  unsafe_Add (bufferAddress s) (wrap64 (index * itemSize s)).

Definition extend (h : heap) (s : Storage) : outcome (heap * Storage) :=
  if cap s <? wrap32 (len s + 1) then
    let old := buffer s in
    let c := wrap32 (cap s + capacityIncrement s) in
    '(h1, buf) ← reflect_New_ArrayOf h c (typeOf s);
    h2 ← reflect_Copy h1 buf old;
    Ok (h2, with_buffer s c buf)
  else Ok (h, s).

Definition set (h : heap) (s : Storage) (index : Z) (value : pointer)
  : outcome heap :=
  slice_copy h value (Get s index) (itemSize s).

Definition Add (h : heap) (s : Storage) (value : pointer)
  : outcome (heap * Storage * Z) :=
  '(h1, s1) ← extend h s;
  let s2 := with_len s1 (wrap32 (len s1 + 1)) in
  h2 ← set h1 s2 (wrap32 (len s2 - 1)) value;
  Ok (h2, s2, wrap32 (len s2 - 1)).

(** The index of the last element as [Remove] computes it: [s.len - 1]
    on a [uint32]. *)
Definition last_index (s : Storage) : Z := wrap32 (len s - 1).

Definition Remove (h : heap) (s : Storage) (index : Z)
  : outcome (heap * Storage * bool) :=
  let o := last_index s in
  let n := index in
  if n <? o then
    let size := itemSize s in
    let src := unsafe_Add (bufferAddress s) (wrap64 (o * itemSize s)) in
    let dst := unsafe_Add (bufferAddress s) (wrap64 (n * itemSize s)) in
    h1 ← slice_copy h src dst size;
    Ok (h1, with_len s (wrap32 (len s - 1)), true)
  else Ok (h, with_len s (wrap32 (len s - 1)), false).

Definition Len (s : Storage) : Z := len s.

(** The element at [index], [itemSize] bytes read through [Get]. *)
Definition item (h : heap) (s : Storage) (index : Z) : option (list byte) :=
  load h (Get s index) (itemSize s).

(** [Storage.setPointer] *)
Definition setPointer (h : heap) (s : Storage) (index : Z) (value : pointer)
  : outcome heap :=
  slice_copy h value (Get s index) (itemSize s).

(** [Storage.AddPointer] *)
Definition AddPointer (h : heap) (s : Storage) (value : pointer)
  : outcome (heap * Storage * Z) :=
  '(h1, s1) ← extend h s;
  let s2 := with_len s1 (wrap32 (len s1 + 1)) in
  h2 ← setPointer h1 s2 (wrap32 (len s2 - 1)) value;
  Ok (h2, s2, wrap32 (len s2 - 1)).

(** The loop of [Storage.Zero]: [n] bytes from [dst] on are set to 0, one
    by one. *)
Fixpoint zero_bytes (n : nat) (h : heap) (dst : pointer) : outcome heap :=
  match n with
  | O => Ok h
  | S n' =>
      h ← lift_mem (store h dst [x00]);
      zero_bytes n' h (unsafe_Add dst 1)
  end.

(** [Storage.Zero] *)
Definition Zero (h : heap) (s : Storage) (index : Z) : outcome heap :=
  zero_bytes (Z.to_nat (itemSize s)) h (Get s index).

(** [Storage.Alloc] *)
Definition Alloc (h : heap) (s : Storage) : outcome (heap * Storage * Z) :=
  '(h1, s1) ← extend h s;
  let s2 := with_len s1 (wrap32 (len s1 + 1)) in
  h2 ← Zero h1 s2 (wrap32 (len s2 - 1));
  Ok (h2, s2, wrap32 (len s2 - 1)).

(** The loop of [ToSlice]: the elements [i], [i+1], ... ([n] of them) are
    read through [Get]. *)
Fixpoint read_items (h : heap) (s : Storage) (i : Z) (n : nat)
  : outcome (list (list byte)) :=
  match n with
  | O => Ok []
  | S n' =>
      x ← lift_mem (load h (Get s i) (itemSize s));
      xs ← read_items h s (i + 1) n';
      Ok (x :: xs)
  end.

(** [ToSlice], for the element type of the column: each element is the
    [itemSize] bytes at its address. *)
Definition ToSlice (h : heap) (s : Storage) : outcome (list (list byte)) :=
  read_items h s 0 (Z.to_nat (Len s)).

(** The invariant of a column: the buffer is one block of
    [cap * itemSize] bytes, [bufferAddress] is its start, and
    [len ≤ cap]. *)
Definition wf (h : heap) (s : Storage) : Prop :=
  match buffer s with
  | Invalid => False
  | ArrayAt b ty n =>
      bufferAddress s = Ptr b 0 ∧ typeOf s = ty ∧ itemSize s = Size ty ∧
      n = cap s ∧ block_length h b = Some (cap s * itemSize s)
  end ∧
  0 ≤ itemSize s ≤ MaxInt32 ∧ 0 ≤ len s ≤ cap s ∧ cap s < 2 ^ 32 ∧
  0 < capacityIncrement s < 2 ^ 32.

Global Instance wf_dec h s : Decision (wf h s).
Proof. unfold wf. destruct (buffer s); apply _. Defined.

End Stor.

(** ** Types the archetype uses and the sources do not declare *)

(** Modelled from the spec: the [Mask] type is not among the sources.  A
    fixed-width bitset over the component ids with [set(id, bool)] and
    [get(id)]; the bits are those of an integer. *)
Abbreviation Mask := Z (only parsing).

Definition Mask_Set (m : Mask) (id : ID) (v : bool) : Mask :=
  if v then Z.setbit m (Z.of_nat id) else Z.clearbit m (Z.of_nat id).

Definition Mask_Get (m : Mask) (id : ID) : bool := Z.testbit m (Z.of_nat id).

(** Modelled from the spec: the [Entity] type is not among the sources.  An
    entity handle is the pair [(id: u32, generation: u32)]; in memory, the
    two words in little-endian order. *)
Record Entity := { eid : Z; gen : Z }.

Definition byte_of_Z (z : Z) : byte :=
  default x00 (Byte.of_N (Z.to_N (z mod 256))).

Definition le32 (z : Z) : list byte :=
  [byte_of_Z z; byte_of_Z (z / 2 ^ 8); byte_of_Z (z / 2 ^ 16);
   byte_of_Z (z / 2 ^ 24)].

Definition Entity_bytes (e : Entity) : list byte := le32 (eid e) ++ le32 (gen e).

Definition EntityType : rtype := {| Size := 8; Align := 4 |}.

(** Modelled from the spec: the archetype's [storage] type (the entities
    column) is not among the sources.  It is a column as the spec describes
    one, with the operations of [Storage] in [ecs/storage.go]; the column of
    a holder archetype ([forStorage = false]) has grow increment 1, any
    other the configured increment. *)
Definition storage_Init (h : heap) (tp : rtype) (increment : Z)
    (forStorage : bool) : outcome (heap * Stor.Storage) :=
  Stor.NewReflectStorage h tp (if forStorage then increment else 1).

(** ** ecs/archetype.go *)

Module Arch.

(** layout specification of a component column. *)
Record layout := mkLayout { pointer_of : pointer; itemSize : Z }.

(** The [archetype] without its [graphNode].  The [access] field holds the
    address of [layouts[0]] and the size of a [layout]: its [getStorage]
    reads the slice [layouts] in place, without a bounds check. *)
Record archetype := mkArchetype {
  Mask_of : Mask;
  Ids : list ID;
  buffers : list rvalue;
  layouts : list layout;
  indices : list nat;
  entities : Stor.Storage;
  len : Z;
  cap : Z;
  capacityIncrement : Z
}.

Definition with_Mask (a : archetype) (m : Mask) : archetype :=
  mkArchetype m (Ids a) (buffers a) (layouts a) (indices a) (entities a)
    (len a) (cap a) (capacityIncrement a).
Definition with_Ids (a : archetype) (x : list ID) : archetype :=
  mkArchetype (Mask_of a) x (buffers a) (layouts a) (indices a) (entities a)
    (len a) (cap a) (capacityIncrement a).
Definition with_buffers (a : archetype) (x : list rvalue) : archetype :=
  mkArchetype (Mask_of a) (Ids a) x (layouts a) (indices a) (entities a)
    (len a) (cap a) (capacityIncrement a).
Definition with_layouts (a : archetype) (x : list layout) : archetype :=
  mkArchetype (Mask_of a) (Ids a) (buffers a) x (indices a) (entities a)
    (len a) (cap a) (capacityIncrement a).
Definition with_indices (a : archetype) (x : list nat) : archetype :=
  mkArchetype (Mask_of a) (Ids a) (buffers a) (layouts a) x (entities a)
    (len a) (cap a) (capacityIncrement a).
Definition with_entities (a : archetype) (x : Stor.Storage) : archetype :=
  mkArchetype (Mask_of a) (Ids a) (buffers a) (layouts a) (indices a) x
    (len a) (cap a) (capacityIncrement a).
Definition with_len (a : archetype) (x : Z) : archetype :=
  mkArchetype (Mask_of a) (Ids a) (buffers a) (layouts a) (indices a)
    (entities a) x (cap a) (capacityIncrement a).
Definition with_cap (a : archetype) (x : Z) : archetype :=
  mkArchetype (Mask_of a) (Ids a) (buffers a) (layouts a) (indices a)
    (entities a) (len a) x (capacityIncrement a).

(** [layout.Get] *)
Definition layout_Get (l : layout) (index : Z) : pointer :=
  if is_nil (pointer_of l) then nil
  else unsafe_Add (pointer_of l) (wrap64 (itemSize l * index)).

(** [archetypeAccess.getStorage]: pointer arithmetic from [&layouts[0]];
    past the end of the slice the read leaves the slice's memory. *)
Definition getStorage (a : archetype) (id : ID) : outcome layout :=
  lift_mem (layouts a !! id).

(** [archetypeAccess.Get] *)
Definition Get (a : archetype) (index : Z) (id : ID) : outcome pointer :=
  lay ← getStorage a id; Ok (layout_Get lay index).

(** The rounding [(size + (align - 1)) / align * align] on [uintptr]. *)
Definition round_up (size align : Z) : Z :=
  wrap64 (wrap64 (size + (align - 1)) / align * align).

Section WithMaskTotalBits.

(** The constant [MaskTotalBits] is not among the sources; it is a
    parameter of [Init]. *)
Variable MaskTotalBits : nat.

(** The state of the loop of [Init]: the memory, [prev], [mask] and the
    archetype whose slices are being filled. *)
Definition Init_state : Type := heap * Z * Mask * archetype.

(** One round of the loop of [Init], for the component [c] at
    position [i], with [cap] the initial capacity. *)
Definition Init_step (cap0 : Z) (st : Init_state) (ic : nat * componentType)
  : outcome Init_state :=
  let '(h, prev, mask, a) := st in
  let '(i, c) := ic in
  if Z.of_nat (ID_of c) <=? prev
  then Panic "component arguments must be sorted by ID"
  else
    let prev := Z.of_nat (ID_of c) in
    let mask := Mask_Set mask (ID_of c) true in
    let size := Size (Type_of c) in
    let align := Align (Type_of c) in
    if align =? 0 then Panic "integer divide by zero"
    else
      let size := round_up size align in
      let a := with_Ids a (<[i := ID_of c]> (Ids a)) in
      '(h, buf) ← reflect_New_ArrayOf h cap0 (Type_of c);
      let a := with_buffers a (<[i := buf]> (buffers a)) in
      if decide (ID_of c < length (layouts a))%nat then
        let a := with_layouts a
                   (<[ID_of c := mkLayout (Addr buf) size]> (layouts a)) in
        let a := with_indices a (<[ID_of c := i]> (indices a)) in
        Ok (h, prev, mask, a)
      else Panic "index out of range".

(** The archetype at the start of the loop of [Init]: the slices are made,
    everything else is zero. *)
Definition Init_start (n : nat) : archetype :=
  mkArchetype 0 (replicate n 0%nat) (replicate n Invalid)
    (replicate MaskTotalBits (mkLayout nil 0))
    (replicate MaskTotalBits 0%nat)
    (Stor.mkStorage Invalid nil (Build_rtype 0 0) 0 0 0 0)
    0 0 0.

(** [archetype.Init], on a zero archetype. *)
Definition Init (h : heap) (capacityIncrement : Z) (forStorage : bool)
    (components : list componentType) : outcome (heap * archetype) :=
  let a := Init_start (length components) in
  let cap0 := if forStorage then capacityIncrement else 1 in
  '(h, _, mask, a) ← for_each (Init_step cap0) (h, -1, 0, a)
                       (imap pair components);
  '(h, ents) ← storage_Init h EntityType capacityIncrement forStorage;
  let a := with_entities a ents in
  let a := with_Mask a mask in
  Ok (h, mkArchetype (Mask_of a) (Ids a) (buffers a) (layouts a)
            (indices a) (entities a) 0 (wrap32 cap0)
            (wrap32 capacityIncrement)).

(** The block [Init] allocates for a component. *)
Definition Init_block (cap0 : Z) (c : componentType) : list byte :=
  replicate (Z.to_nat (cap0 * Size (Type_of c))) x00.

(** What holds after the loop of [Init] has gone through the components
    [l], the first of [n], starting in the memory [h0]. *)
Definition Init_inv (cap0 : Z) (h0 : heap) (n : nat)
    (l : list componentType) (st : Init_state) : Prop :=
  let '(h, prev, mask, a) := st in
  h = h0 ++ (Init_block cap0 <$> l) ∧
  -1 ≤ prev ∧ (∀ c, c ∈ l → Z.of_nat (ID_of c) ≤ prev) ∧
  StronglySorted lt (ID_of <$> l) ∧
  0 ≤ mask ∧
  (∀ id, Mask_Get mask id = bool_decide (id ∈ ID_of <$> l)) ∧
  Ids a = (ID_of <$> l) ++ replicate (n - length l) 0%nat ∧
  buffers a
  = imap (λ i c, ArrayAt (length h0 + i) (Type_of c) cap0) l
    ++ replicate (n - length l) Invalid ∧
  length (layouts a) = MaskTotalBits ∧
  length (indices a) = MaskTotalBits ∧
  (∀ i c, l !! i = Some c →
     (ID_of c < MaskTotalBits)%nat ∧ Align (Type_of c) ≠ 0 ∧ 0 ≤ cap0 ∧
     layouts a !! ID_of c
     = Some (mkLayout (Ptr (length h0 + i) 0)
               (round_up (Size (Type_of c)) (Align (Type_of c)))) ∧
     indices a !! ID_of c = Some i) ∧
  (∀ id, id ∉ ID_of <$> l →
     layouts a !! id = replicate MaskTotalBits (mkLayout nil 0) !! id).

End WithMaskTotalBits.

(** [archetype.copy] *)
Definition copy (h : heap) (src dst : pointer) (itemSize : Z) : outcome heap :=
  slice_copy h src dst itemSize.

(** The new capacity [extend] computes, on [uint32]. *)
Definition grown_cap (cap inc : Z) : Z :=
  wrap32 (inc * (wrap32 (cap + inc) / inc)).

(** One round of the loop of [extend]: the column of [id] moves to a new
    array of [a.cap] elements. *)
Definition extend_column (st : heap * archetype) (id : ID)
  : outcome (heap * archetype) :=
  let '(h, a) := st in
  lay ← getStorage a id;
  if itemSize lay =? 0 then Ok (h, a)
  else
    index ← index_slice (indices a) id;
    old ← index_slice (buffers a) index;
    match old with
    | Invalid => Panic "reflect: call of reflect.Value.Type on zero Value"
    | ArrayAt _ ty _ =>
        '(h, buf) ← reflect_New_ArrayOf h (cap a) ty;
        let a := with_buffers a (<[index := buf]> (buffers a)) in
        let a := with_layouts a
                   (<[id := mkLayout (Addr buf) (itemSize lay)]> (layouts a)) in
        h ← reflect_Copy h buf old;
        Ok (h, a)
    end.

Definition extend (h : heap) (a : archetype) : outcome (heap * archetype) :=
  if len a <? cap a then Ok (h, a)
  else if capacityIncrement a =? 0 then Panic "integer divide by zero"
  else
    let a := with_cap a (grown_cap (cap a) (capacityIncrement a)) in
    for_each extend_column (h, a) (Ids a).

(** The loop of [Zero]: [n] bytes from [dst] on are set to 0, one by
    one. *)
Fixpoint zero_bytes (n : nat) (h : heap) (dst : pointer) : outcome heap :=
  match n with
  | O => Ok h
  | S n' =>
      h ← lift_mem (store h dst [x00]);
      zero_bytes n' h (unsafe_Add dst 1)
  end.

Definition Zero (h : heap) (a : archetype) (index : Z) (id : ID)
  : outcome heap :=
  lay ← getStorage a id;
  if itemSize lay =? 0 then Ok h
  else
    let dst := unsafe_Add (pointer_of lay) (wrap64 (index * itemSize lay)) in
    zero_bytes (Z.to_nat (itemSize lay)) h dst.

Definition ZeroAll (h : heap) (a : archetype) (index : Z) : outcome heap :=
  for_each (fun h id => Zero h a index id) h (Ids a).

(** [archetype.Alloc]; [&entity] is a pointer to the escaped argument. *)
Definition Alloc (h : heap) (a : archetype) (entity : Entity) (zero : bool)
  : outcome (heap * archetype * Z) :=
  let '(h, pe) := escape h (Entity_bytes entity) in
  '(h, ents, idx) ← Stor.Add h (entities a) pe;
  let a := with_entities a ents in
  '(h, a) ← extend h a;
  h ← (if zero then ZeroAll h a idx else Ok h);
  let a := with_len a (wrap32 (len a + 1)) in
  Ok (h, a, idx).

(** [archetype.Add] *)
Definition Add (h : heap) (a : archetype) (entity : Entity)
    (components : list Component) : outcome (heap * archetype * Z) :=
  if decide (length components ≠ length (Ids a))
  then Panic "Invalid number of components"
  else
    let '(h, pe) := escape h (Entity_bytes entity) in
    '(h, ents, idx) ← Stor.Add h (entities a) pe;
    let a := with_entities a ents in
    '(h, a) ← extend h a;
    let a := with_len a (wrap32 (len a + 1)) in
    h ← for_each (fun h c =>
           lay ← getStorage a (C_ID c);
           dst ← Get a idx (C_ID c);
           if itemSize lay =? 0 then Ok h
           else copy h (Comp c) dst (itemSize lay)) h components;
    Ok (h, a, idx).

(** [archetype.Remove] *)
Definition Remove (h : heap) (a : archetype) (index : Z)
  : outcome (heap * archetype * bool) :=
  '(h, ents, swapped) ← Stor.Remove h (entities a) index;
  let oldIndex := wrap32 (len a - 1) in
  h ← for_each (fun h id =>
         lay ← getStorage a id;
         let o := oldIndex in
         let n := index in
         if (n =? o) || (itemSize lay =? 0) then Ok h
         else
           let src := unsafe_Add (pointer_of lay) (wrap64 (o * itemSize lay)) in
           let dst := unsafe_Add (pointer_of lay) (wrap64 (n * itemSize lay)) in
           copy h src dst (itemSize lay)) h (Ids a);
  let a := with_entities a ents in
  let a := with_len a (wrap32 (len a - 1)) in
  Ok (h, a, swapped).

Definition Components (a : archetype) : list ID := Ids a.

Definition HasComponent (a : archetype) (id : ID) : outcome bool :=
  lay ← getStorage a id; Ok (negb (is_nil (pointer_of lay))).

Definition Len (a : archetype) : Z := len a.
Definition Cap (a : archetype) : Z := cap a.

(** [archetype.Set]; [comp] is the pointer behind the interface value. *)
Definition Set_ (h : heap) (a : archetype) (index : Z) (id : ID)
    (comp : pointer) : outcome (heap * pointer) :=
  lay ← getStorage a id;
  dst ← Get a index id;
  if itemSize lay =? 0 then Ok (h, dst)
  else
    h ← copy h comp dst (itemSize lay);
    Ok (h, dst).

(** [archetype.SetPointer] *)
Definition SetPointer (h : heap) (a : archetype) (index : Z) (id : ID)
    (comp : pointer) : outcome (heap * pointer) :=
  lay ← getStorage a id;
  dst ← Get a index id;
  if itemSize lay =? 0 then Ok (h, dst)
  else
    h ← copy h comp dst (itemSize lay);
    Ok (h, dst).

(** [archetype.GetEntity]: the bytes of the entity at [index]. *)
Definition GetEntity (h : heap) (a : archetype) (index : Z)
  : option (list byte) :=
  Stor.item h (entities a) index.

(** *** The invariant of an archetype *)

(** The column at position [i] of [Ids], of component [id]: [indices]
    leads from [id] to [i], the buffer is one block of [n] elements, the
    layout entry of [id] holds its start and the size of an element, and
    a column that takes memory has room for [cap] elements. *)
Definition col_ok (h : heap) (a : archetype) (i : nat) (id : ID) : Prop :=
  indices a !! id = Some i ∧
  match buffers a !! i with
  | Some (ArrayAt b ty n) =>
      layouts a !! id = Some (mkLayout (Ptr b 0) (Size ty)) ∧
      block_length h b = Some (n * Size ty) ∧
      0 ≤ Size ty ≤ MaxInt32 ∧ 0 ≤ n ∧ (Size ty ≠ 0 → n = cap a)
  | _ => False
  end.

Global Instance layout_eq_dec : EqDecision layout.
Proof. solve_decision. Defined.

Global Instance col_ok_dec h a i id : Decision (col_ok h a i id).
Proof.
  unfold col_ok. destruct (buffers a !! i) as [[|b ty n]|]; apply _.
Defined.

Definition wf (h : heap) (a : archetype) : Prop :=
  0 ≤ len a ≤ cap a ∧ cap a < 2 ^ 32 ∧
  0 < capacityIncrement a < 2 ^ 32 ∧
  Forall (λ p, col_ok h a p.1 p.2) (imap pair (Ids a)) ∧
  NoDup (block_of (Stor.buffer (entities a)) :: (block_of <$> buffers a)) ∧
  Stor.wf h (entities a) ∧ Stor.len (entities a) = len a.

Global Instance wf_dec h a : Decision (wf h a).
Proof. unfold wf. apply _. Defined.

(** The bytes of the component [id] in row [index]. *)
Definition item (h : heap) (a : archetype) (index : Z) (id : ID)
  : option (list byte) :=
  match layouts a !! id with
  | Some lay => load h (layout_Get lay index) (itemSize lay)
  | None => None
  end.

(** *** The growth policy in the words of the specification *)



End Arch.

(** ** A small world for the examples *)

Definition position : rtype := {| Size := 8; Align := 4 |}.
Definition rotation : rtype := {| Size := 4; Align := 4 |}.
Definition tag : rtype := {| Size := 0; Align := 1 |}.
Definition demo_components : list componentType :=
  [Build_componentType 0 position; Build_componentType 1 rotation;
   Build_componentType 2 tag].
Definition demo_value : list byte := [x01; x00; x00; x00; x02; x00; x00; x00].

(** Memory with one value of a position at block 0, and an archetype of
    the three components with the entities 7, 8 and 9. *)
Definition demo : outcome (heap * Arch.archetype) :=
  let '(h, _) := escape [] demo_value in
  '(h, a) ← Arch.Init 4 h 2 true demo_components;
  '(h, a, _) ← Arch.Alloc h a (Build_Entity 7 0) true;
  '(h, a, _) ← Arch.Alloc h a (Build_Entity 8 0) true;
  '(h, a, _) ← Arch.Alloc h a (Build_Entity 9 0) true;
  Ok (h, a).

(** Swap-remove on a list: the last element takes the place of the one at
    [i], and the list gets shorter by one. *)
Definition swap_remove {A} (l : list A) (i : nat) : list A :=
  match last l with
  | Some x => take (length l - 1) (<[i := x]> l)
  | None => l
  end.

(** A column of two rotations, both 42, full. *)
Definition demo_column : outcome (heap * Stor.Storage) :=
  let '(h, _) := escape [] [x2a; x00; x00; x00] in
  '(h, s) ← Stor.NewReflectStorage h rotation 2;
  '(h, s, _) ← Stor.Add h s (Ptr 0 0);
  '(h, s, _) ← Stor.Add h s (Ptr 0 0);
  Ok (h, s).

(** ** The nodes of the archetype graph ([ecs/archetype.go]) *)

(** A pointer to a node is [None] (nil) or the number of the node. *)
Record archetypeNode := mkNode {
  node_mask : Mask;
  node_archetype : option nat;
  toAdd : list (option nat);
  toRemove : list (option nat)
}.

(** [newArchetypeNode]; the two slices have [MaskTotalBits] entries. *)
Definition newArchetypeNode (MaskTotalBits : nat) (mask : Mask) : archetypeNode :=
  mkNode mask None (replicate MaskTotalBits None) (replicate MaskTotalBits None).

(** [archetypeNode.GetTransitionAdd] *)
Definition GetTransitionAdd (a : archetypeNode) (id : ID)
  : outcome (option nat * bool) :=
  p ← index_slice (toAdd a) id; Ok (p, bool_decide (p ≠ None)).

(** [archetypeNode.GetTransitionRemove] *)
Definition GetTransitionRemove (a : archetypeNode) (id : ID)
  : outcome (option nat * bool) :=
  p ← index_slice (toRemove a) id; Ok (p, bool_decide (p ≠ None)).

(** [archetypeNode.SetTransitionAdd] *)
Definition SetTransitionAdd (a : archetypeNode) (id : ID) (to : option nat)
  : outcome archetypeNode :=
  if decide (id < length (toAdd a))%nat
  then Ok (mkNode (node_mask a) (node_archetype a) (<[id := to]> (toAdd a))
             (toRemove a))
  else Panic "index out of range".

(** [archetypeNode.SetTransitionRemove] *)
Definition SetTransitionRemove (a : archetypeNode) (id : ID) (to : option nat)
  : outcome archetypeNode :=
  if decide (id < length (toRemove a))%nat
  then Ok (mkNode (node_mask a) (node_archetype a) (toAdd a)
             (<[id := to]> (toRemove a)))
  else Panic "index out of range".

(** ** The invariant that the operations of the archetype keep *)

(** The columns: capacities in range, every column as [Arch.col_ok] has
    it, one buffer per id, all buffers and the buffer of the entities in
    blocks of their own, and the column of the entities well-formed. *)
Definition cols_ok (h : heap) (a : Arch.archetype) : Prop :=
  0 ≤ Arch.cap a < 2 ^ 32 ∧
  0 < Arch.capacityIncrement a < 2 ^ 32 ∧
  Forall (λ p, Arch.col_ok h a p.1 p.2) (imap pair (Arch.Ids a)) ∧
  NoDup (block_of (Stor.buffer (Arch.entities a))
         :: (block_of <$> Arch.buffers a)) ∧
  length (Arch.buffers a) = length (Arch.Ids a) ∧
  Stor.wf h (Arch.entities a).

(** The archetype between two calls: the columns, and as many entities as
    rows. *)
Definition arch_inv (h : heap) (a : Arch.archetype) : Prop :=
  cols_ok h a ∧ 0 ≤ Arch.len a ≤ Arch.cap a ∧
  Stor.len (Arch.entities a) = Arch.len a.

Global Instance cols_ok_dec h a : Decision (cols_ok h a).
Proof. unfold cols_ok. apply _. Defined.

Global Instance arch_inv_dec h a : Decision (arch_inv h a).
Proof. unfold arch_inv. apply _. Defined.

(** What holds in the loop of [extend] of the archetype [a] in the memory
    [h], to the capacity [c], after the columns of the ids [l]: these
    columns have room for [c] elements, the others for [cap a], and every
    row is where [Get] finds it. *)
Definition extend_inv (h : heap) (a : Arch.archetype) (c : Z) (l : list ID)
    (st : heap * Arch.archetype) : Prop :=
  let '(hk, ak) := st in
  Arch.Ids ak = Arch.Ids a ∧ Arch.indices ak = Arch.indices a ∧
  Arch.entities ak = Arch.entities a ∧ Arch.len ak = Arch.len a ∧
  Arch.cap ak = c ∧ Arch.capacityIncrement ak = Arch.capacityIncrement a ∧
  Arch.Mask_of ak = Arch.Mask_of a ∧
  length (Arch.buffers ak) = length (Arch.buffers a) ∧
  (∃ hnew, hk = h ++ hnew) ∧
  (∀ i id, Arch.Ids a !! i = Some id →
     Arch.col_ok hk
       (Arch.with_cap ak (if decide (i < length l)%nat then c else Arch.cap a))
       i id) ∧
  NoDup (block_of (Stor.buffer (Arch.entities a))
         :: (block_of <$> Arch.buffers ak)) ∧
  (∀ row id, id ∈ Arch.Ids a → 0 ≤ row < Arch.cap a →
     Arch.item hk ak row id = Arch.item h a row id) ∧
  (∀ id, id ∉ Arch.Ids a → Arch.layouts ak !! id = Arch.layouts a !! id) ∧
  (∀ b, Some b ∈ block_of <$> Arch.buffers ak →
     Some b ∈ block_of <$> Arch.buffers a ∨ (length h ≤ b)%nat).

(** The write that [Zero], [Set] and the loop of [Add] make in the column
    of [id] at the row [row], with the bytes [data]; a column without
    memory is skipped. *)
Definition write_cell (h : heap) (a : Arch.archetype) (row : Z) (id : ID)
    (data : list byte) : outcome heap :=
  lay ← Arch.getStorage a id;
  if Arch.itemSize lay =? 0 then Ok h
  else lift_mem (store h (Arch.layout_Get lay row) data).

(** The memory [hk] has the blocks of [h], of the same lengths. *)
Definition same_shape (h hk : heap) : Prop :=
  length hk = length h ∧ ∀ b, block_length hk b = block_length h b.

(** The memory [hk] differs from [h] at most in the buffers of the columns
    of [a]. *)
Definition same_outside (a : Arch.archetype) (h hk : heap) : Prop :=
  ∀ b, Some b ∉ block_of <$> Arch.buffers a → hk !! b = h !! b.

(** What holds in a loop that writes the row [row] of the columns
    [key x], for [x] in [l], with the bytes [data x]. *)
Definition write_inv {X} (h : heap) (a : Arch.archetype) (row : Z)
    (key : X → ID) (data : X → list byte) (l : list X) (hk : heap) : Prop :=
  same_shape h hk ∧ same_outside a h hk ∧
  (∀ x, x ∈ l → Arch.item hk a row (key x) = Some (data x)) ∧
  (∀ row' id, id ∈ Arch.Ids a → 0 ≤ row' < Arch.cap a →
     row' ≠ row ∨ id ∉ key <$> l →
     Arch.item hk a row' id = Arch.item h a row' id).

(** The components that [Init] accepts, with the initial capacity [cap0]:
    ids strictly ascending and below [MaskTotalBits], no alignment 0, and
    a capacity that is not negative. *)
Definition Init_accepts (MaskTotalBits : nat) (cap0 : Z)
    (l : list componentType) : Prop :=
  StronglySorted lt (ID_of <$> l) ∧
  Forall (λ c, (ID_of c < MaskTotalBits)%nat ∧ Align (Type_of c) ≠ 0) l ∧
  0 ≤ cap0.

(** The archetype of the three components with the entities 7 and 8: it
    is full. *)
Definition demo_full : outcome (heap * Arch.archetype) :=
  let '(h, _) := escape [] demo_value in
  '(h, a) ← Arch.Init 4 h 2 true demo_components;
  '(h, a, _) ← Arch.Alloc h a (Build_Entity 7 0) true;
  '(h, a, _) ← Arch.Alloc h a (Build_Entity 8 0) true;
  Ok (h, a).

(** One value for each of the three components, all behind the pointer
    to the position in block 0. *)
Definition demo_row : list Component :=
  [Build_Component 0 (Ptr 0 0); Build_Component 1 (Ptr 0 0);
   Build_Component 2 (Ptr 0 0)].


(** The archetype of the three components after a row with the position
    [demo_value] has come and gone: no rows, and the bytes of the row
    still in the buffers. *)
Definition demo_reused : outcome (heap * Arch.archetype) :=
  let '(h, _) := escape [] demo_value in
  '(h, a) ← Arch.Init 4 h 2 true demo_components;
  '(h, a, _) ← Arch.Add h a (Build_Entity 7 0)
                 [Build_Component 0 (Ptr 0 0); Build_Component 1 (Ptr 0 0);
                  Build_Component 2 (Ptr 0 0)];
  '(h, a, _) ← Arch.Remove h a 0;
  Ok (h, a).

(** * Properties *)

(** ** Machine integers *)

Lemma wrap32_small z : 0 ≤ z < 2 ^ 32 → wrap32 z = z.
Proof. intros ?. unfold wrap32. by apply Z.mod_small. Qed.

Lemma wrap64_small z : 0 ≤ z < 2 ^ 64 → wrap64 z = z.
Proof. intros ?. unfold wrap64. by apply Z.mod_small. Qed.

(** A row below [2^32] times an element size of at most [MaxInt32] does not
    wrap. *)
Lemma wrap64_offset i sz :
  0 ≤ i < 2 ^ 32 → 0 ≤ sz ≤ MaxInt32 → wrap64 (i * sz) = i * sz.
Proof.
  intros Hi Hsz. apply wrap64_small. unfold MaxInt32 in Hsz. nia.
Qed.

(** ** Outcomes *)

Lemma bind_Ok {A B} (m : outcome A) (f : A → outcome B) b :
  m ≫= f = Ok b ↔ ∃ a, m = Ok a ∧ f a = Ok b.
Proof.
  destruct m; simpl; split.
  - eauto.
  - by intros (a' & [= <-] & ?).
  - done.
  - by intros (? & ? & _).
  - done.
  - by intros (? & ? & _).
Qed.

Lemma for_each_app {S X} (f : S → X → outcome S) s xs ys :
  for_each f s (xs ++ ys) = s' ← for_each f s xs; for_each f s' ys.
Proof.
  revert s. induction xs as [|x xs IH]; intros s; simpl; [done|].
  destruct (f s x); simpl; auto.
Qed.

(** ** Memory *)

Section mem_facts.
Implicit Types (h : heap) (blk bs : list byte) (b : nat) (off n : Z).

Lemma in_block_spec blk off n :
  in_block blk off n = true ↔ 0 ≤ off ∧ 0 ≤ n ∧ off + n ≤ Z.of_nat (length blk).
Proof.
  unfold in_block. rewrite !andb_true_iff, !Z.leb_le. tauto.
Qed.

Lemma list_inserts_take_drop {A} (i : nat) (k l : list A) :
  (i + length k ≤ length l)%nat →
  list_inserts i k l = take i l ++ k ++ drop (i + length k) l.
Proof.
  intros Hle.
  rewrite <- (take_drop i l) at 1.
  rewrite <- (take_drop (length k) (drop i l)) at 1.
  assert (length (take i l) = i) as Hi by (rewrite length_take; lia).
  rewrite <- (Nat.add_0_r i) at 1. rewrite <- Hi at 1.
  rewrite list_inserts_app_r.
  rewrite list_inserts_0_r by (rewrite length_take, length_drop; lia).
  by rewrite drop_drop.
Qed.

Lemma load_Some h b off n blk :
  h !! b = Some blk → 0 ≤ off → 0 ≤ n → off + n ≤ Z.of_nat (length blk) →
  load h (Ptr b off) n = Some (take (Z.to_nat n) (drop (Z.to_nat off) blk)).
Proof.
  intros Hb ???. simpl. rewrite Hb. simpl.
  by rewrite (proj2 (in_block_spec blk off n)).
Qed.

Lemma load_inv h p n bs :
  load h p n = Some bs →
  ∃ b off blk, p = Ptr b off ∧ h !! b = Some blk ∧ 0 ≤ off ∧ 0 ≤ n ∧
    off + n ≤ Z.of_nat (length blk) ∧
    bs = take (Z.to_nat n) (drop (Z.to_nat off) blk).
Proof.
  destruct p as [|b off]; simpl; [done|].
  destruct (h !! b) as [blk|] eqn:Hb; simpl; [|done].
  destruct (in_block blk off n) eqn:Hin; [|done].
  apply in_block_spec in Hin. intros [= <-].
  exists b, off, blk. intuition.
Qed.

Lemma load_length h p n bs : load h p n = Some bs → Z.of_nat (length bs) = n.
Proof.
  intros (b & off & blk & -> & _ & ? & ? & ? & ->)%load_inv.
  rewrite length_take, length_drop. lia.
Qed.

Lemma store_Some h b off bs blk :
  h !! b = Some blk → 0 ≤ off →
  off + Z.of_nat (length bs) ≤ Z.of_nat (length blk) →
  store h (Ptr b off) bs
  = Some (<[b := take (Z.to_nat off) blk ++ bs
                  ++ drop (Z.to_nat off + length bs) blk]> h).
Proof.
  intros Hb ??. simpl. rewrite Hb. simpl.
  rewrite (proj2 (in_block_spec blk off _)) by lia.
  by rewrite list_inserts_take_drop by lia.
Qed.

Lemma store_inv h p bs h' :
  store h p bs = Some h' →
  ∃ b off blk, p = Ptr b off ∧ h !! b = Some blk ∧ 0 ≤ off ∧
    off + Z.of_nat (length bs) ≤ Z.of_nat (length blk) ∧
    h' = <[b := take (Z.to_nat off) blk ++ bs
                 ++ drop (Z.to_nat off + length bs) blk]> h.
Proof.
  destruct p as [|b off]; simpl; [done|].
  destruct (h !! b) as [blk|] eqn:Hb; simpl; [|done].
  destruct (in_block blk off _) eqn:Hin; [|done].
  apply in_block_spec in Hin. intros [= <-].
  exists b, off, blk. rewrite list_inserts_take_drop by lia. intuition.
Qed.

Lemma store_length h p bs h' : store h p bs = Some h' → length h' = length h.
Proof.
  intros (b & off & blk & -> & _ & _ & _ & ->)%store_inv.
  by rewrite length_insert.
Qed.

Lemma store_block_length h p bs h' b' :
  store h p bs = Some h' → block_length h' b' = block_length h b'.
Proof.
  intros (b & off & blk & -> & Hb & ? & ? & ->)%store_inv.
  unfold block_length. destruct (decide (b = b')) as [<-|Hne].
  - rewrite list_lookup_insert_eq by (by eapply lookup_lt_Some).
    rewrite Hb. simpl. f_equal.
    rewrite !length_app, length_take, length_drop. lia.
  - by rewrite list_lookup_insert_ne.
Qed.

Lemma load_store_eq h p bs h' :
  store h p bs = Some h' → load h' p (Z.of_nat (length bs)) = Some bs.
Proof.
  intros (b & off & blk & -> & Hb & ? & ? & ->)%store_inv.
  set (blk' := take _ blk ++ bs ++ drop _ blk).
  assert (length blk' = length blk) as Hlen.
  { unfold blk'. rewrite !length_app, length_take, length_drop. lia. }
  rewrite (load_Some _ _ _ _ blk'); [|
    apply list_lookup_insert_eq; by eapply lookup_lt_Some | lia.. ].
  f_equal. unfold blk'.
  rewrite drop_app_length' by (rewrite length_take; lia).
  rewrite Nat2Z.id. by rewrite take_app_length.
Qed.

Lemma load_store_other_block h b off bs h' b' off' n :
  store h (Ptr b off) bs = Some h' → b' ≠ b →
  load h' (Ptr b' off') n = load h (Ptr b' off') n.
Proof.
  intros (? & ? & blk & [= <- <-] & Hb & ? & ? & ->)%store_inv Hne.
  simpl. by rewrite list_lookup_insert_ne.
Qed.

Lemma load_store_disjoint h b off bs h' off' n :
  store h (Ptr b off) bs = Some h' →
  off' + n ≤ off ∨ off + Z.of_nat (length bs) ≤ off' →
  load h' (Ptr b off') n = load h (Ptr b off') n.
Proof.
  intros (? & ? & blk & [= <- <-] & Hb & ? & ? & ->)%store_inv Hdisj.
  simpl. rewrite list_lookup_insert_eq by (by eapply lookup_lt_Some).
  rewrite Hb. simpl.
  set (blk' := take _ blk ++ bs ++ drop _ blk).
  assert (length blk' = length blk) as Hlen.
  { unfold blk'. rewrite !length_app, length_take, length_drop. lia. }
  unfold in_block. rewrite Hlen.
  destruct (_ && _) eqn:Hin; [|done].
  rewrite !andb_true_iff, !Z.leb_le in Hin. f_equal.
  apply list_eq. intros j.
  rewrite !lookup_take, !lookup_drop.
  case_decide; [|done].
  unfold blk'. destruct Hdisj.
  - rewrite lookup_app_l by (rewrite length_take; lia).
    rewrite lookup_take_lt by lia. done.
  - rewrite lookup_app_r by (rewrite length_take; lia).
    rewrite lookup_app_r by (rewrite length_take; lia).
    rewrite length_take, lookup_drop. f_equal. lia.
Qed.

Lemma load_app h h2 b off n :
  (b < length h)%nat → load (h ++ h2) (Ptr b off) n = load h (Ptr b off) n.
Proof. intros ?. simpl. by rewrite lookup_app_l. Qed.

Lemma block_length_app h h2 b :
  (b < length h)%nat → block_length (h ++ h2) b = block_length h b.
Proof. intros ?. unfold block_length. by rewrite lookup_app_l. Qed.

Lemma block_length_Some h b z :
  block_length h b = Some z →
  ∃ blk, h !! b = Some blk ∧ Z.of_nat (length blk) = z.
Proof.
  unfold block_length. destruct (h !! b) as [blk|]; simpl; [|done].
  intros [= <-]. eauto.
Qed.

Lemma block_length_lt h b z : block_length h b = Some z → (b < length h)%nat.
Proof.
  intros (blk & Hb & _)%block_length_Some. by eapply lookup_lt_Some.
Qed.

End mem_facts.

(** ** The column [Storage] *)

Lemma Stor_wf_inv h s :
  Stor.wf h s →
  ∃ b blk,
    Stor.buffer s = ArrayAt b (Stor.typeOf s) (Stor.cap s) ∧
    Stor.bufferAddress s = Ptr b 0 ∧
    Stor.itemSize s = Size (Stor.typeOf s) ∧
    h !! b = Some blk ∧
    Z.of_nat (length blk) = Stor.cap s * Stor.itemSize s ∧
    0 ≤ Stor.itemSize s ≤ MaxInt32 ∧
    0 ≤ Stor.len s ≤ Stor.cap s ∧ Stor.cap s < 2 ^ 32 ∧
    0 < Stor.capacityIncrement s < 2 ^ 32.
Proof.
  unfold Stor.wf. destruct (Stor.buffer s) as [|b ty n]; [tauto|].
  intros [(Ha & <- & Hsz & -> & (blk & Hb & Hlen)%block_length_Some) ?].
  exists b, blk. intuition.
Qed.

Lemma Stor_Get_eq s b j :
  Stor.bufferAddress s = Ptr b 0 → 0 ≤ Stor.itemSize s ≤ MaxInt32 →
  0 ≤ j < 2 ^ 32 → Stor.Get s j = Ptr b (j * Stor.itemSize s).
Proof.
  intros Ha ??. unfold Stor.Get. rewrite Ha. simpl.
  by rewrite wrap64_offset.
Qed.

Lemma slice_copy_Ok h src dst n bs :
  n ≤ MaxInt32 → load h src n = Some bs →
  slice_copy h src dst n = lift_mem (store h dst bs).
Proof.
  intros Hn Hl. unfold slice_copy.
  destruct (MaxInt32 <? n) eqn:Hlt; [apply Z.ltb_lt in Hlt; lia|].
  unfold memmove. by rewrite Hl.
Qed.

(** [Remove] within bounds: the call returns, [len] goes down by one, the
    result tells whether [index] was not the last element, and in that
    case the last element has been copied over the removed one; no other
    element and no other block changes. *)
Lemma Stor_Remove_in_bounds h s index :
  Stor.wf h s → 0 ≤ index < Stor.len s →
  ∃ h',
    Stor.Remove h s index
    = Ok (h', Stor.with_len s (Stor.len s - 1),
          bool_decide (index < Stor.len s - 1)) ∧
    Stor.wf h' (Stor.with_len s (Stor.len s - 1)) ∧
    Stor.item h' s index
    = Stor.item h s (if bool_decide (index < Stor.len s - 1)
                     then Stor.len s - 1 else index) ∧
    (∀ j, 0 ≤ j < Stor.cap s → j ≠ index →
       Stor.item h' s j = Stor.item h s j) ∧
    length h' = length h ∧
    (∀ b, block_length h' b = block_length h b) ∧
    (∀ b off n, Some b ≠ block_of (Stor.buffer s) →
       load h' (Ptr b off) n = load h (Ptr b off) n).
Proof.
  intros Hwf Hidx.
  destruct (Stor_wf_inv _ _ Hwf)
    as (b & blk & Hbuf & Haddr & Hty & Hb & Hlen & Hsz & Hl & Hc & Hinc).
  unfold Stor.Remove, Stor.last_index.
  rewrite (wrap32_small (Stor.len s - 1)) by lia.
  case_bool_decide as Hlast.
  - rewrite (proj2 (Z.ltb_lt _ _)) by done.
    rewrite Haddr. simpl unsafe_Add.
    rewrite !wrap64_offset by lia. rewrite !Z.add_0_l.
    set (sz := Stor.itemSize s) in *.
    assert (Stor.len s * sz ≤ Stor.cap s * sz) by nia.
    assert (0 ≤ (Stor.len s - 1) * sz) by nia.
    assert ((Stor.len s - 1) * sz + sz = Stor.len s * sz) by lia.
    assert (0 ≤ index * sz) by nia.
    assert (index * sz + sz ≤ Stor.len s * sz) by nia.
    pose proof (load_Some h b ((Stor.len s - 1) * sz) sz blk Hb
                  ltac:(done) ltac:(lia) ltac:(lia)) as Hload.
    set (bs := take _ _) in Hload.
    pose proof (load_length _ _ _ _ Hload) as Hbs.
    rewrite (slice_copy_Ok _ _ _ sz _ ltac:(lia) Hload).
    pose proof (store_Some h b (index * sz) bs blk Hb ltac:(done) ltac:(lia))
      as Hstore.
    rewrite Hstore. simpl. eexists. split; [done|].
    assert (∀ b', block_length (<[b:=_]> h) b' = block_length h b') as Hbl
      by (intros b'; by eapply store_block_length).
    split; [|split; [|split; [|split; [|split]]]].
    + unfold Stor.wf. simpl. rewrite Hbuf. rewrite Hbl.
      unfold block_length. rewrite Hb. simpl. rewrite Hlen.
      repeat split; try done; try lia.
    + unfold Stor.item.
      rewrite !(Stor_Get_eq s b) by (done || lia). fold sz.
      rewrite Hload.
      pose proof (load_store_eq _ _ _ _ Hstore) as E. by rewrite Hbs in E.
    + intros j Hj Hne. unfold Stor.item.
      rewrite !(Stor_Get_eq s b) by (done || lia). fold sz.
      eapply load_store_disjoint; [done|]. rewrite Hbs. nia.
    + by eapply store_length.
    + done.
    + intros b' off n Hne. eapply load_store_other_block; [done|].
      rewrite Hbuf in Hne. simpl in Hne. congruence.
  - destruct (index <? Stor.len s - 1) eqn:Hlt;
      [apply Z.ltb_lt in Hlt; lia|].
    exists h. split; [done|]. split.
    { unfold Stor.wf. simpl. rewrite Hbuf. unfold block_length.
      rewrite Hb. simpl. rewrite Hlen. repeat split; try done; try lia. }
    done.
Qed.




Arguments Mask_Set : simpl never.
Arguments Arch.layout_Get : simpl never.
Arguments Mask_Get : simpl never.
(** ** [Init] *)

Lemma reflect_New_ArrayOf_Ok h n ty :
  0 ≤ n →
  reflect_New_ArrayOf h n ty
  = Ok (h ++ [replicate (Z.to_nat (n * Size ty)) x00], ArrayAt (length h) ty n).
Proof.
  intros ?. unfold reflect_New_ArrayOf.
  destruct (n <? 0) eqn:Hlt; [apply Z.ltb_lt in Hlt; lia|done].
Qed.

Lemma reflect_New_ArrayOf_inv h n ty r :
  reflect_New_ArrayOf h n ty = Ok r →
  0 ≤ n ∧
  r = (h ++ [replicate (Z.to_nat (n * Size ty)) x00], ArrayAt (length h) ty n).
Proof.
  unfold reflect_New_ArrayOf.
  destruct (n <? 0) eqn:Hlt; [done|]. apply Z.ltb_ge in Hlt.
  simpl. by intros [= <-].
Qed.

Lemma reflect_New_ArrayOf_no_Fault h n ty : reflect_New_ArrayOf h n ty ≠ Fault.
Proof. unfold reflect_New_ArrayOf. by destruct (n <? 0). Qed.

Lemma Mask_Get_Set m id id' :
  0 ≤ m →
  0 ≤ Mask_Set m id true ∧
  Mask_Get (Mask_Set m id true) id' = bool_decide (id' = id) || Mask_Get m id'.
Proof.
  intros Hm. unfold Mask_Get, Mask_Set. split.
  - unfold Z.setbit. apply Z.lor_nonneg. split; [done|].
    apply Z.shiftl_nonneg. lia.
  - rewrite Z.setbit_eqb by lia. f_equal.
    case_bool_decide; [subst; apply Z.eqb_refl|]. apply Z.eqb_neq. lia.
Qed.

Section Init_facts.
Variable MaskTotalBits : nat.
Implicit Types (c : componentType) (l : list componentType).

Lemma Init_inv_start cap0 h0 n :
  Arch.Init_inv MaskTotalBits cap0 h0 n [] (h0, -1, 0, Arch.Init_start MaskTotalBits n).
Proof.
  unfold Arch.Init_inv. simpl. rewrite app_nil_r, Nat.sub_0_r.
  repeat split; try done; try lia.
  - intros c Hc. by apply elem_of_nil in Hc.
  - constructor.
  - intros id. unfold Mask_Get. by rewrite Z.bits_0.
  - apply length_replicate.
  - apply length_replicate.
Qed.

Lemma Init_step_inv cap0 h0 n l c st st' :
  Arch.Init_inv MaskTotalBits cap0 h0 n l st → (length l < n)%nat →
  Arch.Init_step cap0 st (length l, c) = Ok st' →
  Arch.Init_inv MaskTotalBits cap0 h0 n (l ++ [c]) st'.
Proof.
  destruct st as [[[h prev] mask] a].
  intros (Hh & Hprev & Hle & Hsort & Hm0 & Hmask & HIds & Hbufs & Hlay & Hind
          & Hin & Hout) Hn.
  unfold Arch.Init_step.
  destruct (Z.of_nat (ID_of c) <=? prev) eqn:Hcmp; [done|].
  apply Z.leb_gt in Hcmp.
  destruct (Align (Type_of c) =? 0) eqn:Hal; [done|]. apply Z.eqb_neq in Hal.
  destruct (reflect_New_ArrayOf h cap0 (Type_of c)) as [[h1 buf]| |] eqn:Hnew;
    simpl; [|done..].
  apply reflect_New_ArrayOf_inv in Hnew as [Hcap [= -> ->]].
  case_decide as Hid; [|done]. simpl in Hid. rewrite Hlay in Hid.
  intros [= <-]. unfold Arch.Init_inv. simpl.
  assert (length h = length h0 + length l)%nat as Hlenh.
  { rewrite Hh, length_app, length_fmap. done. }
  assert (∀ c', c' ∈ l → ID_of c' ≠ ID_of c) as Hne.
  { intros c' Hc' Heq. apply Hle in Hc'. lia. }
  destruct (Mask_Get_Set mask (ID_of c) 0%nat Hm0) as [Hm0' _].
  split; [|split; [|split; [|split; [|split; [|split; [|split; [|split;
    [|split; [|split; [|split]]]]]]]]]].
  - rewrite Hh, fmap_app, app_assoc. done.
  - lia.
  - intros c' [Hc'| ->%list_elem_of_singleton]%elem_of_app; [|lia].
    apply Hle in Hc'. lia.
  - rewrite fmap_app. apply StronglySorted_app.
    split; [|split; [done|repeat constructor]].
    intros x1 x2 (c1 & -> & Hc1)%list_elem_of_fmap ->%list_elem_of_singleton.
    apply Hle in Hc1. lia.
  - done.
  - intros id. destruct (Mask_Get_Set mask (ID_of c) id Hm0) as [_ ->].
    rewrite Hmask, fmap_app. change (ID_of <$> [c]) with [ID_of c].
    apply eq_bool_prop_intro. rewrite orb_True, !bool_decide_spec.
    rewrite elem_of_app, list_elem_of_singleton. tauto.
  - rewrite HIds, fmap_app, length_app. simpl.
    replace (length l) with (length (ID_of <$> l) + 0)%nat at 1
      by (rewrite length_fmap; lia).
    rewrite insert_app_r.
    destruct (n - length l)%nat as [|k] eqn:Hk; [lia|].
    replace (n - (length l + 1))%nat with k by lia.
    simpl. by rewrite <- app_assoc.
  - rewrite Hbufs, imap_app, length_app. simpl.
    replace (length l) with
      (length (imap (λ i c, ArrayAt (length h0 + i) (Type_of c) cap0) l) + 0)%nat
      at 1 by (rewrite length_imap; lia).
    rewrite insert_app_r.
    destruct (n - length l)%nat as [|k] eqn:Hk; [lia|].
    replace (n - (length l + 1))%nat with k by lia.
    simpl. rewrite <- app_assoc. simpl.
    by rewrite Nat.add_0_r, Hlenh.
  - by rewrite length_insert.
  - by rewrite length_insert.
  - intros i c' [[Hi Hc']|[-> [= <-]]]%lookup_snoc_Some.
    + destruct (Hin i c' Hc') as (? & ? & ? & Hl & Hx).
      assert (ID_of c' ≠ ID_of c)
        by (apply Hne; by eapply list_elem_of_lookup_2).
      by rewrite !list_lookup_insert_ne.
    + rewrite !list_lookup_insert_eq by lia. by rewrite Hlenh.
  - intros id Hnot. rewrite fmap_app in Hnot.
    apply not_elem_of_app in Hnot as [Hnot Hne'].
    rewrite list_lookup_insert_ne; [by apply Hout|].
    intros <-. apply Hne'. by apply list_elem_of_singleton.
Qed.

Lemma Init_step_no_Fault cap0 st ic : Arch.Init_step cap0 st ic ≠ Fault.
Proof.
  destruct st as [[[h prev] mask] a], ic as [i c]. unfold Arch.Init_step.
  destruct (_ <=? _); [done|]. destruct (_ =? _); [done|].
  pose proof (reflect_New_ArrayOf_no_Fault h cap0 (Type_of c)).
  destruct (reflect_New_ArrayOf h cap0 (Type_of c)) as [[h1 buf]| |];
    simpl; [|done..].
  by case_decide.
Qed.

Lemma Init_loop_no_Fault cap0 st xs :
  for_each (Arch.Init_step cap0) st xs ≠ Fault.
Proof.
  revert st. induction xs as [|x xs IH]; intros st; simpl; [done|].
  pose proof (Init_step_no_Fault cap0 st x).
  destruct (Arch.Init_step cap0 st x); simpl; auto.
Qed.

Lemma Init_loop_inv cap0 h0 n l st :
  (length l ≤ n)%nat →
  for_each (Arch.Init_step cap0) (h0, -1, 0, Arch.Init_start MaskTotalBits n)
    (imap pair l) = Ok st →
  Arch.Init_inv MaskTotalBits cap0 h0 n l st.
Proof.
  revert st. induction l as [|c l IH] using rev_ind; intros st Hn.
  - simpl. intros [= <-]. apply Init_inv_start.
  - rewrite length_app in Hn. simpl in Hn.
    rewrite imap_app, for_each_app. intros (st1 & H1 & H2)%bind_Ok.
    simpl in H2. rewrite Nat.add_0_r in H2.
    apply bind_Ok in H2 as (st2 & H2 & [= <-]).
    eapply Init_step_inv; [apply IH; [lia|done]|lia|done].
Qed.

(** What [Init] leaves behind when it returns. *)
Lemma Init_Ok h0 inc fs comps h' a :
  Arch.Init MaskTotalBits h0 inc fs comps = Ok (h', a) →
  let cap0 := if fs then inc else 1 in
  ∃ h1,
    h1 = h0 ++ (Arch.Init_block cap0 <$> comps) ∧
    storage_Init h1 EntityType inc fs = Ok (h', Arch.entities a) ∧
    Arch.Ids a = ID_of <$> comps ∧
    StronglySorted lt (Arch.Ids a) ∧
    Arch.len a = 0 ∧ Arch.cap a = wrap32 cap0 ∧
    Arch.capacityIncrement a = wrap32 inc ∧
    length (Arch.layouts a) = MaskTotalBits ∧
    Arch.buffers a
    = imap (λ i c, ArrayAt (length h0 + i) (Type_of c) cap0) comps ∧
    (∀ i c, comps !! i = Some c →
       (ID_of c < MaskTotalBits)%nat ∧ Align (Type_of c) ≠ 0 ∧ 0 ≤ cap0 ∧
       Arch.layouts a !! ID_of c
       = Some (Arch.mkLayout (Ptr (length h0 + i) 0)
                 (Arch.round_up (Size (Type_of c)) (Align (Type_of c)))) ∧
       Arch.indices a !! ID_of c = Some i) ∧
    (∀ id, (id < MaskTotalBits)%nat → id ∉ Arch.Ids a →
       Arch.layouts a !! id = Some (Arch.mkLayout nil 0)) ∧
    (∀ id, Mask_Get (Arch.Mask_of a) id = bool_decide (id ∈ Arch.Ids a)).
Proof.
  unfold Arch.Init. intros ([[[h1 prev] mask] a1] & Hloop & Hrest)%bind_Ok.
  apply bind_Ok in Hrest as ([h2 ents] & Hents & [= <- <-]).
  apply Init_loop_inv in Hloop; [|done].
  destruct Hloop as (Hh & Hprev & Hle & Hsort & Hm0 & Hmask & HIds & Hbufs
                     & Hlay & Hind & Hin & Hout).
  rewrite Nat.sub_diag, app_nil_r in HIds, Hbufs.
  exists h1. simpl. rewrite HIds.
  repeat split; try done; try (by eapply Hin).
  - intros id Hid Hnot. rewrite Hout by done.
    by apply lookup_replicate_2.
Qed.

Lemma Init_no_Fault h0 inc fs comps :
  Arch.Init MaskTotalBits h0 inc fs comps ≠ Fault.
Proof.
  unfold Arch.Init.
  pose proof (Init_loop_no_Fault (if fs then inc else 1)
    (h0, -1, 0, Arch.Init_start MaskTotalBits (length comps))
    (imap pair comps)) as Hnf.
  destruct (for_each _ _ _) as [[[[h1 prev] mask] a1]| |]; simpl; [|done..].
  unfold storage_Init, Stor.NewReflectStorage.
  pose proof (reflect_New_ArrayOf_no_Fault h1 (if fs then inc else 1)
                EntityType) as Hnf'.
  destruct (reflect_New_ArrayOf _ _ _) as [[h2 buf]| |]; simpl; done.
Qed.
End Init_facts.

Lemma getStorage_Ok a id lay :
  Arch.layouts a !! id = Some lay → Arch.getStorage a id = Ok lay.
Proof. intros H. unfold Arch.getStorage. by rewrite H. Qed.

Lemma getStorage_inv a id lay :
  Arch.getStorage a id = Ok lay → Arch.layouts a !! id = Some lay.
Proof.
  unfold Arch.getStorage. destruct (Arch.layouts a !! id); simpl; congruence.
Qed.

(** The ids of an archetype made by [Init] are those of its components, and
    the layout entry of each holds a pointer that is not [nil]. *)
Lemma Init_member MaskTotalBits h0 inc fs comps h' a id :
  Arch.Init MaskTotalBits h0 inc fs comps = Ok (h', a) →
  (id < MaskTotalBits)%nat →
  ∃ lay, Arch.layouts a !! id = Some lay ∧
    (id ∈ Arch.Ids a → Arch.pointer_of lay ≠ nil) ∧
    (id ∉ Arch.Ids a → lay = Arch.mkLayout nil 0).
Proof.
  intros Hinit Hid.
  destruct (Init_Ok _ _ _ _ _ _ _ Hinit)
    as (h1 & _ & _ & HIds & _ & _ & _ & _ & _ & _ & Hin & Hout & _).
  destruct (decide (id ∈ Arch.Ids a)) as [Hmem|Hmem].
  - pose proof Hmem as Hmem'. rewrite HIds in Hmem'.
    apply list_elem_of_fmap in Hmem' as (c & -> & (i & Hc)%list_elem_of_lookup).
    destruct (Hin i c Hc) as (_ & _ & _ & Hlay & _).
    eexists. split; [done|]. split; [done|]. done.
  - exists (Arch.mkLayout nil 0). split; [by apply Hout|]. done.
Qed.

(** C8.  After [Init], [HasComponent(id)] is true exactly for the ids of
    the archetype's id list, the ids of the components given to [Init],
    whatever their size: the layout entry of every such id holds a pointer
    that is not [nil]. *)
Theorem HasComponent_iff_member MaskTotalBits h0 inc fs comps h' a id :
  Arch.Init MaskTotalBits h0 inc fs comps = Ok (h', a) →
  (id < MaskTotalBits)%nat →
  Arch.HasComponent a id = Ok (bool_decide (id ∈ Arch.Ids a)) ∧
  Arch.Ids a = ID_of <$> comps ∧
  (∀ c, c ∈ comps → Arch.HasComponent a (ID_of c) = Ok true).
Proof.
  intros Hinit Hid.
  assert (∀ id, (id < MaskTotalBits)%nat →
            Arch.HasComponent a id = Ok (bool_decide (id ∈ Arch.Ids a))) as Hhas.
  { clear id Hid. intros id Hid.
    destruct (Init_member _ _ _ _ _ _ _ id Hinit Hid) as (lay & Hlay & Hp & Hn).
    unfold Arch.HasComponent. rewrite (getStorage_Ok _ _ _ Hlay). simpl.
    f_equal. case_bool_decide as Hmem.
    - specialize (Hp Hmem). by destruct (Arch.pointer_of lay).
    - by rewrite (Hn Hmem). }
  destruct (Init_Ok _ _ _ _ _ _ _ Hinit)
    as (h1 & _ & _ & HIds & _ & _ & _ & _ & _ & _ & Hin & _).
  split; [by apply Hhas|]. split; [done|].
  intros c Hc. pose proof Hc as (i & Hi)%list_elem_of_lookup.
  destruct (Hin i c Hi) as (Hlt & _).
  rewrite Hhas by done. f_equal. apply bool_decide_eq_true_2.
  rewrite HIds. apply list_elem_of_fmap. eauto.
Qed.

Example HasComponent_iff_member_witness :
  let tag := {| ID_of := 0; Type_of := {| Size := 0; Align := 1 |} |} in
  let pos := {| ID_of := 2; Type_of := {| Size := 8; Align := 4 |} |} in
  ∃ h a, Arch.Init 4 [] 8 true [tag; pos] = Ok (h, a) ∧
    Arch.HasComponent a 0 = Ok true ∧ Arch.HasComponent a 1 = Ok false ∧
    Arch.HasComponent a 2 = Ok true.
Proof.
  intros tag pos.
  destruct (Arch.Init 4 [] 8 true [tag; pos]) as [[h a]| |] eqn:Hinit;
    [|by vm_compute in Hinit..].
  exists h, a. split; [done|].
  pose proof (λ id, HasComponent_iff_member 4 [] 8 true [tag; pos] h a id Hinit)
    as H.
  destruct (H 0%nat ltac:(lia)) as (H0 & HIds & _).
  destruct (H 1%nat ltac:(lia)) as (H1 & _).
  destruct (H 2%nat ltac:(lia)) as (H2 & _).
  rewrite H0, H1, H2, HIds. by vm_compute.
Defined.

(** C1, as the code has it.  After [Init] the entry of the access table for
    an id holds a pointer that is not [nil] if and only if the id is one of
    the archetype's ids, whatever the size of the component; for an id that
    is not in the archetype the pointer is [nil]. *)
Theorem access_pointer_iff_member MaskTotalBits h0 inc fs comps h' a id :
  Arch.Init MaskTotalBits h0 inc fs comps = Ok (h', a) →
  (id < MaskTotalBits)%nat →
  ∃ lay, Arch.getStorage a id = Ok lay ∧
    (Arch.pointer_of lay ≠ nil ↔ id ∈ Arch.Ids a) ∧
    (id ∉ Arch.Ids a → Arch.pointer_of lay = nil).
Proof.
  intros Hinit Hid.
  destruct (Init_member _ _ _ _ _ _ _ id Hinit Hid) as (lay & Hlay & Hp & Hn).
  exists lay. split; [by apply getStorage_Ok|]. split.
  - split; [|done]. intros Hnn.
    destruct (decide (id ∈ Arch.Ids a)) as [|Hmem]; [done|].
    rewrite (Hn Hmem) in Hnn. done.
  - intros Hmem. by rewrite (Hn Hmem).
Qed.

Example access_pointer_iff_member_witness :
  let tag := {| ID_of := 0; Type_of := {| Size := 0; Align := 1 |} |} in
  let pos := {| ID_of := 2; Type_of := {| Size := 8; Align := 4 |} |} in
  ∃ h a lay, Arch.Init 4 [] 8 true [tag; pos] = Ok (h, a) ∧
    Arch.getStorage a 1 = Ok lay ∧
    (Arch.pointer_of lay ≠ nil ↔ 1%nat ∈ Arch.Ids a) ∧
    (1%nat ∉ Arch.Ids a → Arch.pointer_of lay = nil).
Proof.
  intros tag pos.
  destruct (Arch.Init 4 [] 8 true [tag; pos]) as [[h a]| |] eqn:Hinit;
    [|by vm_compute in Hinit..].
  destruct (access_pointer_iff_member 4 [] 8 true [tag; pos] h a 1 Hinit
              ltac:(lia)) as (lay & H).
  by exists h, a, lay.
Defined.

(** C1 as stated fails: the component 0 of this archetype has size 0, it
    is one of the archetype's ids, and the pointer of its entry is not
    [nil]. *)
Example access_pointer_zero_size_counterexample :
  let tag := {| ID_of := 0; Type_of := {| Size := 0; Align := 1 |} |} in
  ∃ h a lay, Arch.Init 4 [] 8 true [tag] = Ok (h, a) ∧
    Arch.getStorage a 0 = Ok lay ∧
    Arch.pointer_of lay ≠ nil ∧
    ¬ (0%nat ∈ Arch.Ids a ∧ 0 < Size (Type_of tag)) ∧
    Arch.itemSize lay = 0.
Proof.
  intros tag. eexists _, _, _.
  split; [by vm_compute|]. split; [by vm_compute|].
  split; [done|]. split; [|done]. intros [_ H]. simpl in H. lia.
Qed.

(** ** Item sizes *)

(** [round_up s al] is the least multiple of [al] that is at least [s]. *)
Lemma round_up_spec s al :
  0 ≤ s → 0 < al → s + al ≤ 2 ^ 64 →
  (al | Arch.round_up s al) ∧
  s ≤ Arch.round_up s al < s + al ∧
  (∀ m, (al | m) → s ≤ m → Arch.round_up s al ≤ m).
Proof.
  intros Hs Hal Hmax. unfold Arch.round_up.
  rewrite (wrap64_small (s + (al - 1))) by lia.
  pose proof (Z.div_mod (s + (al - 1)) al ltac:(lia)) as Hdm.
  pose proof (Z.mod_pos_bound (s + (al - 1)) al Hal) as Hmod.
  set (q := (s + (al - 1)) / al) in *.
  set (r := (s + (al - 1)) mod al) in *.
  assert (0 ≤ q) by (apply Z.div_pos; lia).
  assert (q * al = s + (al - 1) - r) as Hq by lia.
  clearbody q r. rewrite wrap64_small by lia.
  split; [by exists q|]. split; [lia|].
  intros m [k ->] Hk.
  apply Z.mul_le_mono_nonneg_r; [lia|].
  assert (q < k + 1); [|lia].
  apply (Z.mul_lt_mono_pos_r al); lia.
Qed.

Lemma round_up_multiple s al :
  0 ≤ s → 0 < al → s + al ≤ 2 ^ 64 → s mod al = 0 → Arch.round_up s al = s.
Proof.
  intros Hs Hal Hmax Hmod.
  destruct (round_up_spec s al Hs Hal Hmax) as (_ & Hr & Hmin).
  apply Z.mod_divide in Hmod; [|lia].
  specialize (Hmin s Hmod). lia.
Qed.

Lemma round_up_zero al : 0 < al → Arch.round_up 0 al = 0.
Proof.
  intros Hal. unfold Arch.round_up. rewrite Z.add_0_l.
  assert (0 ≤ wrap64 (al - 1) < al) as Hw.
  { unfold wrap64.
    pose proof (Z.mod_pos_bound (al - 1) (2 ^ 64) ltac:(lia)).
    pose proof (Z.mod_le (al - 1) (2 ^ 64) ltac:(lia) ltac:(lia)). lia. }
  by rewrite Z.div_small.
Qed.

Lemma layout_Get_eq b sz row :
  0 ≤ sz ≤ MaxInt32 → 0 ≤ row < 2 ^ 32 →
  Arch.layout_Get (Arch.mkLayout (Ptr b 0) sz) row = Ptr b (row * sz).
Proof.
  intros ??. unfold Arch.layout_Get. simpl.
  rewrite (Z.mul_comm sz row), wrap64_offset by done. done.
Qed.

(** C9.  The item size in the layout entry of a component with declared
    size [s] and alignment [a] is [round_up s a], the least multiple of [a]
    that is at least [s]: it is [s] itself exactly when [a] divides [s].
    It is the stride of [Get], and [Set] copies exactly that many bytes:
    the bytes of the source replace those of the column's block from
    [row * itemSize] on, and nothing else changes. *)
Theorem layout_itemSize_rounded MaskTotalBits h0 inc fs comps h' a c :
  Arch.Init MaskTotalBits h0 inc fs comps = Ok (h', a) → c ∈ comps →
  let s := Size (Type_of c) in
  let al := Align (Type_of c) in
  let isz := Arch.round_up s al in
  ∃ b,
    Arch.getStorage a (ID_of c) = Ok (Arch.mkLayout (Ptr b 0) isz) ∧
    h' !! b = Some (Arch.Init_block (if fs then inc else 1) c) ∧
    (0 ≤ s → 0 < al → s + al ≤ 2 ^ 64 →
       (al | isz) ∧ s ≤ isz < s + al ∧
       (∀ m, (al | m) → s ≤ m → isz ≤ m) ∧
       (isz = s ↔ s mod al = 0)) ∧
    (∀ row, Arch.Get a row (ID_of c)
            = Ok (Ptr b (0 + wrap64 (isz * row)))) ∧
    (∀ row, 0 ≤ row < 2 ^ 32 → 0 ≤ isz ≤ MaxInt32 →
       Arch.Get a row (ID_of c) = Ok (Ptr b (row * isz))) ∧
    (∀ h row src bs blk,
       0 ≤ row < 2 ^ 32 → 0 < isz ≤ MaxInt32 →
       load h src isz = Some bs → h !! b = Some blk →
       row * isz + isz ≤ Z.of_nat (length blk) →
       Z.of_nat (length bs) = isz ∧
       Arch.Set_ h a row (ID_of c) src
       = Ok (<[b := take (Z.to_nat (row * isz)) blk ++ bs
                     ++ drop (Z.to_nat (row * isz) + length bs) blk]> h,
             Ptr b (row * isz))).
Proof.
  intros Hinit (i & Hc)%list_elem_of_lookup s al isz.
  destruct (Init_Ok _ _ _ _ _ _ _ Hinit)
    as (h1 & Hh1 & Hents & HIds & _ & _ & _ & _ & _ & _ & Hin & _).
  destruct (Hin i c Hc) as (_ & _ & _ & Hlay & _).
  exists (length h0 + i)%nat.
  pose proof (getStorage_Ok _ _ _ Hlay) as Hget. fold s al isz in Hget.
  split; [done|]. split; [|split; [|split; [|split]]].
  - unfold storage_Init, Stor.NewReflectStorage in Hents.
    destruct (reflect_New_ArrayOf _ _ _) as [[h2 buf]| |] eqn:Hnew;
      simpl in Hents; [|done..].
    apply reflect_New_ArrayOf_inv in Hnew as [_ [= -> ->]].
    injection Hents as <- _.
    pose proof (lookup_lt_Some _ _ _ Hc) as Hi.
    rewrite lookup_app_l by (rewrite Hh1, length_app, length_fmap; lia).
    rewrite Hh1, lookup_app_r by lia.
    replace (length h0 + i - length h0)%nat with i by lia.
    by rewrite list_lookup_fmap, Hc.
  - intros Hs Hal Hmax.
    destruct (round_up_spec s al Hs Hal Hmax) as (Hdiv & Hb & Hmin).
    fold isz in Hdiv, Hb, Hmin.
    split; [done|]. split; [done|]. split; [done|]. split.
    + intros Heq. apply Z.mod_divide; [lia|]. by rewrite <- Heq.
    + intros Hmod. by apply round_up_multiple.
  - intros row. unfold Arch.Get. by rewrite Hget.
  - intros row Hrow Hisz. unfold Arch.Get. rewrite Hget. simpl.
    by rewrite layout_Get_eq.
  - intros h row src bs blk Hrow Hisz Hsrc Hblk Hfit.
    pose proof (load_length _ _ _ _ Hsrc) as Hlen.
    split; [done|].
    unfold Arch.Set_, Arch.Get. rewrite Hget.
    cbn [mbind outcome_bind Arch.itemSize].
    rewrite layout_Get_eq by lia.
    rewrite (proj2 (Z.eqb_neq isz 0)) by lia.
    unfold Arch.copy. rewrite (slice_copy_Ok _ _ _ _ bs) by (done || lia).
    rewrite (store_Some _ _ _ _ blk) by (done || nia).
    done.
Qed.

Example layout_itemSize_rounded_witness :
  ∃ h a,
    Arch.Init 4 [demo_value] 2 true demo_components = Ok (h, a) ∧
    Arch.getStorage a 0 = Ok (Arch.mkLayout (Ptr 1 0) 8) ∧
    Arch.Get a 1 0 = Ok (Ptr 1 8) ∧
    Arch.Set_ h a 1 0 (Ptr 0 0)
    = Ok (<[1%nat := replicate 8 x00 ++ demo_value]> h, Ptr 1 8).
Proof.
  destruct (Arch.Init 4 [demo_value] 2 true demo_components)
    as [[h a]| |] eqn:Hinit; [|by vm_compute in Hinit..].
  destruct (layout_itemSize_rounded 4 [demo_value] 2 true demo_components
              h a (Build_componentType 0 position) Hinit
              ltac:(apply list_elem_of_here))
    as (b & Hlay & Hblk & _ & _ & Hget & Hset).
  assert (b = 1%nat ∧ load h (Ptr 0 0) 8 = Some demo_value) as [-> Hsrc].
  { vm_compute in Hlay. vm_compute in Hinit. injection Hinit as <- <-.
    split; [by injection Hlay|reflexivity]. }
  clear Hinit.
  destruct (Hset h 1 (Ptr 0 0) demo_value _ ltac:(lia)
              ltac:(vm_compute; split; [reflexivity|discriminate]) Hsrc Hblk
              ltac:(vm_compute; discriminate)) as [_ HS].
  exists h, a. split; [reflexivity|]. split; [exact Hlay|].
  split; [exact (Hget 1 ltac:(lia) ltac:(vm_compute; split; discriminate))|].
  exact HS.
Defined.

(** ** Contract violations *)

(** C6.  [Init] panics when the ids of the components are not strictly
    ascending, and [Add] panics when the number of components differs from
    the number of ids of the archetype: neither returns. *)
Theorem contract_violations_panic MaskTotalBits h inc fs comps a entity components :
  (¬ StronglySorted lt (ID_of <$> comps) →
     panics (Arch.Init MaskTotalBits h inc fs comps)) ∧
  (length components ≠ length (Arch.Ids a) →
     Arch.Add h a entity components = Panic "Invalid number of components").
Proof.
  split.
  - intros Hns.
    pose proof (Init_no_Fault MaskTotalBits h inc fs comps) as Hnf.
    destruct (Arch.Init MaskTotalBits h inc fs comps) as [[h' a']|msg|] eqn:Hinit.
    + destruct (Init_Ok _ _ _ _ _ _ _ Hinit)
        as (h1 & _ & _ & HIds & Hsort & _).
      rewrite HIds in Hsort. done.
    + by exists msg.
    + done.
  - intros Hlen. unfold Arch.Add. by case_decide.
Qed.

(** The two calls that the tests of the archetype expect to panic. *)
Example contract_violations_panic_witness :
  let position := {| Size := 8; Align := 4 |} in
  let rotation := {| Size := 4; Align := 4 |} in
  let sorted := [Build_componentType 0 position; Build_componentType 1 rotation] in
  let unsorted := [Build_componentType 1 rotation; Build_componentType 0 position] in
  panics (Arch.Init 128 [] 32 true unsorted) ∧
  ∃ h a, Arch.Init 128 [] 32 true sorted = Ok (h, a) ∧
    Arch.Add h a (Build_Entity 1 0) [Build_Component 0 nil]
    = Panic "Invalid number of components".
Proof.
  intros position rotation sorted unsorted. split.
  - apply (contract_violations_panic 128 [] 32 true unsorted
             (Arch.Init_start 128 0) (Build_Entity 0 0) []).
    intros Hs. cbn in Hs. apply StronglySorted_inv in Hs as [_ Hs].
    apply Forall_cons in Hs as [Hs _]. cbn in Hs. lia.
  - destruct (Arch.Init 128 [] 32 true sorted) as [[h a]| |] eqn:Hinit;
      [|by vm_compute in Hinit..].
    exists h, a. split; [done|].
    apply (contract_violations_panic 128 h 32 true sorted).
    assert (Arch.Ids a = [0; 1]%nat) as ->; [|simpl; lia].
    by vm_compute in Hinit; injection Hinit as <- <-.
Defined.

Example Init_unsorted_message :
  Arch.Init 128 [] 32 true
    [Build_componentType 1 {| Size := 4; Align := 4 |};
     Build_componentType 0 {| Size := 8; Align := 4 |}]
  = Panic "component arguments must be sorted by ID".
Proof. by vm_compute. Qed.

(** ** Well-formed archetypes *)

Lemma wf_col h a i id :
  Arch.wf h a → Arch.Ids a !! i = Some id →
  ∃ b ty n blk,
    Arch.indices a !! id = Some i ∧
    Arch.buffers a !! i = Some (ArrayAt b ty n) ∧
    Arch.layouts a !! id = Some (Arch.mkLayout (Ptr b 0) (Size ty)) ∧
    h !! b = Some blk ∧ Z.of_nat (length blk) = n * Size ty ∧
    0 ≤ Size ty ≤ MaxInt32 ∧ 0 ≤ n ∧ (Size ty ≠ 0 → n = Arch.cap a).
Proof.
  intros (_ & _ & _ & Hcols & _) Hi.
  rewrite Forall_lookup in Hcols.
  specialize (Hcols i (i, id)). rewrite list_lookup_imap, Hi in Hcols.
  specialize (Hcols eq_refl). simpl in Hcols. destruct Hcols as [Hidx Hcol].
  destruct (Arch.buffers a !! i) as [[|b ty n]|]; try done.
  destruct Hcol as (Hlay & (blk & Hb & Hlen)%block_length_Some & ? & ? & ?).
  exists b, ty, n, blk. intuition.
Qed.

Lemma wf_col_of_id h a id :
  Arch.wf h a → id ∈ Arch.Ids a →
  ∃ i, Arch.Ids a !! i = Some id ∧ Arch.indices a !! id = Some i.
Proof.
  intros Hwf (i & Hi)%list_elem_of_lookup. exists i. split; [done|].
  by destruct (wf_col h a i id Hwf Hi) as (? & ? & ? & ? & ? & _).
Qed.

Lemma wf_blocks_distinct h a i j b ty n ty' n' :
  Arch.wf h a →
  Arch.buffers a !! i = Some (ArrayAt b ty n) →
  Arch.buffers a !! j = Some (ArrayAt b ty' n') → i = j.
Proof.
  intros (_ & _ & _ & _ & Hnd & _) Hi Hj.
  apply NoDup_cons in Hnd as [_ Hnd].
  eapply (NoDup_lookup _ i j (Some b)); [done|..];
    rewrite list_lookup_fmap; [by rewrite Hi|by rewrite Hj].
Qed.

Lemma wf_entities_block h a i b ty n :
  Arch.wf h a → Arch.buffers a !! i = Some (ArrayAt b ty n) →
  Some b ≠ block_of (Stor.buffer (Arch.entities a)).
Proof.
  intros (_ & _ & _ & _ & Hnd & _) Hi Heq.
  apply NoDup_cons in Hnd as [Hnot _]. apply Hnot. rewrite <- Heq.
  apply list_elem_of_lookup. exists i. by rewrite list_lookup_fmap, Hi.
Qed.

Lemma wf_entities h a : Arch.wf h a → Stor.wf h (Arch.entities a).
Proof. by intros (_ & _ & _ & _ & _ & ? & _). Qed.

Lemma wf_bounds h a :
  Arch.wf h a →
  0 ≤ Arch.len a ≤ Arch.cap a ∧ Arch.cap a < 2 ^ 32 ∧
  0 < Arch.capacityIncrement a < 2 ^ 32 ∧
  Stor.len (Arch.entities a) = Arch.len a.
Proof. intros (? & ? & ? & _ & _ & _ & ?). done. Qed.

Lemma item_eq h a row id b sz :
  Arch.layouts a !! id = Some (Arch.mkLayout (Ptr b 0) sz) →
  0 ≤ sz ≤ MaxInt32 → 0 ≤ row < 2 ^ 32 →
  Arch.item h a row id = load h (Ptr b (row * sz)) sz.
Proof.
  intros Hlay ??. unfold Arch.item. rewrite Hlay.
  by rewrite layout_Get_eq.
Qed.

(** ** [Set] and [Get] *)

(** C7.  On a well-formed archetype, for a row within bounds and a
    component of the archetype that takes memory: [Set] returns the pointer
    that [Get] returns, the bytes there are afterwards those of the source
    (as many as the item size), and no other row, no other column and no
    entity has changed. *)
Theorem Set_then_Get h a row id src lay bs :
  Arch.wf h a → 0 ≤ row < Arch.len a → id ∈ Arch.Ids a →
  Arch.getStorage a id = Ok lay → Arch.itemSize lay ≠ 0 →
  load h src (Arch.itemSize lay) = Some bs →
  ∃ h' dst,
    Arch.Set_ h a row id src = Ok (h', dst) ∧
    Arch.Get a row id = Ok dst ∧
    load h' dst (Arch.itemSize lay) = Some bs ∧
    (∀ row' id', id' ∈ Arch.Ids a → 0 ≤ row' < Arch.cap a →
       (row', id') ≠ (row, id) →
       Arch.item h' a row' id' = Arch.item h a row' id') ∧
    (∀ j, Stor.item h' (Arch.entities a) j = Stor.item h (Arch.entities a) j).
Proof.
  intros Hwf Hrow Hid Hget Hnz Hsrc.
  destruct (wf_bounds _ _ Hwf) as (Hlen & Hcap & Hinc & Hents).
  pose proof Hid as (i & Hi)%list_elem_of_lookup.
  destruct (wf_col _ _ _ _ Hwf Hi)
    as (b & ty & n & blk & Hidx & Hbuf & Hlay & Hb & Hblk & Hsz & Hn & Hncap).
  apply getStorage_inv in Hget. rewrite Hlay in Hget. injection Hget as <-.
  simpl in *. specialize (Hncap Hnz). subst n.
  set (sz := Size ty) in *.
  assert (0 ≤ row * sz ∧ row * sz + sz ≤ Arch.cap a * sz) as [??] by nia.
  pose proof (load_length _ _ _ _ Hsrc) as Hbs.
  pose proof (store_Some h b (row * sz) bs blk Hb ltac:(done) ltac:(lia))
    as Hstore.
  assert (Arch.Get a row id = Ok (Ptr b (row * sz))) as HGet.
  { unfold Arch.Get. rewrite (getStorage_Ok _ _ _ Hlay). simpl.
    fold sz. by rewrite layout_Get_eq by lia. }
  eexists _, (Ptr b (row * sz)).
  unfold Arch.Set_, Arch.copy. rewrite HGet.
  rewrite (getStorage_Ok _ _ _ Hlay). simpl.
  rewrite (proj2 (Z.eqb_neq sz 0)) by done.
  rewrite (slice_copy_Ok _ _ _ sz bs ltac:(lia) Hsrc), Hstore.
  unfold lift_mem, mbind, outcome_bind.
  split; [done|]. split; [done|]. split; [|split].
  - pose proof (load_store_eq _ _ _ _ Hstore) as E. by rewrite Hbs in E.
  - intros row' id' (i' & Hi')%list_elem_of_lookup Hrow' Hne.
    destruct (wf_col _ _ _ _ Hwf Hi')
      as (b' & ty' & n' & blk' & Hidx' & Hbuf' & Hlay' & Hb' & Hblk' & Hsz'
          & Hn' & Hncap').
    rewrite !(item_eq _ a row' id' b' (Size ty')) by (done || lia).
    destruct (decide (id' = id)) as [->|Hneid].
    + assert (i' = i) as -> by congruence.
      rewrite Hbuf in Hbuf'. injection Hbuf' as <- <- <-.
      assert (row' ≠ row) by congruence. fold sz.
      eapply load_store_disjoint; [done|]. rewrite Hbs. nia.
    + eapply load_store_other_block; [done|].
      intros ->. apply Hneid.
      assert (i' = i) as -> by (by eapply wf_blocks_distinct).
      congruence.
  - intros j. unfold Stor.item, Stor.Get.
    destruct (Stor_wf_inv _ _ (wf_entities _ _ Hwf))
      as (be & blke & Hbufe & Haddr & _).
    rewrite Haddr. simpl.
    eapply load_store_other_block; [done|].
    intros ->. eapply wf_entities_block; [done..|]. by rewrite Hbufe.
Qed.

Example Set_then_Get_witness :
  ∃ h a h' dst,
    demo = Ok (h, a) ∧
    Arch.Set_ h a 1 0 (Ptr 0 0) = Ok (h', dst) ∧
    Arch.Get a 1 0 = Ok dst ∧
    load h' dst 8 = Some demo_value.
Proof.
  destruct demo as [[h a]| |] eqn:Hd; [|by vm_compute in Hd..].
  assert (Arch.wf h a ∧ Arch.len a = 3 ∧ 0%nat ∈ Arch.Ids a ∧
          Arch.getStorage a 0 = Ok (Arch.mkLayout (Ptr 9 0) 8) ∧
          load h (Ptr 0 0) 8 = Some demo_value) as (Hwf & Hlen & Hid & Hlay & Hsrc).
  { vm_compute in Hd. injection Hd as <- <-.
    split; [apply (bool_decide_eq_true_1 _); by vm_compute|].
    split; [done|].
    split; [apply (bool_decide_eq_true_1 _); by vm_compute|].
    split; by vm_compute. }
  destruct (Set_then_Get h a 1 0%nat (Ptr 0 0) _ demo_value Hwf
              ltac:(lia) Hid Hlay ltac:(simpl; lia) Hsrc)
    as (h' & dst & HS & HG & HL & _).
  exists h, a, h', dst.
  split; [reflexivity|]. split; [exact HS|]. split; [exact HG|exact HL].
Defined.

(** ** More on memory *)

Lemma load_store_sub h b off bs h' k n :
  store h (Ptr b off) bs = Some h' → 0 ≤ k → 0 ≤ n →
  k + n ≤ Z.of_nat (length bs) →
  load h' (Ptr b (off + k)) n = Some (take (Z.to_nat n) (drop (Z.to_nat k) bs)).
Proof.
  intros (? & ? & blk & [= <- <-] & Hb & ? & ? & ->)%store_inv ???.
  set (blk' := take _ blk ++ bs ++ drop _ blk).
  assert (length blk' = length blk) as Hlen.
  { unfold blk'. rewrite !length_app, length_take, length_drop. lia. }
  rewrite (load_Some _ _ _ _ blk'); [|
    apply list_lookup_insert_eq; by eapply lookup_lt_Some | lia.. ].
  f_equal. unfold blk'.
  replace (Z.to_nat (off + k)) with (length (take (Z.to_nat off) blk)
                                     + Z.to_nat k)%nat
    by (rewrite length_take; lia).
  rewrite drop_app_add', drop_app_le by (done || lia).
  rewrite take_app_le by (rewrite length_drop; lia). done.
Qed.

Lemma store_other h b off bs h' b' :
  store h (Ptr b off) bs = Some h' → b' ≠ b → h' !! b' = h !! b'.
Proof.
  intros (? & ? & blk & [= <- <-] & Hb & ? & ? & ->)%store_inv Hne.
  by rewrite list_lookup_insert_ne.
Qed.

(** [reflect.Copy] into a new, longer array: the new block starts with the
    bytes of the old one, the rest stays zero. *)
Lemma reflect_Copy_grow h b ty ty' n blk c :
  h !! b = Some blk → Z.of_nat (length blk) = n * Size ty →
  0 ≤ n ≤ c → 0 ≤ Size ty →
  reflect_Copy (h ++ [replicate (Z.to_nat (c * Size ty)) x00])
    (ArrayAt (length h) ty c) (ArrayAt b ty' n)
  = Ok (h ++ [blk ++ replicate (Z.to_nat ((c - n) * Size ty)) x00]).
Proof.
  intros Hb Hlen Hn Hsz. unfold reflect_Copy, memmove.
  rewrite Z.min_r by lia.
  assert (b < length h)%nat by (by eapply lookup_lt_Some).
  rewrite load_app by done.
  rewrite (load_Some _ _ _ _ blk Hb) by lia.
  rewrite Z2Nat.inj_0, drop_0.
  assert (length blk ≤ Z.to_nat (n * Size ty))%nat as Hge by lia.
  rewrite (take_ge _ _ Hge). simpl.
  rewrite lookup_app_r, Nat.sub_diag by lia. simpl.
  rewrite (proj2 (in_block_spec _ _ _));
    [|rewrite length_replicate; nia].
  simpl. f_equal.
  rewrite list_inserts_take_drop by (rewrite length_replicate; nia).
  replace (length h) with (length h + 0)%nat at 1 by lia.
  rewrite insert_app_r. simpl. rewrite drop_replicate.
  assert (Z.to_nat (c * Size ty) - length blk
          = Z.to_nat ((c - n) * Size ty))%nat as ->; [|done].
  replace ((c - n) * Size ty) with (c * Size ty - n * Size ty) by ring.
  assert (0 ≤ c * Size ty) by nia. lia.
Qed.

(** The loop that zeroes [n] bytes stores [n] zero bytes. *)
Lemma Stor_zero_bytes_store n h b off blk :
  h !! b = Some blk → 0 ≤ off → off + Z.of_nat n ≤ Z.of_nat (length blk) →
  Stor.zero_bytes n h (Ptr b off) = lift_mem (store h (Ptr b off) (replicate n x00)).
Proof.
  revert h off blk. induction n as [|n IH]; intros h off blk Hb Hoff Hlen.
  - simpl. rewrite Hb. simpl.
    rewrite (proj2 (in_block_spec _ _ _)) by (simpl; lia). simpl.
    by rewrite list_insert_id.
  - cbn [Stor.zero_bytes].
    rewrite (store_Some h b off [x00] blk Hb) by (done || simpl; lia).
    cbn [lift_mem mbind outcome_bind unsafe_Add].
    set (blk1 := take (Z.to_nat off) blk ++ [x00] ++ drop _ blk).
    assert (length blk1 = length blk) as Hlen1.
    { unfold blk1. rewrite !length_app, length_take, length_drop. simpl. lia. }
    rewrite (IH _ (off + 1) blk1);
      [|apply list_lookup_insert_eq; by eapply lookup_lt_Some|lia|lia].
    rewrite (store_Some _ b (off + 1) (replicate n x00) blk1);
      [|apply list_lookup_insert_eq; by eapply lookup_lt_Some|lia|
       rewrite length_replicate; lia].
    rewrite (store_Some h b off (replicate (S n) x00) blk Hb);
      [|done|rewrite length_replicate; lia].
    simpl lift_mem. f_equal. rewrite list_insert_insert_eq. f_equal.
    rewrite !length_replicate. unfold blk1.
    replace (Z.to_nat (off + 1)) with (length (take (Z.to_nat off) blk) + 1)%nat
      by (rewrite length_take; lia).
    rewrite take_app_add' by done.
    rewrite <- !app_assoc. f_equal. simpl. f_equal. f_equal.
    rewrite length_take.
    replace (Z.to_nat off `min` length blk + 1 + n)%nat
      with (length (take (Z.to_nat off) blk) + (1 + n))%nat
      by (rewrite length_take; lia).
    rewrite drop_app_add' by done. simpl.
    rewrite drop_drop. f_equal. lia.
Qed.

(** ** The column [Storage], continued *)

Lemma Stor_wf_intro h s b blk :
  Stor.buffer s = ArrayAt b (Stor.typeOf s) (Stor.cap s) →
  Stor.bufferAddress s = Ptr b 0 →
  Stor.itemSize s = Size (Stor.typeOf s) →
  h !! b = Some blk →
  Z.of_nat (length blk) = Stor.cap s * Stor.itemSize s →
  0 ≤ Stor.itemSize s ≤ MaxInt32 →
  0 ≤ Stor.len s ≤ Stor.cap s → Stor.cap s < 2 ^ 32 →
  0 < Stor.capacityIncrement s < 2 ^ 32 →
  Stor.wf h s.
Proof.
  intros Hbuf Haddr Hsz Hb Hlen ????. unfold Stor.wf. rewrite Hbuf.
  unfold block_length. rewrite Hb. simpl. rewrite Hlen. done.
Qed.

Lemma Stor_item_eq h s b j :
  Stor.bufferAddress s = Ptr b 0 → 0 ≤ Stor.itemSize s ≤ MaxInt32 →
  0 ≤ j < 2 ^ 32 →
  Stor.item h s j = load h (Ptr b (j * Stor.itemSize s)) (Stor.itemSize s).
Proof. intros. unfold Stor.item. by rewrite (Stor_Get_eq s b). Qed.

(** [extend] on a well-formed column: afterwards there is room for one
    more element, the elements are where they were, and no block that
    existed before has changed. *)
Lemma Stor_extend_spec h s :
  Stor.wf h s → Stor.len s + 1 < 2 ^ 32 →
  Stor.cap s + Stor.capacityIncrement s < 2 ^ 32 →
  ∃ h' s',
    Stor.extend h s = Ok (h', s') ∧ Stor.wf h' s' ∧
    Stor.len s' = Stor.len s ∧ Stor.len s < Stor.cap s' ∧
    Stor.cap s' = (if decide (Stor.len s < Stor.cap s) then Stor.cap s
                   else Stor.cap s + Stor.capacityIncrement s) ∧
    Stor.itemSize s' = Stor.itemSize s ∧ Stor.typeOf s' = Stor.typeOf s ∧
    Stor.capacityIncrement s' = Stor.capacityIncrement s ∧
    (∀ j, 0 ≤ j < Stor.cap s → Stor.item h' s' j = Stor.item h s j) ∧
    (∃ hnew, h' = h ++ hnew) ∧
    (block_of (Stor.buffer s') = block_of (Stor.buffer s) ∨
     block_of (Stor.buffer s') = Some (length h)).
Proof.
  intros Hwf Hlen1 Hcap1.
  destruct (Stor_wf_inv _ _ Hwf)
    as (b & blk & Hbuf & Haddr & Hty & Hb & Hblk & Hsz & Hl & Hc & Hinc).
  unfold Stor.extend. rewrite (wrap32_small (Stor.len s + 1)) by lia.
  destruct (Stor.cap s <? Stor.len s + 1) eqn:Hcmp.
  - apply Z.ltb_lt in Hcmp.
    rewrite (wrap32_small (Stor.cap s + _)) by lia.
    set (c := Stor.cap s + Stor.capacityIncrement s).
    rewrite reflect_New_ArrayOf_Ok by lia.
    cbn [mbind outcome_bind]. rewrite Hbuf.
    rewrite (reflect_Copy_grow h b _ _ (Stor.cap s) blk c Hb)
      by (rewrite <- ?Hty; lia).
    cbn [mbind outcome_bind].
    eexists _, _. split; [done|].
    assert ((c - Stor.cap s) * Size (Stor.typeOf s)
            = Stor.capacityIncrement s * Stor.itemSize s) as Hgrow
      by (rewrite Hty; unfold c; ring).
    rewrite Hgrow.
    set (blk' := blk ++ replicate _ x00).
    assert (Z.of_nat (length blk') = c * Stor.itemSize s) as Hblk'.
    { unfold blk'. rewrite length_app, length_replicate. unfold c. nia. }
    assert ((h ++ [blk']) !! length h = Some blk') as Hnew
      by (by rewrite lookup_app_r, Nat.sub_diag by lia).
    split.
    { eapply (Stor_wf_intro _ _ (length h) blk'); simpl; try done; lia. }
    simpl. rewrite decide_False by lia.
    split; [done|]. split; [unfold c; lia|]. split; [done|].
    split; [done|]. split; [done|]. split; [done|].
    split; [|split; [by eexists|by right]].
    intros j Hj.
    rewrite (Stor_item_eq _ _ (length h)) by (done || simpl; lia).
    rewrite (Stor_item_eq _ s b) by (done || lia).
    change (Stor.itemSize (Stor.with_buffer s c _)) with (Stor.itemSize s).
    set (sz := Stor.itemSize s) in *.
    assert (0 ≤ j * sz ∧ j * sz + sz ≤ Z.of_nat (length blk)) as [??] by nia.
    rewrite (load_Some _ _ _ _ blk' Hnew) by lia.
    rewrite (load_Some _ _ _ _ blk Hb) by lia.
    f_equal. unfold blk'.
    rewrite drop_app_le by lia.
    rewrite take_app_le by (rewrite length_drop; lia). done.
  - apply Z.ltb_ge in Hcmp. exists h, s. split; [done|]. split; [done|].
    rewrite decide_True by lia.
    split; [done|]. split; [lia|]. split; [done|].
    split; [done|]. split; [done|]. split; [done|].
    split; [done|]. split; [exists []; by rewrite app_nil_r|by left].
Qed.

Lemma Stor_wf_shape h h' s :
  Stor.wf h s →
  (∀ b z, block_length h b = Some z → block_length h' b = Some z) →
  Stor.wf h' s.
Proof.
  unfold Stor.wf. destruct (Stor.buffer s) as [|b ty n]; [tauto|].
  intros [(? & ? & ? & ? & Hbl) ?] Hshape. split; [|done].
  repeat split; try done. by apply Hshape.
Qed.

Lemma Stor_wf_with_len h s n :
  Stor.wf h s → 0 ≤ n ≤ Stor.cap s → Stor.wf h (Stor.with_len s n).
Proof.
  unfold Stor.wf. simpl. destruct (Stor.buffer s) as [|b ty c]; [tauto|].
  intros [? (? & ? & ? & ?)] ?. done.
Qed.

Lemma load_app_Some h hnew p n bs :
  load h p n = Some bs → load (h ++ hnew) p n = Some bs.
Proof.
  intros Hl. pose proof Hl as (b & off & blk & -> & Hb & _)%load_inv.
  rewrite load_app; [done|]. by eapply lookup_lt_Some.
Qed.

(** What [ToSlice] reads. *)
Lemma read_items_Ok h s i n l :
  Stor.read_items h s i n = Ok l ↔
  length l = n ∧
  ∀ k x, l !! k = Some x → Stor.item h s (i + Z.of_nat k) = Some x.
Proof.
  revert i l. induction n as [|n IH]; intros i l; simpl.
  - split.
    + intros [= <-]. split; [done|]. intros k x Hk. by rewrite lookup_nil in Hk.
    + intros [->%length_zero_iff_nil _]. done.
  - fold (Stor.item h s i). split.
    + destruct (Stor.item h s i) as [x|] eqn:Hx; simpl; [|done].
      destruct (Stor.read_items h s (i + 1) n) as [xs| |] eqn:Hxs; simpl;
        [|done..].
      intros [= <-]. apply IH in Hxs as [Hlen Hxs]. split; [simpl; lia|].
      intros [|k] y Hk; simpl in Hk.
      * injection Hk as <-. by rewrite Z.add_0_r.
      * apply Hxs in Hk. rewrite <- Hk. f_equal. lia.
    + intros [Hlen Hl]. destruct l as [|x xs]; [done|].
      pose proof (Hl 0%nat x eq_refl) as H0. simpl in H0.
      rewrite Z.add_0_r in H0. rewrite H0. simpl.
      assert (Stor.read_items h s (i + 1) n = Ok xs) as ->; [|done].
      apply IH. split; [simpl in Hlen; lia|].
      intros k y Hk. rewrite <- (Hl (S k) y Hk). f_equal. lia.
Qed.

Lemma ToSlice_Ok h s l :
  Stor.ToSlice h s = Ok l ↔
  length l = Z.to_nat (Stor.len s) ∧
  ∀ k x, l !! k = Some x → Stor.item h s (Z.of_nat k) = Some x.
Proof. unfold Stor.ToSlice. rewrite read_items_Ok. done. Qed.

(** [ToSlice] of a well-formed column returns. *)
Lemma ToSlice_wf h s : Stor.wf h s → ∃ l, Stor.ToSlice h s = Ok l.
Proof.
  intros Hwf.
  destruct (Stor_wf_inv _ _ Hwf)
    as (b & blk & Hbuf & Haddr & Hty & Hb & Hblk & Hsz & Hl & Hc & Hinc).
  set (sz := Stor.itemSize s) in *.
  exists ((λ j : nat, take (Z.to_nat sz) (drop (Z.to_nat (Z.of_nat j * sz)) blk))
            <$> seq 0 (Z.to_nat (Stor.len s))).
  apply ToSlice_Ok. split; [by rewrite length_fmap, length_seq|].
  intros k x. rewrite list_lookup_fmap.
  destruct (seq _ _ !! k) as [j|] eqn:Hj; simpl; [|done].
  apply lookup_seq in Hj as [-> Hk]. intros [= <-].
  rewrite (Stor_item_eq _ s b) by (done || lia). fold sz.
  apply load_Some; [done|nia..].
Qed.

(** The write that [Add], [AddPointer] and [Alloc] end with, on the column
    that [extend] returns. *)
Lemma Stor_push_spec h s h1 s1 data :
  Stor.wf h s → Stor.len s + 1 < 2 ^ 32 →
  Stor.wf h1 s1 → Stor.len s1 = Stor.len s → Stor.len s < Stor.cap s1 →
  Stor.itemSize s1 = Stor.itemSize s →
  (∀ j, 0 ≤ j < Stor.cap s → Stor.item h1 s1 j = Stor.item h s j) →
  Z.of_nat (length data) = Stor.itemSize s →
  let s2 := Stor.with_len s1 (wrap32 (Stor.len s1 + 1)) in
  ∃ h2,
    lift_mem (store h1 (Stor.Get s2 (wrap32 (Stor.len s2 - 1))) data) = Ok h2 ∧
    wrap32 (Stor.len s2 - 1) = Stor.len s ∧
    Stor.wf h2 s2 ∧ Stor.len s2 = Stor.len s + 1 ∧
    Stor.item h2 s2 (Stor.len s) = Some data ∧
    (∀ j, 0 ≤ j < Stor.len s → Stor.item h2 s2 j = Stor.item h s j) ∧
    length h2 = length h1 ∧
    (∀ b, Some b ≠ block_of (Stor.buffer s1) → h2 !! b = h1 !! b).
Proof.
  intros Hwf Hlen1 Hwf1 Hlen Hroom Hsz Hitems Hdata s2.
  destruct (Stor_wf_inv _ _ Hwf) as (_ & _ & _ & _ & _ & _ & _ & _ & Hl & _).
  destruct (Stor_wf_inv _ _ Hwf1)
    as (b1 & blk1 & Hbuf1 & Haddr1 & Hty1 & Hb1 & Hblk1 & Hsz1 & Hl1 & Hc1 & Hinc1).
  assert (wrap32 (Stor.len s2 - 1) = Stor.len s) as Hidx.
  { unfold s2. simpl. rewrite (wrap32_small (Stor.len s1 + 1)) by lia.
    rewrite wrap32_small by lia. lia. }
  rewrite Hidx.
  assert (Stor.Get s2 (Stor.len s) = Ptr b1 (Stor.len s * Stor.itemSize s)) as HGet.
  { rewrite (Stor_Get_eq s2 b1) by (done || lia). unfold s2. simpl.
    by rewrite Hsz. }
  rewrite HGet. rewrite Hsz in *. set (sz := Stor.itemSize s) in *.
  assert (0 ≤ Stor.len s * sz ∧
          Stor.len s * sz + sz ≤ Z.of_nat (length blk1)) as [??] by nia.
  pose proof (store_Some h1 b1 (Stor.len s * sz) data blk1 Hb1
                ltac:(done) ltac:(lia)) as Hstore.
  rewrite Hstore. eexists. split; [done|]. split; [done|].
  assert (Stor.len s2 = Stor.len s + 1) as Hlen2.
  { unfold s2. simpl. rewrite wrap32_small by lia. lia. }
  split.
  { eapply Stor_wf_shape.
    - apply (Stor_wf_with_len h1 s1 (wrap32 (Stor.len s1 + 1)) Hwf1).
      rewrite wrap32_small by lia. lia.
    - intros b z Hbz. by rewrite (store_block_length _ _ _ _ _ Hstore). }
  split; [done|]. split; [|split; [|split]].
  - unfold Stor.item. rewrite HGet.
    change (Stor.itemSize s2) with (Stor.itemSize s1). rewrite Hsz. fold sz.
    pose proof (load_store_eq _ _ _ _ Hstore) as E. by rewrite Hdata in E.
  - intros j Hj. rewrite <- Hitems by lia.
    rewrite !(Stor_item_eq _ _ b1) by (done || simpl; lia).
    change (Stor.itemSize s2) with (Stor.itemSize s1). rewrite Hsz. fold sz.
    eapply load_store_disjoint; [done|]. nia.
  - by eapply store_length.
  - intros b Hne. eapply store_other; [done|].
    rewrite Hbuf1 in Hne. simpl in Hne. congruence.
Qed.

(** [Add] on a well-formed column: the index returned is the old length,
    the new element holds the bytes of the source, the earlier elements and
    all other blocks are as before. *)
Lemma Stor_Add_spec h s value bs :
  Stor.wf h s → Stor.len s + 1 < 2 ^ 32 →
  Stor.cap s + Stor.capacityIncrement s < 2 ^ 32 →
  load h value (Stor.itemSize s) = Some bs →
  ∃ h' s',
    Stor.Add h s value = Ok (h', s', Stor.len s) ∧
    Stor.wf h' s' ∧ Stor.len s' = Stor.len s + 1 ∧
    Stor.item h' s' (Stor.len s) = Some bs ∧
    (∀ j, 0 ≤ j < Stor.len s → Stor.item h' s' j = Stor.item h s j) ∧
    (∀ b, (b < length h)%nat → Some b ≠ block_of (Stor.buffer s) →
       h' !! b = h !! b) ∧
    (length h ≤ length h')%nat ∧
    (block_of (Stor.buffer s') = block_of (Stor.buffer s) ∨
     block_of (Stor.buffer s') = Some (length h)) ∧
    Stor.itemSize s' = Stor.itemSize s ∧
    Stor.capacityIncrement s' = Stor.capacityIncrement s.
Proof.
  intros Hwf Hlen1 Hcap1 Hsrc.
  destruct (Stor_extend_spec h s Hwf Hlen1 Hcap1)
    as (h1 & s1 & Hext & Hwf1 & Hlen & Hroom & _ & Hsz & _ & Hinc & Hitems
        & [hnew ->] & Hblock).
  pose proof (load_length _ _ _ _ Hsrc) as Hbs.
  destruct (Stor_push_spec h s _ s1 bs Hwf Hlen1 Hwf1 Hlen Hroom Hsz Hitems Hbs)
    as (h2 & Hst & Hidx & Hwf2 & Hlen2 & Hnew & Hold & Hlenh & Hframe).
  unfold Stor.Add. rewrite Hext. cbn [mbind outcome_bind].
  unfold Stor.set. rewrite Hidx in *.
  change (Stor.itemSize (Stor.with_len s1 _)) with (Stor.itemSize s1).
  rewrite Hsz.
  rewrite (slice_copy_Ok _ _ _ _ bs); first last.
  { by apply load_app_Some. }
  { destruct (Stor_wf_inv _ _ Hwf) as (_ & _ & _ & _ & _ & _ & _ & ? & _). lia. }
  rewrite Hst. cbn [mbind outcome_bind].
  eexists _, _. split; [done|]. split; [done|]. split; [done|].
  split; [done|]. split; [done|]. split; [|split; [|done]].
  - intros b Hb Hne. destruct Hblock as [Heq|Heq].
    + rewrite Hframe by (by rewrite Heq). by apply lookup_app_l.
    + rewrite Hframe by (rewrite Heq; intros [= ->]; lia).
      by apply lookup_app_l.
  - rewrite Hlenh, length_app. lia.
Qed.

Lemma Stor_zero_bytes_Ok n h p h' :
  store h p (replicate n x00) = Some h' → Stor.zero_bytes n h p = Ok h'.
Proof.
  intros Hst. pose proof Hst as (b & off & blk & -> & Hb & ? & Hlen & _)%store_inv.
  rewrite length_replicate in Hlen.
  by rewrite (Stor_zero_bytes_store n h b off blk), Hst.
Qed.

(** X4.  [Alloc] on a well-formed column appends an element of zero bytes and
    returns its index, the old length. *)
Theorem Storage_Alloc_appends_zero h s l :
  Stor.wf h s → Stor.len s + 1 < 2 ^ 32 →
  Stor.cap s + Stor.capacityIncrement s < 2 ^ 32 →
  Stor.ToSlice h s = Ok l →
  ∃ h' s',
    Stor.Alloc h s = Ok (h', s', Stor.len s) ∧
    Stor.wf h' s' ∧
    Stor.ToSlice h' s'
    = Ok (l ++ [replicate (Z.to_nat (Stor.itemSize s)) x00]).
Proof.
  intros Hwf Hlen1 Hcap1 [Hlenl Hl]%ToSlice_Ok.
  destruct (Stor_extend_spec h s Hwf Hlen1 Hcap1)
    as (h1 & s1 & Hext & Hwf1 & Hlen & Hroom & _ & Hsz & _ & _ & Hitems & _).
  destruct (Stor_wf_inv _ _ Hwf) as (_ & _ & _ & _ & _ & _ & _ & Hsz0 & Hl0 & _).
  set (data := replicate (Z.to_nat (Stor.itemSize s)) x00).
  assert (Z.of_nat (length data) = Stor.itemSize s) as Hdata
    by (unfold data; rewrite length_replicate; lia).
  destruct (Stor_push_spec h s _ s1 data Hwf Hlen1 Hwf1 Hlen Hroom Hsz Hitems Hdata)
    as (h2 & Hst & Hidx & Hwf2 & Hlen2 & Hnew & Hold & _).
  unfold Stor.Alloc. rewrite Hext. cbn [mbind outcome_bind].
  unfold Stor.Zero. rewrite Hidx in *.
  change (Stor.itemSize (Stor.with_len s1 _)) with (Stor.itemSize s1).
  rewrite Hsz. fold data.
  destruct (store h1 _ data) as [h2'|] eqn:Hstore; [|done].
  injection Hst as ->.
  rewrite (Stor_zero_bytes_Ok _ _ _ _ Hstore). cbn [mbind outcome_bind].
  eexists _, _. split; [done|]. split; [done|].
  apply ToSlice_Ok. split.
  - rewrite length_app, Hlenl, Hlen2. simpl. lia.
  - intros k x [[Hk Hx]|[-> <-]]%lookup_snoc_Some.
    + rewrite Hold by lia. by apply Hl.
    + rewrite Hlenl, Z2Nat.id by lia. done.
Qed.

(** The capacity after [Add]. *)
Lemma Stor_Add_cap h s value h' s' i :
  Stor.wf h s → Stor.len s + 1 < 2 ^ 32 →
  Stor.cap s + Stor.capacityIncrement s < 2 ^ 32 →
  Stor.Add h s value = Ok (h', s', i) →
  Stor.cap s' = (if decide (Stor.len s < Stor.cap s) then Stor.cap s
                 else Stor.cap s + Stor.capacityIncrement s) ∧
  Stor.capacityIncrement s' = Stor.capacityIncrement s.
Proof.
  intros Hwf Hlen1 Hcap1.
  destruct (Stor_extend_spec h s Hwf Hlen1 Hcap1)
    as (h1 & s1 & Hext & _ & _ & _ & Hcap & _ & _ & Hinc & _).
  unfold Stor.Add. rewrite Hext. cbn [mbind outcome_bind].
  destruct (Stor.set _ _ _ _) as [h2| |]; simpl; [|done..].
  by intros [= _ <- _].
Qed.

(** X3.  [Add] as seen through [ToSlice]: the value is appended to the
    elements; the capacity stays when there was room and grows by
    [capacityIncrement] when the column was full. *)
Theorem Storage_ToSlice_Add h s value bs l :
  Stor.wf h s → Stor.len s + 1 < 2 ^ 32 →
  Stor.cap s + Stor.capacityIncrement s < 2 ^ 32 →
  load h value (Stor.itemSize s) = Some bs →
  Stor.ToSlice h s = Ok l →
  ∃ h' s',
    Stor.Add h s value = Ok (h', s', Stor.len s) ∧
    Stor.wf h' s' ∧
    Stor.ToSlice h' s' = Ok (l ++ [bs]) ∧
    Stor.Len s' = Stor.len s + 1 ∧
    Stor.cap s' = (if decide (Stor.len s < Stor.cap s) then Stor.cap s
                   else Stor.cap s + Stor.capacityIncrement s) ∧
    Stor.capacityIncrement s' = Stor.capacityIncrement s.
Proof.
  intros Hwf Hlen1 Hcap1 Hsrc [Hlen Hl]%ToSlice_Ok.
  destruct (Stor_wf_inv _ _ Hwf) as (_ & _ & _ & _ & _ & _ & _ & _ & Hl0 & _).
  destruct (Stor_Add_spec h s value bs Hwf Hlen1 Hcap1 Hsrc)
    as (h' & s' & HAdd & Hwf' & Hlen' & Hnew & Hold & _).
  destruct (Stor_Add_cap _ _ _ _ _ _ Hwf Hlen1 Hcap1 HAdd) as [Hcap' Hinc'].
  exists h', s'. split; [done|]. split; [done|].
  split; [|done]. apply ToSlice_Ok. split.
  - rewrite length_app, Hlen, Hlen'. simpl. lia.
  - intros k x [[Hk Hx]|[-> <-]]%lookup_snoc_Some.
    + rewrite Hold by lia. by apply Hl.
    + rewrite Hlen, Z2Nat.id by lia. done.
Qed.

(** X5.  [Remove] as seen through [ToSlice]: a swap-remove of the
    elements. *)
Theorem Storage_ToSlice_Remove h s index l :
  Stor.wf h s → 0 ≤ index < Stor.len s →
  Stor.ToSlice h s = Ok l →
  ∃ h' s',
    Stor.Remove h s index
    = Ok (h', s', bool_decide (index < Stor.len s - 1)) ∧
    Stor.wf h' s' ∧
    Stor.ToSlice h' s' = Ok (swap_remove l (Z.to_nat index)).
Proof.
  intros Hwf Hidx [Hlen Hl]%ToSlice_Ok.
  destruct (Stor_wf_inv _ _ Hwf) as (_ & _ & _ & _ & _ & _ & _ & _ & Hl0 & _).
  destruct (Stor_Remove_in_bounds h s index Hwf Hidx)
    as (h' & HRem & Hwf' & Hat & Hother & _).
  exists h', (Stor.with_len s (Stor.len s - 1)).
  split; [done|]. split; [done|].
  unfold swap_remove. rewrite last_lookup.
  destruct (l !! pred (length l)) as [x|] eqn:Hlast; first last.
  { apply lookup_ge_None in Hlast. lia. }
  apply ToSlice_Ok. simpl. split.
  - rewrite length_take, length_insert. lia.
  - intros k y Hk. apply lookup_take_Some in Hk as [Hk Hlt].
    change (Stor.item h' (Stor.with_len s (Stor.len s - 1)) (Z.of_nat k))
      with (Stor.item h' s (Z.of_nat k)).
    destruct (decide (k = Z.to_nat index)) as [->|Hne].
    + rewrite list_lookup_insert_eq in Hk by lia. injection Hk as <-.
      rewrite Z2Nat.id, Hat by lia. case_bool_decide.
      * replace (Stor.len s - 1) with (Z.of_nat (pred (length l))) by lia.
        by apply Hl.
      * replace index with (Z.of_nat (pred (length l))) by lia.
        by apply Hl.
    + rewrite list_lookup_insert_ne in Hk by done.
      rewrite Hother by lia. by apply Hl.
Qed.

(** X1.  [NewReflectStorage] with a positive increment makes a well-formed,
    empty column with room for [increment] elements; with a negative
    increment it panics. *)
Theorem NewReflectStorage_spec h tp increment :
  0 ≤ Size tp ≤ MaxInt32 →
  (0 < increment < 2 ^ 32 →
     ∃ h' s, Stor.NewReflectStorage h tp increment = Ok (h', s) ∧
       Stor.wf h' s ∧ Stor.len s = 0 ∧ Stor.cap s = increment ∧
       Stor.capacityIncrement s = increment ∧
       Stor.itemSize s = Size tp ∧
       Stor.ToSlice h' s = Ok [] ∧
       (∀ b, (b < length h)%nat → h' !! b = h !! b)) ∧
  (increment < 0 → panics (Stor.NewReflectStorage h tp increment)).
Proof.
  intros Hsz. split.
  - intros Hinc. unfold Stor.NewReflectStorage.
    rewrite reflect_New_ArrayOf_Ok by lia. cbn [mbind outcome_bind].
    rewrite !wrap32_small by lia.
    eexists _, _. split; [done|]. split; [|split; [done|split; [done|]]].
    + eapply (Stor_wf_intro _ _ (length h)); simpl; try done; try lia.
      * by rewrite lookup_app_r, Nat.sub_diag by lia.
      * rewrite length_replicate. nia.
    + split; [done|]. split; [done|]. split; [done|].
      intros b Hb. by apply lookup_app_l.
  - intros Hneg. unfold Stor.NewReflectStorage, reflect_New_ArrayOf.
    rewrite (proj2 (Z.ltb_lt _ _)) by done. by eexists.
Qed.

(** X2.  A column made with increment 0 has no room and never gets any: the
    first [Add] of an element that has bytes writes past the end of the
    buffer. *)
Theorem NewReflectStorage_zero_increment h tp value bs h' s :
  0 < Size tp ≤ MaxInt32 →
  Stor.NewReflectStorage h tp 0 = Ok (h', s) →
  load h' value (Size tp) = Some bs →
  Stor.Add h' s value = Fault.
Proof.
  intros Hsz Hnew Hsrc. unfold Stor.NewReflectStorage in Hnew.
  rewrite reflect_New_ArrayOf_Ok, Z.mul_0_l in Hnew by lia.
  cbn [mbind outcome_bind Z.to_nat replicate] in Hnew.
  injection Hnew as <- <-.
  assert (length (h ++ [[] : list byte]) = S (length h)) as Hlenh
    by (rewrite length_app; simpl; lia).
  unfold Stor.Add, Stor.extend.
  cbn [Stor.cap Stor.len Stor.capacityIncrement Stor.typeOf Stor.buffer].
  change (wrap32 0) with 0. change (0 <? wrap32 (0 + 1)) with true.
  change (wrap32 (0 + 0)) with 0. cbv iota.
  rewrite reflect_New_ArrayOf_Ok, Z.mul_0_l by lia.
  cbn [mbind outcome_bind].
  change (replicate (Z.to_nat 0) x00) with ([] : list byte).
  assert (reflect_Copy ((h ++ [[]]) ++ [[]])
            (ArrayAt (length (h ++ [[] : list byte])) tp 0)
            (ArrayAt (length h) tp 0) = Ok ((h ++ [[]]) ++ [[]])) as ->.
  { pose proof (reflect_Copy_grow (h ++ [[]]) (length h) tp tp 0 [] 0) as Hc.
    rewrite Z.sub_diag, Z.mul_0_l in Hc. apply Hc; [|simpl; lia|lia|lia].
    by rewrite lookup_app_r, Nat.sub_diag by lia. }
  cbn [mbind outcome_bind].
  unfold Stor.set, slice_copy, Stor.Get.
  cbn [Stor.itemSize Stor.len Stor.bufferAddress Stor.with_len
       Stor.with_buffer Addr unsafe_Add].
  destruct (MaxInt32 <? Size tp) eqn:Hcmp; [apply Z.ltb_lt in Hcmp; lia|].
  unfold memmove. rewrite (load_app_Some _ [[]] _ _ _ Hsrc).
  cbn [mbind option_bind store].
  rewrite lookup_app_r, Nat.sub_diag by lia.
  cbn [lookup list_lookup mbind option_bind].
  pose proof (load_length _ _ _ _ Hsrc) as Hbs.
  destruct (in_block [] _ _) eqn:Hin; [|done].
  apply in_block_spec in Hin. simpl in Hin. lia.
Qed.

Lemma swap_remove_snoc {A} (l : list A) x :
  swap_remove (l ++ [x]) (length l) = l.
Proof.
  unfold swap_remove. rewrite last_snoc, length_app. simpl.
  replace (length l + 1 - 1)%nat with (length l) by lia.
  replace (length l) with (length l + 0)%nat at 2 by lia.
  rewrite insert_app_r. simpl. by rewrite take_app_length.
Qed.

(** X6.  [Add] and then [Remove] of the index that [Add] returned: no swap, and
    the column holds the elements it held before. *)
Theorem Storage_Add_then_Remove h s value bs l :
  Stor.wf h s → Stor.len s + 1 < 2 ^ 32 →
  Stor.cap s + Stor.capacityIncrement s < 2 ^ 32 →
  load h value (Stor.itemSize s) = Some bs →
  Stor.ToSlice h s = Ok l →
  ∃ h1 s1 index h2 s2,
    Stor.Add h s value = Ok (h1, s1, index) ∧
    Stor.Remove h1 s1 index = Ok (h2, s2, false) ∧
    Stor.len s2 = Stor.len s ∧
    Stor.ToSlice h2 s2 = Ok l.
Proof.
  intros Hwf Hlen1 Hcap1 Hsrc [Hlenl Hl]%ToSlice_Ok.
  destruct (Stor_wf_inv _ _ Hwf) as (_ & _ & _ & _ & _ & _ & _ & _ & Hl0 & _).
  destruct (Stor_Add_spec h s value bs Hwf Hlen1 Hcap1 Hsrc)
    as (h1 & s1 & HAdd & Hwf1 & Hlen' & _ & Hold & _).
  destruct (Stor_Remove_in_bounds h1 s1 (Stor.len s) Hwf1 ltac:(lia))
    as (h2 & HRem & Hwf2 & _ & Hother & _).
  rewrite bool_decide_eq_false_2 in HRem by lia.
  exists h1, s1, (Stor.len s), h2, (Stor.with_len s1 (Stor.len s1 - 1)).
  split; [done|]. split; [done|]. split; [simpl; lia|].
  apply ToSlice_Ok. split; [simpl; lia|].
  intros k x Hk. pose proof (lookup_lt_Some _ _ _ Hk) as Hlt.
  change (Stor.item h2 (Stor.with_len s1 (Stor.len s1 - 1)) (Z.of_nat k))
    with (Stor.item h2 s1 (Z.of_nat k)).
  destruct (Stor_wf_inv _ _ Hwf1) as (_ & _ & _ & _ & _ & _ & _ & _ & Hl1 & _).
  rewrite Hother, Hold by lia. by apply Hl.
Qed.

Lemma demo_column_facts h s :
  demo_column = Ok (h, s) →
  Stor.wf h s ∧ Stor.len s = 2 ∧ Stor.cap s = 2 ∧
  Stor.capacityIncrement s = 2 ∧ Stor.itemSize s = 4 ∧
  load h (Ptr 0 0) 4 = Some [x2a; x00; x00; x00] ∧
  Stor.ToSlice h s = Ok [[x2a; x00; x00; x00]; [x2a; x00; x00; x00]].
Proof.
  intros Hd. vm_compute in Hd. injection Hd as <- <-.
  split; [apply (bool_decide_eq_true_1 _); by vm_compute|].
  repeat split; by vm_compute.
Defined.

Example Storage_ToSlice_Add_witness :
  let v := [x2a; x00; x00; x00] in
  ∃ h s h' s',
    demo_column = Ok (h, s) ∧
    Stor.Add h s (Ptr 0 0) = Ok (h', s', 2) ∧
    Stor.ToSlice h' s' = Ok [v; v; v] ∧
    Stor.cap s = 2 ∧ Stor.cap s' = 4.
Proof.
  intros v.
  destruct demo_column as [[h s]| |] eqn:Hd; [|by vm_compute in Hd..].
  destruct (demo_column_facts h s Hd)
    as (Hwf & Hlen & Hcap & Hinc & Hsz & Hsrc & Hl).
  clear Hd. rewrite <- Hsz in Hsrc.
  destruct (Storage_ToSlice_Add h s (Ptr 0 0) _ _ Hwf
              ltac:(rewrite Hlen; lia) ltac:(rewrite Hcap, Hinc; lia) Hsrc Hl)
    as (h' & s' & HAdd & _ & Hl' & _ & Hcap' & _).
  rewrite Hlen, Hcap, Hinc in *. exists h, s, h', s'.
  split; [reflexivity|]. split; [exact HAdd|]. split; [exact Hl'|].
  split; [exact Hcap|]. rewrite Hcap'. reflexivity.
Defined.

Example Storage_Alloc_appends_zero_witness :
  let v := [x2a; x00; x00; x00] in
  ∃ h s h' s',
    demo_column = Ok (h, s) ∧
    Stor.Alloc h s = Ok (h', s', 2) ∧
    Stor.ToSlice h' s' = Ok [v; v; [x00; x00; x00; x00]].
Proof.
  intros v.
  destruct demo_column as [[h s]| |] eqn:Hd; [|by vm_compute in Hd..].
  destruct (demo_column_facts h s Hd)
    as (Hwf & Hlen & Hcap & Hinc & Hsz & Hsrc & Hl).
  destruct (Storage_Alloc_appends_zero h s _ Hwf
              ltac:(rewrite Hlen; lia) ltac:(rewrite Hcap, Hinc; lia) Hl)
    as (h' & s' & HAl & _ & Hl').
  rewrite Hlen, Hsz in *. exists h, s, h', s'.
  split; [reflexivity|]. split; [exact HAl|exact Hl'].
Defined.

Example Storage_ToSlice_Remove_witness :
  let v := [x2a; x00; x00; x00] in
  ∃ h s h' s',
    demo_column = Ok (h, s) ∧
    Stor.Remove h s 0 = Ok (h', s', true) ∧
    Stor.ToSlice h' s' = Ok [v].
Proof.
  intros v.
  destruct demo_column as [[h s]| |] eqn:Hd; [|by vm_compute in Hd..].
  destruct (demo_column_facts h s Hd)
    as (Hwf & Hlen & Hcap & Hinc & Hsz & Hsrc & Hl).
  destruct (Storage_ToSlice_Remove h s 0 _ Hwf ltac:(rewrite Hlen; lia) Hl)
    as (h' & s' & HRem & _ & Hl').
  rewrite Hlen in *. exists h, s, h', s'.
  split; [reflexivity|]. split; [exact HRem|exact Hl'].
Defined.

Example Storage_Add_then_Remove_witness :
  let v := [x2a; x00; x00; x00] in
  ∃ h s h1 s1 index h2 s2,
    demo_column = Ok (h, s) ∧
    Stor.Add h s (Ptr 0 0) = Ok (h1, s1, index) ∧
    Stor.Remove h1 s1 index = Ok (h2, s2, false) ∧
    Stor.ToSlice h2 s2 = Ok [v; v].
Proof.
  intros v.
  destruct demo_column as [[h s]| |] eqn:Hd; [|by vm_compute in Hd..].
  destruct (demo_column_facts h s Hd)
    as (Hwf & Hlen & Hcap & Hinc & Hsz & Hsrc & Hl).
  rewrite <- Hsz in Hsrc.
  destruct (Storage_Add_then_Remove h s (Ptr 0 0) _ _ Hwf
              ltac:(rewrite Hlen; lia) ltac:(rewrite Hcap, Hinc; lia) Hsrc Hl)
    as (h1 & s1 & index & h2 & s2 & HAdd & HRem & _ & Hl').
  exists h, s, h1, s1, index, h2, s2.
  split; [reflexivity|]. split; [exact HAdd|]. split; [exact HRem|exact Hl'].
Defined.

Example NewReflectStorage_spec_witness :
  (∃ h' s, Stor.NewReflectStorage [] rotation 2 = Ok (h', s) ∧
     Stor.len s = 0 ∧ Stor.cap s = 2 ∧ Stor.ToSlice h' s = Ok []) ∧
  panics (Stor.NewReflectStorage [] rotation (-1)).
Proof.
  destruct (NewReflectStorage_spec [] rotation 2 ltac:(by vm_compute))
    as [Hpos _].
  destruct (NewReflectStorage_spec [] rotation (-1) ltac:(by vm_compute))
    as [_ Hneg].
  split; [|apply Hneg; lia].
  destruct (Hpos ltac:(lia)) as (h' & s & Hnew & _ & Hlen & Hcap & _ & _ & Hl & _).
  by exists h', s.
Defined.

Example NewReflectStorage_zero_increment_witness :
  ∃ h s, Stor.NewReflectStorage [[x2a; x00; x00; x00]] rotation 0 = Ok (h, s) ∧
    Stor.Add h s (Ptr 0 0) = Fault.
Proof.
  destruct (Stor.NewReflectStorage [[x2a; x00; x00; x00]] rotation 0)
    as [[h s]| |] eqn:Hnew; [|by vm_compute in Hnew..].
  exists h, s. split; [reflexivity|].
  apply (NewReflectStorage_zero_increment _ rotation (Ptr 0 0)
           [x2a; x00; x00; x00] h s ltac:(by vm_compute) Hnew).
  vm_compute in Hnew. injection Hnew as <- <-. by vm_compute.
Defined.

(** ** Loops *)

(** A loop keeps an invariant that is indexed by the elements gone
    through. *)
Lemma for_each_prefix {S X} (f : S → X → outcome S) (I : list X → S → Prop)
    xs s :
  I [] s →
  (∀ l x rest s, xs = l ++ x :: rest → I l s →
     ∃ s', f s x = Ok s' ∧ I (l ++ [x]) s') →
  ∃ s', for_each f s xs = Ok s' ∧ I xs s'.
Proof.
  intros H0 Hstep.
  assert (∀ rest l s, xs = l ++ rest → I l s →
            ∃ s', for_each f s rest = Ok s' ∧ I xs s') as Hgen.
  { induction rest as [|x rest IH]; intros l s1 Hxs Hl.
    - rewrite app_nil_r in Hxs. subst l. by exists s1.
    - destruct (Hstep l x rest s1 Hxs Hl) as (s2 & Hf & Hl2).
      simpl. rewrite Hf. simpl. apply (IH (l ++ [x])); [|done].
      by rewrite <- app_assoc. }
  by apply (Hgen xs []).
Qed.

(** ** The columns of an archetype *)

Lemma col_ok_inv h a i id :
  Arch.col_ok h a i id →
  ∃ b ty n blk,
    Arch.indices a !! id = Some i ∧
    Arch.buffers a !! i = Some (ArrayAt b ty n) ∧
    Arch.layouts a !! id = Some (Arch.mkLayout (Ptr b 0) (Size ty)) ∧
    h !! b = Some blk ∧ Z.of_nat (length blk) = n * Size ty ∧
    0 ≤ Size ty ≤ MaxInt32 ∧ 0 ≤ n ∧ (Size ty ≠ 0 → n = Arch.cap a).
Proof.
  intros [Hidx Hcol].
  destruct (Arch.buffers a !! i) as [[|b ty n]|]; try done.
  destruct Hcol as (Hlay & (blk & Hb & Hlen)%block_length_Some & ? & ? & ?).
  exists b, ty, n, blk. intuition.
Qed.

Lemma col_ok_intro h a i id b ty n blk :
  Arch.indices a !! id = Some i →
  Arch.buffers a !! i = Some (ArrayAt b ty n) →
  Arch.layouts a !! id = Some (Arch.mkLayout (Ptr b 0) (Size ty)) →
  h !! b = Some blk → Z.of_nat (length blk) = n * Size ty →
  0 ≤ Size ty ≤ MaxInt32 → 0 ≤ n → (Size ty ≠ 0 → n = Arch.cap a) →
  Arch.col_ok h a i id.
Proof.
  intros Hidx Hbuf Hlay Hb Hlen ???. split; [done|]. rewrite Hbuf.
  split; [done|]. unfold block_length. rewrite Hb. simpl. rewrite Hlen. done.
Qed.

Lemma cols_lookup h a ids :
  Forall (λ p, Arch.col_ok h a p.1 p.2) (imap pair ids) ↔
  ∀ i id, ids !! i = Some id → Arch.col_ok h a i id.
Proof.
  rewrite Forall_lookup. split.
  - intros H i id Hi. apply (H i (i, id)). by rewrite list_lookup_imap, Hi.
  - intros H i [j id]. rewrite list_lookup_imap.
    destruct (ids !! i) as [id'|] eqn:Hi; simpl; [|done].
    intros [= <- <-]. by apply H.
Qed.

Lemma arch_inv_wf h a : arch_inv h a → Arch.wf h a.
Proof.
  intros [(Hcap & Hinc & Hcols & Hnd & _ & Hents) [Hlen Hel]].
  unfold Arch.wf. intuition.
Qed.

(** The ids of the columns are pairwise different. *)
Lemma cols_ids_inj h a i j id :
  (∀ i id, Arch.Ids a !! i = Some id → Arch.col_ok h a i id) →
  Arch.Ids a !! i = Some id → Arch.Ids a !! j = Some id → i = j.
Proof.
  intros Hcols Hi Hj.
  destruct (Hcols i id Hi) as [Hii _]. destruct (Hcols j id Hj) as [Hjj _].
  congruence.
Qed.

Lemma NoDup_blocks_inj (be : option nat) (bufs : list rvalue) i j b ty n ty' n' :
  NoDup (be :: (block_of <$> bufs)) →
  bufs !! i = Some (ArrayAt b ty n) → bufs !! j = Some (ArrayAt b ty' n') →
  i = j.
Proof.
  intros [_ Hnd]%NoDup_cons Hi Hj.
  eapply (NoDup_lookup _ i j (Some b)); [done|..];
    rewrite list_lookup_fmap; [by rewrite Hi|by rewrite Hj].
Qed.

Lemma NoDup_blocks_entities (be : option nat) (bufs : list rvalue) i b ty n :
  NoDup (be :: (block_of <$> bufs)) →
  bufs !! i = Some (ArrayAt b ty n) → Some b ≠ be.
Proof.
  intros [Hnot _]%NoDup_cons Hi <-. apply Hnot.
  apply list_elem_of_lookup. exists i. by rewrite list_lookup_fmap, Hi.
Qed.

(** A buffer moves to a fresh block: the blocks stay pairwise different. *)
Lemma NoDup_blocks_insert (be : option nat) (bufs : list rvalue) i b ty n :
  NoDup (be :: (block_of <$> bufs)) →
  Some b ≠ be →
  (∀ j b' ty' n', bufs !! j = Some (ArrayAt b' ty' n') → b' ≠ b) →
  NoDup (be :: (block_of <$> <[i := ArrayAt b ty n]> bufs)).
Proof.
  intros [Hnot Hnd]%NoDup_cons Hbe Hfresh.
  assert (∀ j, j ≠ i → (block_of <$> <[i:=ArrayAt b ty n]> bufs) !! j
                        = (block_of <$> bufs) !! j) as Hother.
  { intros j Hj. by rewrite !list_lookup_fmap, list_lookup_insert_ne. }
  assert (∀ j x, (block_of <$> <[i:=ArrayAt b ty n]> bufs) !! j = Some x →
            (j = i ∧ x = Some b) ∨ (j ≠ i ∧ (block_of <$> bufs) !! j = Some x))
    as Hcase.
  { intros j x Hj. destruct (decide (j = i)) as [->|Hne].
    - left. split; [done|]. rewrite list_lookup_fmap in Hj.
      destruct (decide (i < length bufs)%nat).
      + rewrite list_lookup_insert_eq in Hj by done. simpl in Hj. congruence.
      + rewrite list_insert_ge in Hj by lia.
        rewrite lookup_ge_None_2 in Hj by lia. done.
    - right. split; [done|]. by rewrite <- Hother. }
  apply NoDup_cons. split.
  - intros (j & Hj)%list_elem_of_lookup.
    destruct (Hcase j _ Hj) as [[_ ?]|[_ Hj']]; [congruence|].
    apply Hnot. by eapply list_elem_of_lookup_2.
  - apply NoDup_alt. intros j1 j2 x Hj1 Hj2.
    destruct (Hcase j1 x Hj1) as [[-> ->]|[Hne1 Hj1']],
             (Hcase j2 _ Hj2) as [[-> Hx]|[Hne2 Hj2']]; try done.
    + exfalso. rewrite list_lookup_fmap in Hj2'.
      destruct (bufs !! j2) as [[|b' ty' n']|] eqn:Hb2; simpl in Hj2'; try done.
      injection Hj2' as ->. by eapply Hfresh.
    + exfalso. subst x. rewrite list_lookup_fmap in Hj1'.
      destruct (bufs !! j1) as [[|b' ty' n']|] eqn:Hb1; simpl in Hj1'; try done.
      injection Hj1' as ->. by eapply Hfresh.
    + by eapply NoDup_lookup.
Qed.

(** ** [extend] *)

Lemma item_eq' h a row id b sz :
  Arch.layouts a !! id = Some (Arch.mkLayout (Ptr b 0) sz) →
  0 ≤ sz ≤ MaxInt32 → 0 ≤ row < 2 ^ 32 →
  Arch.item h a row id = load h (Ptr b (row * sz)) sz.
Proof. apply item_eq. Qed.

Lemma extend_column_step h a c l id rest hk ak :
  Arch.Ids a = l ++ id :: rest →
  Arch.cap a ≤ c < 2 ^ 32 →
  length (Arch.buffers a) = length (Arch.Ids a) →
  Stor.wf h (Arch.entities a) →
  extend_inv h a c l (hk, ak) →
  ∃ st', Arch.extend_column (hk, ak) id = Ok st' ∧
    extend_inv h a c (l ++ [id]) st'.
Proof.
  intros HIds Hc Hnbuf Hents
    (HI & Hind & He & Hlen & Hcap & Hinc & Hmask & Hlb & [hnew Hhk] & Hcols
     & Hnd & Hitems & Hout & Hblks).
  assert (Arch.Ids a !! length l = Some id) as Hid
    by (rewrite HIds; apply list_lookup_middle; done).
  pose proof (Hcols _ _ Hid) as Hcol.
  rewrite decide_False in Hcol by lia.
  apply col_ok_inv in Hcol
    as (b & ty & n & blk & Hidx & Hbuf & Hlay & Hb & Hblk & Hsz & Hn & Hncap).
  simpl in Hidx, Hbuf, Hlay, Hncap.
  unfold Arch.extend_column. rewrite (getStorage_Ok _ _ _ Hlay).
  cbn [mbind outcome_bind Arch.itemSize].
  destruct (Size ty =? 0) eqn:Hz.
  - (* a column without memory stays *)
    apply Z.eqb_eq in Hz. eexists. split; [done|].
    unfold extend_inv. split_and!; try done; [by exists hnew|].
    intros i id' Hi. specialize (Hcols i id' Hi).
    rewrite length_app. simpl.
    destruct (decide (i = length l)) as [->|Hne].
    + rewrite decide_True by lia. rewrite decide_False in Hcols by lia.
      assert (id' = id) as -> by congruence.
      eapply col_ok_intro; simpl; done.
    + destruct (decide (i < length l)%nat).
      * by rewrite decide_True by lia.
      * by rewrite decide_False by lia.
  - (* the column moves to a new block *)
    apply Z.eqb_neq in Hz. specialize (Hncap Hz). subst n.
    unfold index_slice. rewrite Hidx. cbn [mbind outcome_bind].
    rewrite Hbuf. cbn [mbind outcome_bind]. rewrite Hcap.
    rewrite reflect_New_ArrayOf_Ok by lia.
    cbn [mbind outcome_bind Arch.buffers Arch.with_buffers Arch.layouts
         Arch.with_layouts Addr].
    rewrite (reflect_Copy_grow hk b ty ty (Arch.cap a) blk c Hb Hblk)
      by lia.
    cbn [mbind outcome_bind].
    set (blk' := blk ++ replicate (Z.to_nat ((c - Arch.cap a) * Size ty)) x00).
    set (ak' := Arch.with_layouts _ _).
    assert (Z.of_nat (length blk') = c * Size ty) as Hblk'.
    { unfold blk'. rewrite length_app, length_replicate. nia. }
    assert ((hk ++ [blk']) !! length hk = Some blk') as Hnew
      by (by rewrite lookup_app_r, Nat.sub_diag by lia).
    assert (length l < length (Arch.buffers ak))%nat as Hlt
      by (by eapply lookup_lt_Some).
    assert (id < length (Arch.layouts ak))%nat as Hidlt
      by (by eapply lookup_lt_Some).
    (* every buffer lies in a block of [hk] *)
    assert (∀ j b' ty' n', Arch.buffers ak !! j = Some (ArrayAt b' ty' n') →
              (b' < length hk)%nat) as Hold.
    { intros j b' ty' n' Hj.
      assert (j < length (Arch.Ids a))%nat as Hjlt.
      { rewrite <- Hnbuf, <- Hlb. by eapply lookup_lt_Some. }
      apply lookup_lt_is_Some in Hjlt as [idj Hidj].
      pose proof (Hcols _ _ Hidj) as Hcj.
      apply col_ok_inv in Hcj as (bj & tyj & nj & blkj & _ & Hbj & _ & Hhj & _).
      simpl in Hbj. rewrite Hj in Hbj. injection Hbj as <- <- <-.
      by eapply lookup_lt_Some. }
    assert (∀ i id, Arch.Ids a !! i = Some id →
              Arch.indices ak !! id = Some i) as Hidxs.
    { intros i0 id0 Hi0. by destruct (Hcols _ _ Hi0) as [? _]. }
    eexists. split; [done|].
    split; [done|]. split; [done|]. split; [done|]. split; [done|].
    split; [done|]. split; [done|]. split; [done|].
    split; [unfold ak'; simpl; by rewrite length_insert|].
    split; [exists (hnew ++ [blk']); by rewrite Hhk, app_assoc|].
    split; [|split; [|split; [|split]]].
    + intros i id' Hi. pose proof (Hcols i id' Hi) as Hci.
      rewrite length_app. simpl.
      destruct (decide (i = length l)) as [->|Hne].
      * rewrite decide_True by lia.
        assert (id' = id) as -> by congruence.
        eapply (col_ok_intro _ _ _ _ (length hk) ty c blk'); simpl; try done;
          try lia.
        -- by apply list_lookup_insert_eq.
        -- by apply list_lookup_insert_eq.
      * assert (id' ≠ id) as Hneid.
        { intros ->. apply Hne.
          pose proof (Hidxs _ _ Hi). pose proof (Hidxs _ _ Hid). congruence. }
        apply col_ok_inv in Hci
          as (b' & ty' & n' & blk0 & Hidx' & Hbuf' & Hlay' & Hb' & Hblk0 & ? & ? & Hn').
        simpl in Hidx', Hbuf', Hlay', Hn'.
        eapply (col_ok_intro _ _ _ _ b' ty' n' blk0); simpl; try done.
        -- by rewrite list_lookup_insert_ne.
        -- by rewrite list_lookup_insert_ne.
        -- rewrite lookup_app_l; [done|]. by eapply lookup_lt_Some.
        -- destruct (decide (i < length l)%nat);
             [by rewrite decide_True in * by lia|by rewrite decide_False in * by lia].
    + apply NoDup_blocks_insert; [done|..].
      * destruct (Stor_wf_inv _ _ Hents) as (be & blke & Hbe & _ & _ & Hhe & _).
        rewrite Hbe. simpl. intros [= Heq].
        apply lookup_lt_Some in Hhe. rewrite <- Heq, Hhk, length_app in Hhe. lia.
      * intros j b' ty' n' Hj Heq. apply Hold in Hj. lia.
    + intros row id' Hid' Hrow. rewrite <- Hitems by done.
      pose proof Hid' as (i & Hi)%list_elem_of_lookup.
      destruct (decide (id' = id)) as [->|Hneid].
      * rewrite (item_eq' _ ak' row id (length hk) (Size ty)); [| |done|lia].
        2:{ unfold ak'. simpl. by apply list_lookup_insert_eq. }
        rewrite (item_eq' _ ak row id b (Size ty)) by (done || lia).
        assert (0 ≤ row * Size ty ∧
                row * Size ty + Size ty ≤ Z.of_nat (length blk)) as [??] by nia.
        assert (Z.of_nat (length blk) ≤ Z.of_nat (length blk'))
          by (unfold blk'; rewrite length_app; lia).
        rewrite (load_Some _ _ _ _ blk' Hnew) by lia.
        rewrite (load_Some _ _ _ _ blk Hb) by lia.
        f_equal. unfold blk'. rewrite drop_app_le by lia.
        rewrite take_app_le by (rewrite length_drop; lia). done.
      * pose proof (Hcols i id' Hi) as Hci.
        apply col_ok_inv in Hci
          as (b' & ty' & n' & blk0 & _ & _ & Hlay' & Hb' & _ & ? & _).
        simpl in Hlay'.
        rewrite (item_eq' _ ak' row id' b' (Size ty')); [| |done|lia].
        2:{ unfold ak'. simpl. by rewrite list_lookup_insert_ne. }
        rewrite (item_eq' _ ak row id' b' (Size ty')) by (done || lia).
        apply load_app. by eapply lookup_lt_Some.
    + intros id' Hid'. unfold ak'. simpl. rewrite <- Hout by done.
      apply list_lookup_insert_ne. intros <-. apply Hid'.
      by eapply list_elem_of_lookup_2.
    + intros b' (j & Hj)%list_elem_of_lookup. unfold ak' in Hj. simpl in Hj.
      rewrite list_lookup_fmap in Hj.
      destruct (decide (j = length l)) as [->|Hne].
      * rewrite list_lookup_insert_eq in Hj by done. simpl in Hj.
        injection Hj as <-. right. rewrite Hhk, length_app. lia.
      * rewrite list_lookup_insert_ne in Hj by done. apply Hblks.
        apply list_elem_of_lookup. exists j. by rewrite list_lookup_fmap.
Qed.

(** The capacity [extend] grows to: the next multiple of the increment
    above [cap]. *)
Lemma grown_cap_spec cap inc :
  0 ≤ cap → 0 < inc → cap + inc < 2 ^ 32 →
  Arch.grown_cap cap inc = inc * ((cap + inc) / inc) ∧
  cap < Arch.grown_cap cap inc ≤ cap + inc ∧
  (inc | Arch.grown_cap cap inc).
Proof.
  intros Hcap Hinc Hmax. unfold Arch.grown_cap.
  rewrite (wrap32_small (cap + inc)) by lia.
  pose proof (Z.div_mod (cap + inc) inc ltac:(lia)) as Hdm.
  pose proof (Z.mod_pos_bound (cap + inc) inc Hinc) as Hmod.
  set (q := (cap + inc) / inc) in *. set (r := (cap + inc) mod inc) in *.
  clearbody q r.
  rewrite wrap32_small by lia.
  split; [done|]. split; [lia|]. exists q. lia.
Qed.

Lemma col_ok_cap h a a' i id :
  Arch.indices a' = Arch.indices a → Arch.buffers a' = Arch.buffers a →
  Arch.layouts a' = Arch.layouts a → Arch.cap a' = Arch.cap a →
  Arch.col_ok h a i id → Arch.col_ok h a' i id.
Proof. unfold Arch.col_ok. by intros -> -> -> ->. Qed.

Lemma Stor_wf_app h hnew s : Stor.wf h s → Stor.wf (h ++ hnew) s.
Proof.
  intros Hwf. eapply Stor_wf_shape; [done|].
  intros b z Hb. rewrite block_length_app; [done|]. by eapply block_length_lt.
Qed.

(** [extend] on the columns of an archetype: afterwards there is room for
    one more row, the rows are where they were, and nothing but the new
    buffers has been written. *)
Lemma Arch_extend_spec h a :
  cols_ok h a → 0 ≤ Arch.len a ≤ Arch.cap a →
  Arch.cap a + Arch.capacityIncrement a < 2 ^ 32 →
  ∃ h' a',
    Arch.extend h a = Ok (h', a') ∧ cols_ok h' a' ∧
    Arch.len a < Arch.cap a' ∧
    Arch.cap a' = (if decide (Arch.len a < Arch.cap a) then Arch.cap a
                   else Arch.grown_cap (Arch.cap a) (Arch.capacityIncrement a)) ∧
    Arch.len a' = Arch.len a ∧ Arch.entities a' = Arch.entities a ∧
    Arch.Ids a' = Arch.Ids a ∧ Arch.Mask_of a' = Arch.Mask_of a ∧
    Arch.capacityIncrement a' = Arch.capacityIncrement a ∧
    (∃ hnew, h' = h ++ hnew) ∧
    (∀ row id, id ∈ Arch.Ids a → 0 ≤ row < Arch.cap a →
       Arch.item h' a' row id = Arch.item h a row id) ∧
    (∀ id, id ∉ Arch.Ids a → Arch.layouts a' !! id = Arch.layouts a !! id) ∧
    (∀ b, Some b ∈ block_of <$> Arch.buffers a' →
       Some b ∈ block_of <$> Arch.buffers a ∨ (length h ≤ b)%nat).
Proof.
  intros Hcols Hlen Hmax.
  pose proof Hcols as (Hcap & Hinc & Hcol & Hnd & Hnbuf & Hents).
  rewrite cols_lookup in Hcol.
  unfold Arch.extend. destruct (Arch.len a <? Arch.cap a) eqn:Hcmp.
  - apply Z.ltb_lt in Hcmp. exists h, a. rewrite decide_True by done.
    split_and!; try done; [exists []; by rewrite app_nil_r|by left].
  - apply Z.ltb_ge in Hcmp. rewrite decide_False by lia.
    destruct (Arch.capacityIncrement a =? 0) eqn:Hz;
      [apply Z.eqb_eq in Hz; lia|].
    destruct (grown_cap_spec (Arch.cap a) (Arch.capacityIncrement a))
      as (_ & Hgrow & _); [lia..|].
    set (c := Arch.grown_cap _ _) in *.
    cbn [Arch.Ids Arch.with_cap].
    destruct (for_each_prefix Arch.extend_column (extend_inv h a c)
                (Arch.Ids a) (h, Arch.with_cap a c)) as ([h' a'] & Hloop & Hinv).
    + unfold extend_inv. simpl.
      split_and!; try done; try (exists []; by rewrite app_nil_r).
      by left.
    + intros l x rest [hk ak] HIds Hl.
      apply (extend_column_step h a c l x rest hk ak); try done. lia.
    + exists h', a'. split; [done|].
      destruct Hinv as (HI & Hind & He & Hl & Hc & Hi & Hm & Hlb & [hnew ->]
                        & Hcs & Hnd' & Hitems & Hout & Hblks).
      split_and!; try done; try lia; try (by eexists).
      unfold cols_ok. rewrite HI, He, Hc, Hi, Hlb.
      split_and!; try done; try lia.
      * apply cols_lookup. intros i id Hid.
        pose proof (Hcs i id Hid) as Hci.
        rewrite decide_True in Hci by (by eapply lookup_lt_Some).
        eapply col_ok_cap; [..|exact Hci]; done.
      * by apply Stor_wf_app.
Qed.

(** ** Writing one row, column by column *)

Lemma cols_col h a i id :
  cols_ok h a → Arch.Ids a !! i = Some id →
  ∃ b ty n blk,
    Arch.indices a !! id = Some i ∧
    Arch.buffers a !! i = Some (ArrayAt b ty n) ∧
    Arch.layouts a !! id = Some (Arch.mkLayout (Ptr b 0) (Size ty)) ∧
    h !! b = Some blk ∧ Z.of_nat (length blk) = n * Size ty ∧
    0 ≤ Size ty ≤ MaxInt32 ∧ 0 ≤ n ∧ (Size ty ≠ 0 → n = Arch.cap a).
Proof.
  intros (_ & _ & Hcol & _) Hi. rewrite cols_lookup in Hcol.
  by apply col_ok_inv, Hcol.
Qed.

Lemma same_shape_lookup h hk b blk :
  same_shape h hk → h !! b = Some blk →
  ∃ blk', hk !! b = Some blk' ∧ length blk' = length blk.
Proof.
  intros [_ Hs] Hb. specialize (Hs b). unfold block_length in Hs.
  rewrite Hb in Hs. destruct (hk !! b) as [blk'|]; [|done].
  simpl in Hs. exists blk'. split; [done|]. injection Hs. lia.
Qed.

Lemma cols_ok_shape h hk a : cols_ok h a → same_shape h hk → cols_ok hk a.
Proof.
  intros (Hcap & Hinc & Hcol & Hnd & Hnbuf & Hents) [Hlen Hs].
  unfold cols_ok.
  split; [done|]. split; [done|]. split; [|split; [done|split; [done|]]].
  - eapply Forall_impl; [done|]. intros [i id]. simpl.
    unfold Arch.col_ok. destruct (Arch.buffers a !! i) as [[|b ty n]|]; try done.
    by rewrite Hs.
  - eapply Stor_wf_shape; [done|]. intros b z. by rewrite Hs.
Qed.

(** The row [row] of a column, as bytes of its block. *)
Lemma item_block h a row id b ty blk :
  Arch.layouts a !! id = Some (Arch.mkLayout (Ptr b 0) (Size ty)) →
  0 ≤ Size ty ≤ MaxInt32 → 0 ≤ row < 2 ^ 32 →
  h !! b = Some blk → row * Size ty + Size ty ≤ Z.of_nat (length blk) →
  Arch.item h a row id
  = Some (take (Z.to_nat (Size ty)) (drop (Z.to_nat (row * Size ty)) blk)).
Proof.
  intros Hlay Hsz Hrow Hb Hin.
  rewrite (item_eq _ _ _ _ b (Size ty)) by done.
  apply load_Some; [done|nia|lia|lia].
Qed.

Lemma write_cell_step {X} h a row (key : X → ID) (data : X → list byte)
    l x rest hk :
  cols_ok h a → 0 ≤ row < Arch.cap a →
  NoDup (key <$> (l ++ x :: rest)) →
  (∀ y, y ∈ l ++ x :: rest → key y ∈ Arch.Ids a) →
  (∀ lay, Arch.layouts a !! key x = Some lay →
     Z.of_nat (length (data x)) = Arch.itemSize lay) →
  write_inv h a row key data l hk →
  ∃ hk', write_cell hk a row (key x) (data x) = Ok hk' ∧
    write_inv h a row key data (l ++ [x]) hk'.
Proof.
  intros Hcols Hrow Hnd Hmems Hdata (Hshape & Hframe & Hdone & Hrest).
  pose proof Hcols as (Hcap & _ & _ & Hndb & _).
  assert (key x ∈ Arch.Ids a) as Hmem
    by (apply Hmems, elem_of_app; right; by left).
  pose proof Hmem as (i & Hi)%list_elem_of_lookup.
  destruct (cols_col _ _ _ _ Hcols Hi)
    as (b & ty & n & blk & Hidx & Hbuf & Hlay & Hb & Hblk & Hsz & Hn & Hncap).
  specialize (Hdata _ Hlay). simpl in Hdata.
  destruct (same_shape_lookup _ _ _ _ Hshape Hb) as (blkk & Hbk & Hlenk).
  assert (key x ∉ key <$> l) as Hfresh.
  { rewrite fmap_app, fmap_cons in Hnd.
    apply NoDup_app in Hnd as (_ & Hnd & _). intros Hin.
    apply (Hnd _ Hin). by left. }
  unfold write_cell. rewrite (getStorage_Ok _ _ _ Hlay).
  cbn [mbind outcome_bind Arch.itemSize].
  destruct (Size ty =? 0) eqn:Hz.
  - apply Z.eqb_eq in Hz. exists hk. split; [done|].
    split; [done|]. split; [done|]. split.
    + intros x' [Hx'| ->%list_elem_of_singleton]%elem_of_app; [by apply Hdone|].
      rewrite (item_block _ _ _ _ b ty blkk) by (done || lia).
      f_equal. rewrite Hz. simpl. symmetry. apply length_zero_iff_nil. lia.
    + intros row' id' Hid' Hrow' Hor. apply Hrest; [done..|].
      destruct Hor as [?|Hnot]; [by left|]. right.
      rewrite fmap_app in Hnot. by apply not_elem_of_app in Hnot as [? _].
  - apply Z.eqb_neq in Hz. specialize (Hncap Hz). subst n.
    rewrite layout_Get_eq by lia.
    assert (0 ≤ row * Size ty ∧
            row * Size ty + Size ty ≤ Z.of_nat (length blkk)) as [??] by nia.
    pose proof (store_Some hk b (row * Size ty) (data x) blkk Hbk
                  ltac:(done) ltac:(lia)) as Hstore.
    rewrite Hstore. eexists. split; [done|].
    (* the other columns lie in other blocks *)
    assert (∀ i' id' b' ty' n', Arch.Ids a !! i' = Some id' → id' ≠ key x →
              Arch.buffers a !! i' = Some (ArrayAt b' ty' n') → b' ≠ b) as Hoth.
    { intros i' id' b' ty' n' Hi' Hne Hbuf' ->. apply Hne.
      assert (i' = i) as -> by (by eapply NoDup_blocks_inj).
      congruence. }
    assert (∀ row' id', id' ∈ Arch.Ids a → 0 ≤ row' < Arch.cap a →
              row' ≠ row ∨ id' ≠ key x →
              Arch.item (<[b:=take (Z.to_nat (row * Size ty)) blkk ++ data x
                               ++ drop (Z.to_nat (row * Size ty)
                                        + length (data x)) blkk]> hk)
                a row' id'
              = Arch.item hk a row' id') as Hkeep.
    { intros row' id' (i' & Hi')%list_elem_of_lookup Hrow' Hor.
      destruct (cols_col _ _ _ _ Hcols Hi')
        as (b' & ty' & n' & blk' & _ & Hbuf' & Hlay' & _ & _ & Hsz' & _).
      rewrite !(item_eq _ _ _ _ b' (Size ty')) by (done || lia).
      destruct (decide (id' = key x)) as [->|Hne].
      - assert (i' = i) as -> by (by eapply cols_ids_inj;
          [apply cols_lookup, Hcols|..]).
        rewrite Hbuf in Hbuf'. injection Hbuf' as <- <- _.
        eapply load_store_disjoint; [done|]. destruct Hor; [nia|done].
      - eapply load_store_other_block; [done|]. by eapply Hoth. }
    split; [|split; [|split]].
    + split; [rewrite (store_length _ _ _ _ Hstore); apply Hshape|].
      intros b'. rewrite (store_block_length _ _ _ _ _ Hstore).
      by apply Hshape.
    + intros b' Hb'. rewrite <- Hframe by done.
      eapply store_other; [done|]. intros ->. apply Hb'.
      apply list_elem_of_lookup. exists i. by rewrite list_lookup_fmap, Hbuf.
    + intros x' [Hx'| ->%list_elem_of_singleton]%elem_of_app.
      * rewrite <- (Hdone x' Hx').
        assert (key x' ≠ key x) as Hne.
        { intros Heq. apply Hfresh. rewrite <- Heq.
          by apply list_elem_of_fmap_2. }
        apply Hkeep; [|lia|by right].
        apply Hmems, elem_of_app. by left.
      * rewrite (item_eq _ _ _ _ b (Size ty)) by (done || lia).
        pose proof (load_store_eq _ _ _ _ Hstore) as E. by rewrite Hdata in E.
    + intros row' id' Hid' Hrow' Hor. rewrite <- Hrest; first last.
      { destruct Hor as [?|Hnot]; [by left|]. right.
        rewrite fmap_app in Hnot. by apply not_elem_of_app in Hnot as [? _]. }
      { done. } { done. }
      apply Hkeep; [done..|].
      destruct Hor as [?|Hnot]; [by left|]. right.
      rewrite fmap_app in Hnot. apply not_elem_of_app in Hnot as [_ Hnot].
      intros ->. apply Hnot. by apply list_elem_of_singleton.
Qed.

Lemma write_loop {X} h a row (f : heap → X → outcome heap) (key : X → ID)
    (data : X → list byte) xs :
  cols_ok h a → 0 ≤ row < Arch.cap a →
  NoDup (key <$> xs) →
  (∀ y, y ∈ xs → key y ∈ Arch.Ids a) →
  (∀ x lay, x ∈ xs → Arch.layouts a !! key x = Some lay →
     Z.of_nat (length (data x)) = Arch.itemSize lay) →
  (∀ hk x, x ∈ xs → same_shape h hk → same_outside a h hk →
     f hk x = write_cell hk a row (key x) (data x)) →
  ∃ h', for_each f h xs = Ok h' ∧ write_inv h a row key data xs h'.
Proof.
  intros Hcols Hrow Hnd Hmems Hdata Hf.
  apply for_each_prefix.
  - split; [done|]. split; [done|]. split; [|done].
    intros x Hx. by apply elem_of_nil in Hx.
  - intros l x rest hk -> Hinv.
    assert (x ∈ l ++ x :: rest) as Hx by (apply elem_of_app; right; by left).
    rewrite Hf; [|done|apply Hinv..].
    eapply write_cell_step; try done. intros lay. by apply Hdata.
Qed.

(** ** [Zero] and [ZeroAll] *)

Lemma Arch_zero_bytes_Stor n h p : Arch.zero_bytes n h p = Stor.zero_bytes n h p.
Proof.
  revert h p. induction n as [|n IH]; intros h p; simpl; [done|].
  destruct (store h p [x00]); simpl; [apply IH|done].
Qed.

Lemma Zero_write_cell h hk a row id lay :
  cols_ok h a → same_shape h hk → id ∈ Arch.Ids a → 0 ≤ row < Arch.cap a →
  Arch.layouts a !! id = Some lay →
  Arch.Zero hk a row id
  = write_cell hk a row id (replicate (Z.to_nat (Arch.itemSize lay)) x00).
Proof.
  intros Hcols Hshape (i & Hi)%list_elem_of_lookup Hrow Hlay.
  pose proof Hcols as (Hcap & _).
  destruct (cols_col _ _ _ _ Hcols Hi)
    as (b & ty & n & blk & Hidx & Hbuf & Hlay' & Hb & Hblk & Hsz & Hn & Hncap).
  rewrite Hlay in Hlay'. injection Hlay' as ->.
  destruct (same_shape_lookup _ _ _ _ Hshape Hb) as (blkk & Hbk & Hlenk).
  unfold Arch.Zero, write_cell. rewrite (getStorage_Ok _ _ _ Hlay).
  cbn [mbind outcome_bind Arch.itemSize Arch.pointer_of unsafe_Add].
  destruct (Size ty =? 0) eqn:Hz; [done|]. apply Z.eqb_neq in Hz.
  specialize (Hncap Hz). subst n.
  rewrite layout_Get_eq, wrap64_offset, Z.add_0_l by lia.
  rewrite Arch_zero_bytes_Stor.
  apply (Stor_zero_bytes_store _ _ _ _ blkk); [done|nia|nia].
Qed.

(** [ZeroAll] on the columns of an archetype sets the bytes of the row in
    every column to zero and leaves every other row and every block that
    is not a buffer of a column as it is. *)
Lemma Arch_ZeroAll_spec h a row :
  cols_ok h a → 0 ≤ row < Arch.cap a →
  ∃ h',
    Arch.ZeroAll h a row = Ok h' ∧ same_shape h h' ∧ same_outside a h h' ∧
    (∀ id lay, id ∈ Arch.Ids a → Arch.layouts a !! id = Some lay →
       Arch.item h' a row id
       = Some (replicate (Z.to_nat (Arch.itemSize lay)) x00)) ∧
    (∀ row' id, id ∈ Arch.Ids a → 0 ≤ row' < Arch.cap a → row' ≠ row →
       Arch.item h' a row' id = Arch.item h a row' id).
Proof.
  intros Hcols Hrow.
  set (data := λ id : nat,
         match Arch.layouts a !! id with
         | Some lay => replicate (Z.to_nat (Arch.itemSize lay)) x00
         | None => []
         end).
  assert (NoDup (Arch.Ids a)) as Hnd.
  { apply NoDup_alt. intros i j id Hi Hj.
    eapply cols_ids_inj; [|done..]. apply cols_lookup, Hcols. }
  destruct (write_loop h a row (λ h id, Arch.Zero h a row id) (λ x, x) data
              (Arch.Ids a)) as (h' & Hloop & Hshape & Hframe & Hdone & Hrest);
    try done.
  - by rewrite list_fmap_id.
  - intros id lay (i & Hi)%list_elem_of_lookup Hlay.
    destruct (cols_col _ _ _ _ Hcols Hi)
      as (b & ty & n & blk & _ & _ & Hlay' & _ & _ & Hsz & _).
    unfold data. rewrite Hlay, length_replicate.
    rewrite Hlay in Hlay'. injection Hlay' as ->. simpl. lia.
  - intros hk id Hid Hshape _.
    pose proof Hid as (i & Hi)%list_elem_of_lookup.
    destruct (cols_col _ _ _ _ Hcols Hi)
      as (b & ty & n & blk & _ & _ & Hlay & _).
    unfold data. rewrite Hlay.
    by eapply Zero_write_cell.
  - exists h'. split; [done|]. split; [done|]. split; [done|]. split.
    + intros id lay Hid Hlay. rewrite (Hdone id Hid). unfold data.
      by rewrite Hlay.
    + intros row' id Hid Hrow' Hne. apply Hrest; [done..|by left].
Qed.

(** ** Appending a row: the entity *)

Lemma load_block_eq h h' b off n :
  h' !! b = h !! b → load h' (Ptr b off) n = load h (Ptr b off) n.
Proof. intros Hb. simpl. by rewrite Hb. Qed.

Lemma Stor_item_block_eq h h' s b j :
  Stor.bufferAddress s = Ptr b 0 → h' !! b = h !! b →
  Stor.item h' s j = Stor.item h s j.
Proof.
  intros Ha Hb. unfold Stor.item, Stor.Get. rewrite Ha. simpl unsafe_Add.
  by apply load_block_eq.
Qed.

Lemma item_block_eq h h' a row id b sz :
  Arch.layouts a !! id = Some (Arch.mkLayout (Ptr b 0) sz) →
  h' !! b = h !! b → Arch.item h' a row id = Arch.item h a row id.
Proof.
  intros Hlay Hb. unfold Arch.item. rewrite Hlay.
  unfold Arch.layout_Get. simpl. by apply load_block_eq.
Qed.

(** Every buffer of a column lies in a block of the memory. *)
Lemma cols_block_lt h a b :
  cols_ok h a → Some b ∈ block_of <$> Arch.buffers a → (b < length h)%nat.
Proof.
  intros Hcols (i & Hi)%list_elem_of_lookup.
  rewrite list_lookup_fmap in Hi.
  destruct (Arch.buffers a !! i) as [v|] eqn:Hv; [|done].
  pose proof Hcols as (_ & _ & _ & _ & Hnbuf & _).
  assert (i < length (Arch.Ids a))%nat as Hlt
    by (rewrite <- Hnbuf; by eapply lookup_lt_Some).
  apply lookup_lt_is_Some in Hlt as [id Hid].
  destruct (cols_col _ _ _ _ Hcols Hid)
    as (b' & ty & n & blk & _ & Hbuf & _ & Hb & _).
  rewrite Hv in Hbuf. injection Hbuf as ->. simpl in Hi. injection Hi as <-.
  by eapply lookup_lt_Some.
Qed.

Lemma cols_entities_block h a :
  cols_ok h a →
  ∃ be, block_of (Stor.buffer (Arch.entities a)) = Some be ∧
    Stor.bufferAddress (Arch.entities a) = Ptr be 0 ∧
    (be < length h)%nat ∧ Some be ∉ block_of <$> Arch.buffers a.
Proof.
  intros (_ & _ & _ & Hnd & _ & Hents).
  destruct (Stor_wf_inv _ _ Hents) as (be & blk & Hbuf & Haddr & _ & Hb & _).
  exists be. rewrite Hbuf in *. simpl in *. split; [done|]. split; [done|].
  split; [by eapply lookup_lt_Some|]. by apply NoDup_cons in Hnd as [? _].
Qed.

(** The columns do not see a change of memory outside their buffers, nor
    a change of the column of the entities. *)
Lemma cols_ok_frame h h' a ents' :
  cols_ok h a →
  (∀ b, Some b ∈ block_of <$> Arch.buffers a → h' !! b = h !! b) →
  Stor.wf h' ents' →
  block_of (Stor.buffer ents') ∉ block_of <$> Arch.buffers a →
  cols_ok h' (Arch.with_entities a ents').
Proof.
  intros Hcols Hsame Hwf' Hfresh.
  pose proof Hcols as (Hcap & Hinc & Hcol & Hnd & Hnbuf & Hents).
  unfold cols_ok. simpl.
  split; [done|]. split; [done|]. split; [|split; [|done]].
  - apply cols_lookup. intros i id Hi.
    destruct (cols_col _ _ _ _ Hcols Hi)
      as (b & ty & n & blk & Hidx & Hbuf & Hlay & Hb & Hblk & Hsz & Hn & Hncap).
    eapply (col_ok_intro _ _ _ _ b ty n blk); simpl; try done.
    rewrite Hsame; [done|]. apply list_elem_of_lookup. exists i.
    by rewrite list_lookup_fmap, Hbuf.
  - apply NoDup_cons. split; [done|]. by apply NoDup_cons in Hnd as [_ ?].
Qed.

Lemma Entity_bytes_length e : length (Entity_bytes e) = 8%nat.
Proof. done. Qed.

(** The first step of [Alloc] and of [Add]: the entity is appended to the
    column of the entities; the columns of the components do not notice. *)
Lemma Arch_push_entity h a e :
  cols_ok h a → Stor.len (Arch.entities a) = Arch.len a →
  Stor.itemSize (Arch.entities a) = 8 →
  Arch.len a + 1 < 2 ^ 32 →
  Stor.cap (Arch.entities a) + Stor.capacityIncrement (Arch.entities a)
    < 2 ^ 32 →
  ∃ h1 ents1,
    Stor.Add (h ++ [Entity_bytes e]) (Arch.entities a) (Ptr (length h) 0)
    = Ok (h1, ents1, Arch.len a) ∧
    cols_ok h1 (Arch.with_entities a ents1) ∧
    Stor.len ents1 = Arch.len a + 1 ∧ Stor.itemSize ents1 = 8 ∧
    Stor.capacityIncrement ents1
    = Stor.capacityIncrement (Arch.entities a) ∧
    Stor.item h1 ents1 (Arch.len a) = Some (Entity_bytes e) ∧
    (∀ j, 0 ≤ j < Arch.len a →
       Stor.item h1 ents1 j = Stor.item h (Arch.entities a) j) ∧
    (length h < length h1)%nat ∧
    (∀ b, (b < length h)%nat →
       Some b ≠ block_of (Stor.buffer (Arch.entities a)) →
       h1 !! b = h !! b).
Proof.
  intros Hcols Hlen Hsz Hlen1 Hcap1.
  pose proof Hcols as (_ & _ & _ & Hnd & _ & Hents).
  destruct (cols_entities_block _ _ Hcols) as (be & Hbe & Haddr & Hbelt & Hbenot).
  set (h0 := h ++ [Entity_bytes e]).
  assert (load h0 (Ptr (length h) 0) (Stor.itemSize (Arch.entities a))
          = Some (Entity_bytes e)) as Hsrc.
  { rewrite Hsz. unfold h0.
    rewrite (load_Some _ _ _ _ (Entity_bytes e));
      [done|by rewrite lookup_app_r, Nat.sub_diag by lia|lia|lia|].
    rewrite Entity_bytes_length. lia. }
  destruct (Stor_Add_spec h0 _ _ _ (Stor_wf_app h [Entity_bytes e] _ Hents)
              ltac:(lia) Hcap1 Hsrc)
    as (h1 & ents1 & HAdd & Hwf1 & Hlen' & Hnew & Hold & Hframe & Hlenh
        & Hblock & Hsz1 & Hinc1).
  rewrite Hlen in *.
  assert (length h0 = S (length h)) as Hlen0
    by (unfold h0; rewrite length_app; simpl; lia).
  assert (∀ b, (b < length h)%nat →
            Some b ≠ block_of (Stor.buffer (Arch.entities a)) →
            h1 !! b = h !! b) as Hframe'.
  { intros b Hb Hne. rewrite Hframe by (done || lia).
    unfold h0. by apply lookup_app_l. }
  exists h1, ents1. split; [done|]. split.
  { apply (cols_ok_frame h); [done| |done|].
    - intros b Hb. apply Hframe'; [by eapply cols_block_lt|].
      rewrite Hbe. intros [= ->]. done.
    - destruct Hblock as [->| ->]; [by rewrite Hbe|].
      intros Hin. apply (cols_block_lt _ _ _ Hcols) in Hin. lia. }
  split; [lia|]. split; [lia|]. split; [done|]. split; [done|].
  split; [|split; [lia|done]].
  intros j Hj. rewrite Hold by done. unfold h0.
  eapply Stor_item_block_eq; [done|]. by apply lookup_app_l.
Qed.

Lemma cols_ok_with_len h a n : cols_ok h a → cols_ok h (Arch.with_len a n).
Proof. done. Qed.

Lemma item_with_entities h a ents row id :
  Arch.item h (Arch.with_entities a ents) row id = Arch.item h a row id.
Proof. done. Qed.

Lemma item_with_len h a n row id :
  Arch.item h (Arch.with_len a n) row id = Arch.item h a row id.
Proof. done. Qed.

(** The rows of the columns do not see a change of memory outside their
    buffers. *)
Lemma item_frame h h' a row id :
  cols_ok h a → id ∈ Arch.Ids a →
  (∀ b, Some b ∈ block_of <$> Arch.buffers a → h' !! b = h !! b) →
  Arch.item h' a row id = Arch.item h a row id.
Proof.
  intros Hcols (i & Hi)%list_elem_of_lookup Hsame.
  destruct (cols_col _ _ _ _ Hcols Hi)
    as (b & ty & n & blk & _ & Hbuf & Hlay & _).
  eapply item_block_eq; [done|]. apply Hsame.
  apply list_elem_of_lookup. exists i. by rewrite list_lookup_fmap, Hbuf.
Qed.

(** [Alloc], step by step. *)
Lemma Arch_Alloc_spec h a e zero :
  arch_inv h a → Stor.itemSize (Arch.entities a) = 8 →
  Arch.len a + 1 < 2 ^ 32 →
  Arch.cap a + Arch.capacityIncrement a < 2 ^ 32 →
  Stor.cap (Arch.entities a) + Stor.capacityIncrement (Arch.entities a)
    < 2 ^ 32 →
  ∃ h' a',
    Arch.Alloc h a e zero = Ok (h', a', Arch.len a) ∧
    arch_inv h' a' ∧ Stor.itemSize (Arch.entities a') = 8 ∧
    Arch.len a' = Arch.len a + 1 ∧ Arch.Ids a' = Arch.Ids a ∧
    Arch.Mask_of a' = Arch.Mask_of a ∧
    Arch.capacityIncrement a' = Arch.capacityIncrement a ∧
    Stor.capacityIncrement (Arch.entities a')
    = Stor.capacityIncrement (Arch.entities a) ∧
    Arch.cap a' = (if decide (Arch.len a < Arch.cap a) then Arch.cap a
                   else Arch.grown_cap (Arch.cap a) (Arch.capacityIncrement a)) ∧
    Arch.GetEntity h' a' (Arch.len a) = Some (Entity_bytes e) ∧
    (∀ j, 0 ≤ j < Arch.len a → Arch.GetEntity h' a' j = Arch.GetEntity h a j) ∧
    (zero = true → ∀ id lay, id ∈ Arch.Ids a →
       Arch.layouts a' !! id = Some lay →
       Arch.item h' a' (Arch.len a) id
       = Some (replicate (Z.to_nat (Arch.itemSize lay)) x00)) ∧
    (∀ row id, id ∈ Arch.Ids a → 0 ≤ row < Arch.len a →
       Arch.item h' a' row id = Arch.item h a row id) ∧
    (∀ id, id ∉ Arch.Ids a → Arch.layouts a' !! id = Arch.layouts a !! id).
Proof.
  intros [Hcols [Hlen Hel]] Hsz Hlen1 Hcap1 Hecap1.
  destruct (Arch_push_entity h a e Hcols Hel Hsz Hlen1 Hecap1)
    as (h1 & ents1 & HAdd & Hcols1 & Hlen' & Hsz1 & Hinc1 & Hnew & Hold
        & Hlenh & Hframe).
  destruct (cols_entities_block _ _ Hcols) as (be & Hbe & Haddr & Hbelt & Hbenot).
  set (a1 := Arch.with_entities a ents1) in *.
  destruct (Arch_extend_spec h1 a1 Hcols1 Hlen Hcap1)
    as (h2 & a2 & Hext & Hcols2 & Hroom & Hcap2 & Hlen2 & Hents2 & HIds2
        & Hmask2 & Hinc2 & [hnew ->] & Hitems2 & Hout2 & _).
  simpl in Hroom, Hcap2, Hlen2, Hents2, HIds2, Hmask2, Hinc2.
  destruct (cols_entities_block _ _ Hcols2) as (be2 & Hbe2 & Haddr2 & _ & Hbenot2).
  assert (∃ h3, (if zero then Arch.ZeroAll (h1 ++ hnew) a2 (Arch.len a)
                 else Ok (h1 ++ hnew)) = Ok h3 ∧
            same_shape (h1 ++ hnew) h3 ∧ same_outside a2 (h1 ++ hnew) h3 ∧
            (zero = true → ∀ id lay, id ∈ Arch.Ids a →
               Arch.layouts a2 !! id = Some lay →
               Arch.item h3 a2 (Arch.len a) id
               = Some (replicate (Z.to_nat (Arch.itemSize lay)) x00)) ∧
            (∀ row id, id ∈ Arch.Ids a → 0 ≤ row < Arch.len a →
               Arch.item h3 a2 row id = Arch.item (h1 ++ hnew) a2 row id))
    as (h3 & Hzero & Hshape & Hout3 & Hz & Hkeep).
  { destruct zero.
    - destruct (Arch_ZeroAll_spec (h1 ++ hnew) a2 (Arch.len a) Hcols2
                  ltac:(lia)) as (h3 & HZ & Hs & Ho & Hrow & Hrest).
      exists h3. split; [done|]. split; [done|]. split; [done|]. split.
      + intros _ id lay Hid Hlay. apply Hrow; [by rewrite HIds2|done].
      + intros row id Hid Hrow'. apply Hrest; [by rewrite HIds2|lia|lia].
    - exists (h1 ++ hnew). split; [done|]. split; [done|]. split; [done|].
      split; [done|]. done. }
  unfold Arch.Alloc. cbn [escape]. rewrite HAdd. cbn [mbind outcome_bind].
  fold a1. rewrite Hext. cbn [mbind outcome_bind]. rewrite Hzero.
  cbn [mbind outcome_bind]. rewrite Hlen2, (wrap32_small (Arch.len a + 1)) by lia.
  eexists _, _. split; [done|].
  assert (∀ j, Stor.item h3 ents1 j = Stor.item h1 ents1 j) as Hent3.
  { intros j. rewrite Hents2 in Haddr2, Hbe2.
    rewrite (Stor_item_block_eq (h1 ++ hnew) h3 ents1 be2 j Haddr2
               (Hout3 _ Hbenot2)).
    eapply Stor_item_block_eq; [done|]. apply lookup_app_l.
    destruct Hcols1 as (_ & _ & _ & _ & _ & Hw1).
    destruct (Stor_wf_inv _ _ Hw1) as (b1 & ? & Hb1 & Ha1 & _ & Hl1 & _).
    simpl in Ha1. rewrite Ha1 in Haddr2. injection Haddr2 as <-.
    by eapply lookup_lt_Some. }
  split.
  { split; [by apply cols_ok_with_len, (cols_ok_shape (h1 ++ hnew))|].
    simpl. rewrite Hents2. lia. }
  simpl. rewrite Hents2.
  split; [done|]. split; [done|]. split; [done|]. split; [done|].
  split; [done|]. split; [done|].
  split; [done|].
  split. { unfold Arch.GetEntity. simpl. by rewrite Hents2, Hent3. }
  split.
  { intros j Hj. unfold Arch.GetEntity. simpl. rewrite Hents2, Hent3.
    by apply Hold. }
  split; [done|]. split; [|done].
  intros row id Hid Hrow. rewrite item_with_len, Hkeep by done.
  rewrite Hitems2 by (done || simpl; lia). unfold a1.
  rewrite item_with_entities. apply (item_frame h); [done..|].
  intros b Hb. apply Hframe; [by eapply cols_block_lt|].
  rewrite Hbe. by intros [= ->].
Qed.

(** ** When [Init] returns *)

Lemma Stor_New_wf h tp increment :
  0 ≤ Size tp ≤ MaxInt32 → 0 < increment < 2 ^ 32 →
  ∃ s, Stor.NewReflectStorage h tp increment
       = Ok (h ++ [replicate (Z.to_nat (increment * Size tp)) x00], s) ∧
    Stor.wf (h ++ [replicate (Z.to_nat (increment * Size tp)) x00]) s ∧
    Stor.buffer s = ArrayAt (length h) tp increment ∧
    Stor.len s = 0 ∧ Stor.cap s = increment ∧
    Stor.capacityIncrement s = increment ∧ Stor.itemSize s = Size tp.
Proof.
  intros Hsz Hinc. unfold Stor.NewReflectStorage.
  rewrite reflect_New_ArrayOf_Ok by lia. cbn [mbind outcome_bind].
  rewrite !wrap32_small by lia. eexists. split; [done|].
  split; [|done].
  eapply (Stor_wf_intro _ _ (length h)); simpl; try done; try lia.
  - by rewrite lookup_app_r, Nat.sub_diag by lia.
  - rewrite length_replicate. nia.
Qed.

Section Init_returns.
Variable MaskTotalBits : nat.
Implicit Types (c : componentType) (l : list componentType).

Lemma Init_loop_succeeds cap0 h0 n l :
  (length l ≤ n)%nat → Init_accepts MaskTotalBits cap0 l →
  ∃ h prev mask a,
    for_each (Arch.Init_step cap0)
      (h0, -1, 0, Arch.Init_start MaskTotalBits n) (imap pair l)
    = Ok (h, prev, mask, a) ∧
    prev = match last l with Some c => Z.of_nat (ID_of c) | None => -1 end.
Proof.
  induction l as [|c l IH] using rev_ind; intros Hn (Hsort & Hall & Hcap).
  - eexists _, _, _, _. split; [done|done].
  - rewrite length_app in Hn. simpl in Hn.
    rewrite fmap_app in Hsort. apply StronglySorted_app in Hsort
      as (Hlt & Hsort & _).
    apply Forall_app in Hall as [Hall [[Hid Hal] _]%Forall_cons].
    destruct IH as (h & prev & mask & a & Hloop & Hprev);
      [lia|by split_and!|].
    pose proof (Init_loop_inv MaskTotalBits cap0 h0 n l _ ltac:(lia) Hloop)
      as (_ & _ & _ & _ & _ & _ & _ & _ & Hlay & _).
    rewrite imap_app, for_each_app, Hloop. simpl.
    rewrite Nat.add_0_r, last_snoc.
    assert (prev < Z.of_nat (ID_of c)) as Hlt'.
    { rewrite Hprev. destruct (last l) as [c'|] eqn:Hlast; [|lia].
      assert (ID_of c' < ID_of c)%nat; [|lia].
      apply Hlt; [|by apply list_elem_of_singleton].
      apply list_elem_of_fmap_2. rewrite last_lookup in Hlast.
      by eapply list_elem_of_lookup_2. }
    rewrite (proj2 (Z.leb_gt _ _)) by done.
    rewrite (proj2 (Z.eqb_neq _ _)) by done.
    rewrite reflect_New_ArrayOf_Ok by done. cbn [mbind outcome_bind].
    rewrite decide_True by (simpl; by rewrite Hlay). simpl.
    eexists _, _, _, _. split; done.
Qed.

(** [Init] returns exactly for the components it accepts; for all others
    it panics. *)
Lemma Init_returns_iff_accepts h0 inc fs comps :
  (∃ h' a, Arch.Init MaskTotalBits h0 inc fs comps = Ok (h', a)) ↔
  Init_accepts MaskTotalBits (if fs then inc else 1) comps.
Proof.
  split.
  - intros (h' & a & Hinit).
    destruct (Init_Ok _ _ _ _ _ _ _ Hinit)
      as (h1 & _ & Hents & HIds & Hsort & _ & _ & _ & _ & _ & Hin & _).
    split; [by rewrite <- HIds|]. split.
    + apply Forall_lookup. intros i c Hc.
      by destruct (Hin i c Hc) as (? & ? & _).
    + unfold storage_Init, Stor.NewReflectStorage in Hents.
      destruct (reflect_New_ArrayOf _ _ _) as [r| |] eqn:Hnew; [|done..].
      by apply reflect_New_ArrayOf_inv in Hnew as [? _].
  - intros Hacc. pose proof Hacc as (_ & _ & Hcap).
    destruct (Init_loop_succeeds _ h0 (length comps) comps ltac:(lia) Hacc)
      as (h & prev & mask & a & Hloop & _).
    unfold Arch.Init. rewrite Hloop. cbn [mbind outcome_bind].
    unfold storage_Init, Stor.NewReflectStorage.
    rewrite reflect_New_ArrayOf_Ok by done. cbn [mbind outcome_bind].
    by eexists _, _.
Qed.

Lemma valid_type_round_up ty :
  valid_type ty → Arch.round_up (Size ty) (Align ty) = Size ty.
Proof.
  intros (Hsz & Hal & Hmod).
  destruct (decide (Size ty = 0)) as [Hz|Hnz].
  - rewrite Hz. by apply round_up_zero.
  - assert (Align ty ≤ Size ty).
    { apply Z.mod_divide in Hmod; [|lia]. apply Z.divide_pos_le; [lia|done]. }
    apply round_up_multiple; try done; try lia.
    unfold MaxInt32 in Hsz. lia.
Qed.

(** [Init] on valid component types establishes the invariant. *)
Lemma Init_inv_spec h0 inc (fs : bool) comps :
  Init_accepts MaskTotalBits (if fs then inc else 1) comps →
  Forall (λ c, valid_type (Type_of c)) comps →
  0 < inc < 2 ^ 32 →
  ∃ h' a,
    Arch.Init MaskTotalBits h0 inc fs comps = Ok (h', a) ∧
    arch_inv h' a ∧ Arch.len a = 0 ∧
    Stor.itemSize (Arch.entities a) = 8 ∧
    Stor.capacityIncrement (Arch.entities a) = (if fs then inc else 1) ∧
    Stor.cap (Arch.entities a) = (if fs then inc else 1) ∧
    (∃ hnew, h' = h0 ++ hnew).
Proof.
  intros Hacc Hvalid Hinc.
  destruct (proj2 (Init_returns_iff_accepts h0 inc fs comps) Hacc)
    as (h' & a & Hinit).
  exists h', a. split; [done|].
  destruct (Init_Ok _ _ _ _ _ _ _ Hinit)
    as (h1 & Hh1 & Hents & HIds & Hsort & Hlen & Hcap & Hinca & Hlay & Hbufs
        & Hin & Hout & Hmask).
  set (cap0 := if fs then inc else 1) in *.
  assert (0 < cap0 < 2 ^ 32) as Hcap0 by (unfold cap0; destruct fs; lia).
  unfold storage_Init in Hents. fold cap0 in Hents.
  destruct (Stor_New_wf h1 EntityType cap0 ltac:(by vm_compute) Hcap0)
    as (s & Hnew & Hwf & Hbuf & Hslen & Hscap & Hsinc & Hssz).
  rewrite Hnew in Hents. injection Hents as <- He.
  rewrite He in Hwf, Hbuf, Hslen, Hscap, Hsinc, Hssz. clear He.
  rewrite wrap32_small in Hcap, Hinca by lia.
  assert (length h1 = length h0 + length comps)%nat as Hlenh1
    by (by rewrite Hh1, length_app, length_fmap).
  split; [|split; [done|split; [done|split; [done|split; [done|]]]]].
  2:{ rewrite Hh1, <- app_assoc. by eexists. }
  split; [|rewrite Hlen, Hcap, Hslen; lia].
  unfold cols_ok. rewrite Hcap, Hinca.
  split; [lia|]. split; [done|]. split; [|split; [|split; [|done]]].
  - apply cols_lookup. intros i id Hi.
    rewrite HIds, list_lookup_fmap in Hi.
    destruct (comps !! i) as [c|] eqn:Hc; [|done]. injection Hi as <-.
    destruct (Hin i c Hc) as (Hid & Hal & _ & Hl & Hidx).
    pose proof (proj1 (Forall_lookup _ _) Hvalid i c Hc) as Hv. simpl in Hv.
    rewrite (valid_type_round_up _ Hv) in Hl.
    destruct Hv as (Hsz & _).
    eapply (col_ok_intro _ _ _ _ (length h0 + i) (Type_of c) cap0
              (Arch.Init_block cap0 c)); try done; try lia.
    + by rewrite Hbufs, list_lookup_imap, Hc.
    + rewrite lookup_app_l by (apply lookup_lt_Some in Hc; lia).
      rewrite Hh1, lookup_app_r by lia.
      replace (length h0 + i - length h0)%nat with i by lia.
      by rewrite list_lookup_fmap, Hc.
    + unfold Arch.Init_block. rewrite length_replicate. nia.
  - rewrite Hbuf. simpl. apply NoDup_cons. split.
    + intros (i & Hi)%list_elem_of_lookup.
      rewrite Hbufs, list_lookup_fmap, list_lookup_imap in Hi.
      destruct (comps !! i) as [c|] eqn:Hc; [|done]. simpl in Hi.
      injection Hi as Hi. apply lookup_lt_Some in Hc. lia.
    + apply NoDup_alt. intros i j x Hi Hj.
      rewrite Hbufs, list_lookup_fmap, list_lookup_imap in Hi, Hj.
      destruct (comps !! i) as [ci|]; [|done].
      destruct (comps !! j) as [cj|]; [|done].
      simpl in Hi, Hj. rewrite <- Hi in Hj. injection Hj. lia.
  - by rewrite Hbufs, HIds, length_imap, length_fmap.
Qed.

End Init_returns.

(** ** [Add] *)

(** As [write_loop], for a loop whose writes depend on what the rounds
    before have left. *)
Lemma write_loop_inv {X} h a row (f : heap → X → outcome heap) (key : X → ID)
    (data : X → list byte) xs :
  cols_ok h a → 0 ≤ row < Arch.cap a →
  NoDup (key <$> xs) →
  (∀ y, y ∈ xs → key y ∈ Arch.Ids a) →
  (∀ x lay, x ∈ xs → Arch.layouts a !! key x = Some lay →
     Z.of_nat (length (data x)) = Arch.itemSize lay) →
  (∀ l x rest hk, xs = l ++ x :: rest → write_inv h a row key data l hk →
     f hk x = write_cell hk a row (key x) (data x)) →
  ∃ h', for_each f h xs = Ok h' ∧ write_inv h a row key data xs h'.
Proof.
  intros Hcols Hrow Hnd Hmems Hdata Hf.
  apply for_each_prefix.
  - split; [done|]. split; [done|]. split; [|done].
    intros x Hx. by apply elem_of_nil in Hx.
  - intros l x rest hk -> Hinv.
    assert (x ∈ l ++ x :: rest) as Hx by (apply elem_of_app; right; by left).
    rewrite (Hf l x rest hk eq_refl Hinv).
    eapply write_cell_step; try done. intros lay. by apply Hdata.
Qed.

(** The loop of [extend] leaves the size of an element of every column
    as it is. *)
Lemma extend_column_itemSize st id st' :
  Arch.extend_column st id = Ok st' →
  Arch.itemSize <$> Arch.layouts st'.2 = Arch.itemSize <$> Arch.layouts st.2.
Proof.
  destruct st as [h a]. unfold Arch.extend_column.
  destruct (Arch.getStorage a id) as [lay| |] eqn:Hlay; simpl; [|done..].
  apply getStorage_inv in Hlay.
  destruct (Arch.itemSize lay =? 0); [by intros [= <-]|].
  destruct (index_slice (Arch.indices a) id) as [index| |]; simpl; [|done..].
  destruct (index_slice (Arch.buffers a) index) as [[|b ty n]| |]; simpl;
    [done| |done..].
  destruct (reflect_New_ArrayOf h (Arch.cap a) ty) as [[h1 buf]| |]; simpl;
    [|done..].
  destruct (reflect_Copy h1 buf (ArrayAt b ty n)) as [h2| |]; simpl; [|done..].
  intros [= <-]. simpl. rewrite list_fmap_insert. simpl.
  apply list_insert_id. by rewrite list_lookup_fmap, Hlay.
Qed.

Lemma extend_loop_itemSize l st st' :
  for_each Arch.extend_column st l = Ok st' →
  Arch.itemSize <$> Arch.layouts st'.2 = Arch.itemSize <$> Arch.layouts st.2.
Proof.
  revert st. induction l as [|id l IH]; intros st; simpl.
  - by intros [= <-].
  - destruct (Arch.extend_column st id) as [st1| |] eqn:Hst; simpl; [|done..].
    intros Hl. rewrite (IH _ Hl). by eapply extend_column_itemSize.
Qed.

Lemma extend_itemSize h a h' a' id lay' :
  Arch.extend h a = Ok (h', a') → Arch.layouts a' !! id = Some lay' →
  ∃ lay, Arch.layouts a !! id = Some lay ∧
    Arch.itemSize lay = Arch.itemSize lay'.
Proof.
  intros Hext Hlay'.
  assert (Arch.itemSize <$> Arch.layouts a' = Arch.itemSize <$> Arch.layouts a)
    as Heq.
  { unfold Arch.extend in Hext.
    destruct (Arch.len a <? Arch.cap a); [by injection Hext as <- <-|].
    destruct (Arch.capacityIncrement a =? 0); [done|].
    by apply extend_loop_itemSize in Hext. }
  apply (f_equal (λ l, l !! id)) in Heq.
  rewrite !list_lookup_fmap, Hlay' in Heq. simpl in Heq.
  destruct (Arch.layouts a !! id) as [lay|]; [|done].
  exists lay. split; [done|]. simpl in Heq. by injection Heq.
Qed.

(** [Add], step by step. *)
Lemma Arch_Add_spec h a e components (data : Component → list byte) :
  arch_inv h a → Stor.itemSize (Arch.entities a) = 8 →
  Arch.len a + 1 < 2 ^ 32 →
  Arch.cap a + Arch.capacityIncrement a < 2 ^ 32 →
  Stor.cap (Arch.entities a) + Stor.capacityIncrement (Arch.entities a)
    < 2 ^ 32 →
  length components = length (Arch.Ids a) →
  NoDup (C_ID <$> components) →
  (∀ c, c ∈ components → C_ID c ∈ Arch.Ids a) →
  (∀ c lay, c ∈ components → Arch.layouts a !! C_ID c = Some lay →
     Arch.itemSize lay ≠ 0 →
     load h (Comp c) (Arch.itemSize lay) = Some (data c)) →
  (∀ c b off, c ∈ components → Comp c = Ptr b off →
     Some b ∉ block_of (Stor.buffer (Arch.entities a))
              :: (block_of <$> Arch.buffers a)) →
  ∃ h' a',
    Arch.Add h a e components = Ok (h', a', Arch.len a) ∧
    arch_inv h' a' ∧ Stor.itemSize (Arch.entities a') = 8 ∧
    Arch.len a' = Arch.len a + 1 ∧ Arch.Ids a' = Arch.Ids a ∧
    Arch.Mask_of a' = Arch.Mask_of a ∧
    Arch.capacityIncrement a' = Arch.capacityIncrement a ∧
    Arch.cap a' = (if decide (Arch.len a < Arch.cap a) then Arch.cap a
                   else Arch.grown_cap (Arch.cap a) (Arch.capacityIncrement a)) ∧
    Arch.GetEntity h' a' (Arch.len a) = Some (Entity_bytes e) ∧
    (∀ j, 0 ≤ j < Arch.len a → Arch.GetEntity h' a' j = Arch.GetEntity h a j) ∧
    (∀ c lay, c ∈ components → Arch.layouts a !! C_ID c = Some lay →
       Arch.itemSize lay ≠ 0 →
       Arch.item h' a' (Arch.len a) (C_ID c) = Some (data c)) ∧
    (∀ row id, id ∈ Arch.Ids a → 0 ≤ row < Arch.len a →
       Arch.item h' a' row id = Arch.item h a row id).
Proof.
  intros [Hcols [Hlen Hel]] Hsz Hlen1 Hcap1 Hecap1 Hcount Hnd Hmems Hsrc Hout.
  destruct (Arch_push_entity h a e Hcols Hel Hsz Hlen1 Hecap1)
    as (h1 & ents1 & HAdd & Hcols1 & Hlen' & Hsz1 & Hinc1 & Hnew & Hold
        & Hlenh & Hframe).
  destruct (cols_entities_block _ _ Hcols) as (be & Hbe & Haddr & Hbelt & Hbenot).
  set (a1 := Arch.with_entities a ents1) in *.
  destruct (Arch_extend_spec h1 a1 Hcols1 Hlen Hcap1)
    as (h2 & a2 & Hext & Hcols2 & Hroom & Hcap2 & Hlen2 & Hents2 & HIds2
        & Hmask2 & Hinc2 & [hnew ->] & Hitems2 & Hout2 & Hblks2).
  simpl in Hroom, Hcap2, Hlen2, Hents2, HIds2, Hmask2, Hinc2, Hblks2.
  destruct (cols_entities_block _ _ Hcols2) as (be2 & Hbe2 & Haddr2 & _ & Hbenot2).
  set (a3 := Arch.with_len a2 (Arch.len a + 1)).
  assert (cols_ok (h1 ++ hnew) a3) as Hcols3 by by apply cols_ok_with_len.
  set (data' := λ c : Component,
         match Arch.layouts a3 !! C_ID c with
         | Some lay => if Arch.itemSize lay =? 0 then [] else data c
         | None => []
         end).
  assert (∀ c lay3, c ∈ components → Arch.layouts a3 !! C_ID c = Some lay3 →
            Arch.itemSize lay3 ≠ 0 →
            0 ≤ Arch.itemSize lay3 ≤ MaxInt32 ∧
            load h (Comp c) (Arch.itemSize lay3) = Some (data c)) as Hsrc3.
  { intros c lay3 Hc Hlay3 Hnz.
    destruct (extend_itemSize _ _ _ _ _ _ Hext Hlay3) as (lay & Hlay & Heq).
    rewrite <- Heq in *. split; [|by apply Hsrc].
    pose proof (Hmems c Hc) as (i & Hi)%list_elem_of_lookup.
    destruct (cols_col _ _ _ _ Hcols Hi) as (b & ty & n & blk & _ & _ & Hl & _
                                             & _ & Hs & _).
    simpl in Hlay. rewrite Hlay in Hl. injection Hl as ->. done. }
  destruct (write_loop (h1 ++ hnew) a3 (Arch.len a)
              (λ h c,
                 lay ← Arch.getStorage a3 (C_ID c);
                 dst ← Arch.Get a3 (Arch.len a) (C_ID c);
                 if Arch.itemSize lay =? 0 then Ok h
                 else Arch.copy h (Comp c) dst (Arch.itemSize lay))
              C_ID data' components)
    as (h3 & Hloop & Hshape & Hout3 & Hdone & Hrest); try done.
  - simpl. lia.
  - intros c Hc. simpl. rewrite HIds2. by apply Hmems.
  - intros c lay3 Hc Hlay3. unfold data'. rewrite Hlay3.
    destruct (Arch.itemSize lay3 =? 0) eqn:Hz; [apply Z.eqb_eq in Hz; by rewrite Hz|].
    apply Z.eqb_neq in Hz.
    destruct (Hsrc3 c lay3 Hc Hlay3 Hz) as [_ Hl].
    by apply load_length in Hl.
  - intros hk c Hc Hsh Hso.
    pose proof (Hmems c Hc) as Hid. rewrite <- HIds2 in Hid.
    pose proof Hid as (i & Hi)%list_elem_of_lookup.
    destruct (cols_col _ _ _ _ Hcols3 Hi)
      as (b3 & ty & n & blk & _ & _ & Hlay3 & _).
    unfold write_cell, Arch.Get. rewrite (getStorage_Ok _ _ _ Hlay3).
    cbn [mbind outcome_bind].
    destruct (Arch.itemSize _ =? 0) eqn:Hz; [done|]. apply Z.eqb_neq in Hz.
    destruct (Hsrc3 c _ Hc Hlay3 Hz) as [Hmax Hl].
    unfold data'. rewrite Hlay3, (proj2 (Z.eqb_neq _ _) Hz).
    unfold Arch.copy. apply slice_copy_Ok; [lia|].
    destruct (load_inv _ _ _ _ Hl) as (b & off & blkb & Hp & Hb & _).
    rewrite Hp in *.
    pose proof (Hout c b off Hc Hp) as Hnot.
    apply not_elem_of_cons in Hnot as [Hne Hnot].
    assert (b < length h)%nat as Hblt by by eapply lookup_lt_Some.
    rewrite <- Hl. apply load_block_eq.
    rewrite Hso.
    + rewrite lookup_app_l by lia. by apply Hframe.
    + intros Hin. apply Hblks2 in Hin as [Hin|Hin]; [done|lia].
  - unfold Arch.Add. rewrite decide_False by (intros ?; done).
    cbn [escape]. rewrite HAdd. cbn [mbind outcome_bind].
    fold a1. rewrite Hext. cbn [mbind outcome_bind].
    rewrite Hlen2, (wrap32_small (Arch.len a + 1)) by lia. fold a3.
    rewrite Hloop. cbn [mbind outcome_bind].
    eexists _, _. split; [done|].
    assert (∀ j, Stor.item h3 ents1 j = Stor.item h1 ents1 j) as Hent3.
    { intros j. rewrite Hents2 in Haddr2, Hbe2.
      rewrite (Stor_item_block_eq (h1 ++ hnew) h3 ents1 be2 j Haddr2
                 (Hout3 _ Hbenot2)).
      eapply Stor_item_block_eq; [done|]. apply lookup_app_l.
      destruct Hcols1 as (_ & _ & _ & _ & _ & Hw1).
      destruct (Stor_wf_inv _ _ Hw1) as (b1 & ? & Hb1 & Ha1 & _ & Hl1 & _).
      simpl in Ha1. rewrite Ha1 in Haddr2. injection Haddr2 as <-.
      by eapply lookup_lt_Some. }
    split.
    { split; [by apply (cols_ok_shape (h1 ++ hnew))|].
      simpl. rewrite Hents2. lia. }
    simpl. rewrite Hents2.
    split; [done|]. split; [done|]. split; [done|]. split; [done|].
    split; [done|]. split; [done|].
    split. { unfold Arch.GetEntity. simpl. by rewrite Hents2, Hent3. }
    split.
    { intros j Hj. unfold Arch.GetEntity. simpl. rewrite Hents2, Hent3.
      by apply Hold. }
    split.
    + intros c lay Hc Hlay Hnz. rewrite (Hdone c Hc). unfold data'.
      pose proof (Hmems c Hc) as Hid. rewrite <- HIds2 in Hid.
      pose proof Hid as (i & Hi)%list_elem_of_lookup.
      destruct (cols_col _ _ _ _ Hcols3 Hi)
        as (b3 & ty & n & blk & _ & _ & Hlay3 & _).
      rewrite Hlay3.
      destruct (extend_itemSize _ _ _ _ _ _ Hext Hlay3) as (lay0 & Hlay0 & Heq).
      simpl in Hlay0. rewrite Hlay in Hlay0. injection Hlay0 as <-.
      rewrite <- Heq. by rewrite (proj2 (Z.eqb_neq _ _) Hnz).
    + intros row id Hid Hrow. rewrite Hrest;
        [|unfold a3; cbn [Arch.Ids Arch.with_len]; by rewrite HIds2
         |simpl; lia|left; lia].
      unfold a3. rewrite item_with_len.
      rewrite Hitems2 by (done || simpl; lia). unfold a1.
      rewrite item_with_entities. apply (item_frame h); [done..|].
      intros b Hb. apply Hframe; [by eapply cols_block_lt|].
      rewrite Hbe. by intros [= ->].
Qed.

(** ** [Remove] *)

Lemma for_each_skip {S X} (f : S → X → outcome S) s xs :
  (∀ x, x ∈ xs → f s x = Ok s) → for_each f s xs = Ok s.
Proof.
  induction xs as [|x xs IH]; intros Hf; simpl; [done|].
  rewrite Hf by by left. simpl. apply IH. intros y Hy. apply Hf. by right.
Qed.

(** [Remove] of a row of the archetype: the last row takes its place in
    every column and among the entities. *)
Lemma Arch_Remove_spec h a index :
  arch_inv h a → 0 ≤ index < Arch.len a →
  ∃ h' a',
    Arch.Remove h a index
    = Ok (h', a', bool_decide (index < Arch.len a - 1)) ∧
    arch_inv h' a' ∧ Arch.len a' = Arch.len a - 1 ∧
    Arch.cap a' = Arch.cap a ∧ Arch.Ids a' = Arch.Ids a ∧
    Arch.Mask_of a' = Arch.Mask_of a ∧
    Arch.capacityIncrement a' = Arch.capacityIncrement a ∧
    Stor.itemSize (Arch.entities a') = Stor.itemSize (Arch.entities a) ∧
    (∀ row id, id ∈ Arch.Ids a → 0 ≤ row < Arch.len a - 1 →
       Arch.item h' a' row id
       = Arch.item h a (if decide (row = index) then Arch.len a - 1 else row)
           id) ∧
    (∀ row, 0 ≤ row < Arch.len a - 1 →
       Arch.GetEntity h' a' row
       = Arch.GetEntity h a
           (if decide (row = index) then Arch.len a - 1 else row)).
Proof.
  intros [Hcols [Hlen Hel]] Hidx.
  pose proof Hcols as (Hcap & Hinc & Hcol & Hndb & Hnbuf & Hents).
  destruct (cols_entities_block _ _ Hcols) as (be & Hbe & Haddr & Hbelt & Hbenot).
  destruct (Stor_Remove_in_bounds h (Arch.entities a) index Hents
              ltac:(lia))
    as (h1 & HRem & Hwf1 & Hat & Hother & Hlen1 & Hbl1 & Hload1).
  rewrite Hel in *.
  set (ents' := Stor.with_len (Arch.entities a) (Arch.len a - 1)) in *.
  assert (same_shape h h1) as Hshape1 by done.
  assert (cols_ok h1 a) as Hcols1 by by apply (cols_ok_shape h).
  assert (∀ row id, id ∈ Arch.Ids a → 0 ≤ row < 2 ^ 32 →
            Arch.item h1 a row id = Arch.item h a row id) as Hitems1.
  { intros row id (i & Hi)%list_elem_of_lookup Hrow.
    destruct (cols_col _ _ _ _ Hcols Hi)
      as (b & ty & n & blk & _ & Hbuf & Hlay & _ & _ & Hsz & _).
    rewrite !(item_eq _ _ _ _ b (Size ty)) by done.
    apply Hload1. rewrite Hbe. intros [= ->]. apply Hbenot.
    apply list_elem_of_lookup. exists i. by rewrite list_lookup_fmap, Hbuf. }
  set (o := Arch.len a - 1).
  assert (wrap32 (Arch.len a - 1) = o) as Ho by (apply wrap32_small; lia).
  set (f := λ (h : heap) (id : nat),
         lay ← Arch.getStorage a id;
         if (index =? o) || (Arch.itemSize lay =? 0) then Ok h
         else
           Arch.copy h (unsafe_Add (Arch.pointer_of lay) (wrap64 (o * Arch.itemSize lay)))
             (unsafe_Add (Arch.pointer_of lay) (wrap64 (index * Arch.itemSize lay)))
             (Arch.itemSize lay)).
  assert (∃ h2, for_each f h1 (Arch.Ids a) = Ok h2 ∧
            same_shape h1 h2 ∧ same_outside a h1 h2 ∧
            (∀ row id, id ∈ Arch.Ids a → 0 ≤ row < Arch.cap a →
               Arch.item h2 a row id
               = Arch.item h1 a (if decide (row = index) then o else row) id))
    as (h2 & Hloop & Hshape2 & Hout2 & Hitems2).
  { destruct (decide (index = o)) as [Heq|Hne].
    - exists h1. split.
      + apply for_each_skip. intros id (i & Hi)%list_elem_of_lookup.
        destruct (cols_col _ _ _ _ Hcols Hi)
          as (b & ty & n & blk & _ & _ & Hlay & _).
        unfold f. rewrite (getStorage_Ok _ _ _ Hlay). simpl.
        by rewrite (proj2 (Z.eqb_eq _ _) Heq).
      + split; [done|]. split; [done|]. intros row id _ _.
        destruct (decide (row = index)) as [->|]; [by rewrite Heq|done].
    - set (data := λ id : nat,
             match Arch.item h1 a o id with Some bs => bs | None => [] end).
      assert (NoDup (Arch.Ids a)) as Hnd.
      { apply NoDup_alt. intros i j id Hi Hj.
        eapply cols_ids_inj; [|done..]. apply cols_lookup, Hcols. }
      assert (∀ id, id ∈ Arch.Ids a →
                ∃ b ty, Arch.layouts a !! id
                        = Some (Arch.mkLayout (Ptr b 0) (Size ty)) ∧
                  0 ≤ Size ty ≤ MaxInt32 ∧
                  (Size ty ≠ 0 →
                   Arch.item h1 a o id = Some (data id) ∧
                   Z.of_nat (length (data id)) = Size ty) ∧
                  (Size ty = 0 → data id = [])) as Hcell.
      { intros id (i & Hi)%list_elem_of_lookup.
        destruct (cols_col _ _ _ _ Hcols1 Hi)
          as (b & ty & n & blk & _ & _ & Hlay & Hb & Hblk & Hsz & Hn & Hncap).
        exists b, ty. split; [done|]. split; [done|].
        assert (0 ≤ o < 2 ^ 32) as Ho32 by (unfold o; lia).
        split.
        - intros Hnz. specialize (Hncap Hnz). subst n.
          assert (Arch.item h1 a o id
                  = Some (take (Z.to_nat (Size ty))
                            (drop (Z.to_nat (o * Size ty)) blk))) as Hit.
          { apply (item_block _ _ _ _ b ty blk); try done.
            unfold o. nia. }
          unfold data. rewrite Hit. split; [done|].
          rewrite length_take, length_drop. unfold o in *. nia.
        - intros Hz. unfold data.
          rewrite (item_eq _ _ _ _ b (Size ty)) by done.
          destruct (load _ _ _) as [bs|] eqn:Hl; [|done].
          apply load_length in Hl. rewrite Hz in Hl.
          by destruct bs. }
      destruct (write_loop_inv h1 a index f (λ x, x) data (Arch.Ids a))
        as (h2 & Hloop & Hshape & Hframe & Hdone & Hrest); try done.
      + lia.
      + by rewrite list_fmap_id.
      + intros id lay Hid Hlay.
        destruct (Hcell id Hid) as (b & ty & Hlay' & Hsz & Hnz & Hz).
        rewrite Hlay in Hlay'. injection Hlay' as ->. simpl.
        destruct (decide (Size ty = 0)) as [Hz'|Hnz'].
        * rewrite (Hz Hz'), Hz'. done.
        * by apply Hnz.
      + intros l id rest hk HIds (Hsh & Hso & Hd & Hr).
        assert (id ∈ Arch.Ids a) as Hid
          by (rewrite HIds; apply elem_of_app; right; by left).
        destruct (Hcell id Hid) as (b & ty & Hlay & Hsz & Hnz & Hz).
        unfold f, write_cell. rewrite (getStorage_Ok _ _ _ Hlay).
        cbn [mbind outcome_bind Arch.itemSize Arch.pointer_of].
        rewrite (proj2 (Z.eqb_neq _ _) Hne). simpl orb.
        destruct (Size ty =? 0) eqn:Hz0; [done|]. apply Z.eqb_neq in Hz0.
        destruct (Hnz Hz0) as [Hit Hlend].
        rewrite layout_Get_eq by (done || lia).
        cbn [unsafe_Add].
        rewrite !wrap64_offset, !Z.add_0_l by (done || unfold o; lia).
        unfold Arch.copy. apply slice_copy_Ok; [lia|].
        rewrite <- Hit.
        rewrite <- (Hr o id Hid ltac:(unfold o; lia) ltac:(left; done)).
        symmetry. apply item_eq; [done..|unfold o; lia].
      + exists h2. split; [done|]. split; [done|]. split; [done|].
        intros row id Hid Hrow.
        destruct (decide (row = index)) as [->|Hner].
        * rewrite (Hdone id Hid).
          destruct (Hcell id Hid) as (b & ty & Hlay & Hsz & Hnz & Hz).
          destruct (decide (Size ty = 0)) as [Hz'|Hnz'].
          -- rewrite (Hz Hz').
             rewrite (item_eq _ _ _ _ b (Size ty)) by (done || unfold o; lia).
             rewrite Hz'.
             pose proof Hid as (i & Hi)%list_elem_of_lookup.
             destruct (cols_col _ _ _ _ Hcols1 Hi)
               as (b' & ty' & n & blk & _ & _ & Hlay' & Hb & _).
             rewrite Hlay in Hlay'. injection Hlay' as <- _.
             rewrite (load_Some _ _ _ _ blk) by (done || unfold o; lia).
             done.
          -- symmetry. by apply Hnz.
        * apply Hrest; [done..|by left]. }
  unfold Arch.Remove. rewrite HRem. cbn [mbind outcome_bind].
  rewrite Ho. fold f. rewrite Hloop. cbn [mbind outcome_bind].
  eexists _, _. split; [done|].
  assert (∀ j, Stor.item h2 ents' j = Stor.item h1 (Arch.entities a) j)
    as Hent2.
  { intros j.
    change (Stor.item h2 ents' j) with (Stor.item h2 (Arch.entities a) j).
    eapply Stor_item_block_eq; [done|]. by apply Hout2. }
  split.
  { split.
    - apply (cols_ok_shape h1); [|done].
      unfold cols_ok. simpl.
      destruct Hcols1 as (? & ? & ? & ? & ? & ?). done.
    - simpl. lia. }
  simpl.
  split; [done|]. split; [done|]. split; [done|]. split; [done|].
  split; [done|]. split; [done|]. split.
  - intros row id Hid Hrow.
    change (Arch.item h2 _ row id) with (Arch.item h2 a row id).
    unfold o in Hrow.
    rewrite Hitems2 by (done || lia).
    apply Hitems1; [done|]. destruct (decide (row = index)); unfold o; lia.
  - intros row Hrow. unfold o in Hrow. unfold Arch.GetEntity. simpl.
    rewrite Hent2.
    destruct (decide (row = index)) as [->|Hne].
    + rewrite Hat. by rewrite bool_decide_eq_true_2 by lia.
    + apply Hother; [|done].
      destruct (Stor_wf_inv _ _ Hents) as (_ & _ & _ & _ & _ & _ & _ & _ & Hsl & _).
      lia.
Qed.

(** * The archetype, as its callers see it *)

(** ** [Init] *)

(** X7.  With a positive [MaskTotalBits], component sizes from 0 to
    [MaxInt32] and an initial capacity below [2^32], [Init] returns
    exactly for the components it accepts: ids strictly ascending and
    below [MaskTotalBits], no alignment 0, a capacity that is not
    negative.  For all others it panics. *)
Theorem Init_returns_or_panics MaskTotalBits h0 inc (fs : bool) comps :
  (0 < MaskTotalBits)%nat →
  Forall (λ c, 0 ≤ Size (Type_of c) ≤ MaxInt32 ∧ 0 ≤ Align (Type_of c)) comps →
  (if fs then inc else 1) < 2 ^ 32 →
  ((∃ h' a, Arch.Init MaskTotalBits h0 inc fs comps = Ok (h', a)) ↔
   Init_accepts MaskTotalBits (if fs then inc else 1) comps) ∧
  (¬ Init_accepts MaskTotalBits (if fs then inc else 1) comps →
   panics (Arch.Init MaskTotalBits h0 inc fs comps)).
Proof.
  intros _ _ _.
  split; [apply Init_returns_iff_accepts|].
  intros Hnot.
  pose proof (Init_no_Fault MaskTotalBits h0 inc fs comps) as Hnf.
  pose proof (proj1 (Init_returns_iff_accepts MaskTotalBits h0 inc fs comps))
    as Hacc.
  destruct (Arch.Init _ _ _ _ _) as [[h' a]|msg|]; [|by exists msg|done].
  exfalso. apply Hnot, Hacc. by exists h', a.
Qed.

(** X8.  [Init] on accepted components of valid types, with an increment in
    the range of [uint32], makes an archetype that satisfies the
    invariant: no rows, the capacity asked for, the ids of the
    components; the memory that was there is untouched. *)
Theorem Init_establishes_invariant MaskTotalBits h0 inc (fs : bool) comps :
  Init_accepts MaskTotalBits (if fs then inc else 1) comps →
  Forall (λ c, valid_type (Type_of c)) comps →
  0 < inc < 2 ^ 32 →
  ∃ h' a,
    Arch.Init MaskTotalBits h0 inc fs comps = Ok (h', a) ∧
    arch_inv h' a ∧ Arch.Len a = 0 ∧
    Arch.Cap a = (if fs then inc else 1) ∧
    Arch.capacityIncrement a = inc ∧
    Arch.Components a = ID_of <$> comps ∧
    Stor.itemSize (Arch.entities a) = 8 ∧
    (∀ b, (b < length h0)%nat → h' !! b = h0 !! b).
Proof.
  intros Hacc Hvalid Hinc.
  destruct (Init_inv_spec MaskTotalBits h0 inc fs comps Hacc Hvalid Hinc)
    as (h' & a & Hinit & Hinv & Hlen & Hsz & _ & _ & [hnew ->]).
  destruct (Init_Ok _ _ _ _ _ _ _ Hinit)
    as (h1 & _ & _ & HIds & _ & _ & Hcap & Hinca & _).
  exists (h0 ++ hnew), a. split; [done|]. split; [done|]. split; [done|].
  split. { unfold Arch.Cap. rewrite Hcap. apply wrap32_small. destruct fs; lia. }
  split. { rewrite Hinca. apply wrap32_small. lia. }
  split; [done|]. split; [done|].
  intros b Hb. by apply lookup_app_l.
Qed.

(** X9.  After [Init], a component that the archetype does not have is a
    silent no-op for the accessors: [Get] returns nil, [Set] and
    [SetPointer] write nothing and return nil, [Zero] writes nothing. *)
Theorem absent_component_is_skipped MaskTotalBits h0 inc fs comps h' a id
    h row src :
  Arch.Init MaskTotalBits h0 inc fs comps = Ok (h', a) →
  (id < MaskTotalBits)%nat → id ∉ ID_of <$> comps →
  Arch.Get a row id = Ok nil ∧
  Arch.Set_ h a row id src = Ok (h, nil) ∧
  Arch.SetPointer h a row id src = Ok (h, nil) ∧
  Arch.Zero h a row id = Ok h.
Proof.
  intros Hinit Hid Hnot.
  destruct (Init_Ok _ _ _ _ _ _ _ Hinit)
    as (h1 & _ & _ & HIds & _ & _ & _ & _ & _ & _ & _ & Hout & _).
  rewrite <- HIds in Hnot.
  pose proof (getStorage_Ok _ _ _ (Hout id Hid Hnot)) as Hlay.
  unfold Arch.Set_, Arch.SetPointer, Arch.Zero, Arch.Get. rewrite Hlay.
  done.
Qed.

(** ** [extend] *)

(** X10.  [extend] on an archetype with its rows within the capacity: with a
    free row it does nothing; when full, the capacity becomes
    [inc * ((cap + inc) / inc)], which is above the old one by at most
    the increment.  Either way there is room for one more row, every row
    of every column reads as before, and no block that existed has been
    touched. *)
Theorem extend_makes_room h a :
  cols_ok h a → 0 ≤ Arch.len a ≤ Arch.cap a →
  Arch.cap a + Arch.capacityIncrement a < 2 ^ 32 →
  ∃ h' a',
    Arch.extend h a = Ok (h', a') ∧ cols_ok h' a' ∧
    Arch.len a' = Arch.len a ∧ Arch.len a < Arch.cap a' ∧
    Arch.Ids a' = Arch.Ids a ∧
    (Arch.len a < Arch.cap a → h' = h ∧ a' = a) ∧
    (Arch.len a = Arch.cap a →
       Arch.cap a'
       = Arch.capacityIncrement a
         * ((Arch.cap a + Arch.capacityIncrement a) / Arch.capacityIncrement a)
       ∧ Arch.cap a < Arch.cap a' ≤ Arch.cap a + Arch.capacityIncrement a) ∧
    (∀ row id, id ∈ Arch.Ids a → 0 ≤ row < Arch.cap a →
       Arch.item h' a' row id = Arch.item h a row id) ∧
    (∀ b, (b < length h)%nat → h' !! b = h !! b).
Proof.
  intros Hcols Hlen Hmax.
  destruct (Arch_extend_spec h a Hcols Hlen Hmax)
    as (h' & a' & Hext & Hcols' & Hroom & Hcap' & Hlen' & _ & HIds & _ & _
        & [hnew ->] & Hitems & _).
  pose proof Hcols as (Hcap & Hinc & _).
  exists (h ++ hnew), a'. split; [done|]. split; [done|]. split; [done|].
  split; [done|]. split; [done|]. split; [|split; [|split; [done|]]].
  - intros Hlt. unfold Arch.extend in Hext.
    rewrite (proj2 (Z.ltb_lt _ _) Hlt) in Hext. by injection Hext as <- <-.
  - intros Heq. rewrite decide_False in Hcap' by lia.
    destruct (grown_cap_spec (Arch.cap a) (Arch.capacityIncrement a))
      as (Hg & Hbounds & _); [lia..|].
    rewrite Hcap'. done.
  - intros b Hb. by apply lookup_app_l.
Qed.

(** ** [Zero] and [ZeroAll] *)

(** X11.  [ZeroAll] of a row within the capacity sets the bytes of that row to
    zero in every column and changes nothing else: no other row, no
    entity; the columns stay as the invariant wants them. *)
Theorem ZeroAll_zeroes_one_row h a row :
  cols_ok h a → 0 ≤ row < Arch.cap a →
  ∃ h',
    Arch.ZeroAll h a row = Ok h' ∧ cols_ok h' a ∧
    (∀ id lay, id ∈ Arch.Ids a → Arch.layouts a !! id = Some lay →
       Arch.item h' a row id
       = Some (replicate (Z.to_nat (Arch.itemSize lay)) x00)) ∧
    (∀ row' id, id ∈ Arch.Ids a → 0 ≤ row' < Arch.cap a → row' ≠ row →
       Arch.item h' a row' id = Arch.item h a row' id) ∧
    (∀ j, Arch.GetEntity h' a j = Arch.GetEntity h a j).
Proof.
  intros Hcols Hrow.
  destruct (Arch_ZeroAll_spec h a row Hcols Hrow)
    as (h' & HZ & Hshape & Hout & Hzero & Hrest).
  destruct (cols_entities_block _ _ Hcols) as (be & Hbe & Haddr & _ & Hbenot).
  exists h'. split; [done|]. split; [by apply (cols_ok_shape h)|].
  split; [done|]. split; [done|].
  intros j. unfold Arch.GetEntity.
  eapply Stor_item_block_eq; [done|]. by apply Hout.
Qed.

(** ** [Alloc] *)

(** X12.  [Alloc] appends the entity: it returns the old number of rows as the
    index, [GetEntity] at that index reads the entity, the entities
    before are the same, [Len] has gone up by one, the capacity has grown
    only if the archetype was full, and the invariant holds again. *)
Theorem Alloc_appends_entity h a e zero :
  arch_inv h a → Stor.itemSize (Arch.entities a) = 8 →
  Arch.len a + 1 < 2 ^ 32 →
  Arch.cap a + Arch.capacityIncrement a < 2 ^ 32 →
  Stor.cap (Arch.entities a) + Stor.capacityIncrement (Arch.entities a)
    < 2 ^ 32 →
  ∃ h' a',
    Arch.Alloc h a e zero = Ok (h', a', Arch.len a) ∧
    arch_inv h' a' ∧ Stor.itemSize (Arch.entities a') = 8 ∧
    Arch.Len a' = Arch.len a + 1 ∧
    Arch.Components a' = Arch.Components a ∧
    Arch.Mask_of a' = Arch.Mask_of a ∧
    Arch.Cap a' = (if decide (Arch.len a < Arch.cap a) then Arch.cap a
                   else Arch.grown_cap (Arch.cap a) (Arch.capacityIncrement a)) ∧
    Arch.GetEntity h' a' (Arch.len a) = Some (Entity_bytes e) ∧
    (∀ j, 0 ≤ j < Arch.len a → Arch.GetEntity h' a' j = Arch.GetEntity h a j).
Proof.
  intros Hinv Hsz Hlen1 Hcap1 Hecap1.
  destruct (Arch_Alloc_spec h a e zero Hinv Hsz Hlen1 Hcap1 Hecap1)
    as (h' & a' & HA & Hinv' & Hsz' & Hlen' & HIds & Hmask & _ & _ & Hcap'
        & Hnew & Hold & _).
  exists h', a'. by split_and!.
Qed.

(** X13.  [Alloc] leaves the rows that were there as they are in every column,
    also when the columns move to larger buffers; with the [zero] flag
    the new row reads as zero bytes in every column.  (Without the flag
    the row holds what the buffer held.) *)
Theorem Alloc_keeps_rows h a e zero :
  arch_inv h a → Stor.itemSize (Arch.entities a) = 8 →
  Arch.len a + 1 < 2 ^ 32 →
  Arch.cap a + Arch.capacityIncrement a < 2 ^ 32 →
  Stor.cap (Arch.entities a) + Stor.capacityIncrement (Arch.entities a)
    < 2 ^ 32 →
  ∃ h' a' idx,
    Arch.Alloc h a e zero = Ok (h', a', idx) ∧
    (∀ row id, id ∈ Arch.Ids a → 0 ≤ row < Arch.len a →
       Arch.item h' a' row id = Arch.item h a row id) ∧
    (zero = true → ∀ id lay, id ∈ Arch.Ids a →
       Arch.layouts a' !! id = Some lay →
       Arch.item h' a' idx id
       = Some (replicate (Z.to_nat (Arch.itemSize lay)) x00)).
Proof.
  intros Hinv Hsz Hlen1 Hcap1 Hecap1.
  destruct (Arch_Alloc_spec h a e zero Hinv Hsz Hlen1 Hcap1 Hecap1)
    as (h' & a' & HA & _ & _ & _ & _ & _ & _ & _ & _ & _ & _ & Hzero & Hrows
        & _).
  exists h', a', (Arch.len a). by split_and!.
Qed.

(** ** [Add] *)

(** X14.  [Add] with one component for each id of the archetype, each behind a
    pointer into memory that is not the archetype's own: the call returns
    the old number of rows, the entity is at that index, every column
    that takes memory holds there the bytes that were behind the pointer,
    and the rows and entities that were there are unchanged. *)
Theorem Add_writes_row h a e components :
  arch_inv h a → Stor.itemSize (Arch.entities a) = 8 →
  Arch.len a + 1 < 2 ^ 32 →
  Arch.cap a + Arch.capacityIncrement a < 2 ^ 32 →
  Stor.cap (Arch.entities a) + Stor.capacityIncrement (Arch.entities a)
    < 2 ^ 32 →
  length components = length (Arch.Ids a) →
  NoDup (C_ID <$> components) →
  (∀ c, c ∈ components → C_ID c ∈ Arch.Ids a) →
  (∀ c lay, c ∈ components → Arch.layouts a !! C_ID c = Some lay →
     Arch.itemSize lay ≠ 0 →
     is_Some (load h (Comp c) (Arch.itemSize lay))) →
  (∀ c b off, c ∈ components → Comp c = Ptr b off →
     Some b ∉ block_of (Stor.buffer (Arch.entities a))
              :: (block_of <$> Arch.buffers a)) →
  ∃ h' a',
    Arch.Add h a e components = Ok (h', a', Arch.len a) ∧
    arch_inv h' a' ∧ Stor.itemSize (Arch.entities a') = 8 ∧
    Arch.Len a' = Arch.len a + 1 ∧
    Arch.Components a' = Arch.Components a ∧
    Arch.GetEntity h' a' (Arch.len a) = Some (Entity_bytes e) ∧
    (∀ j, 0 ≤ j < Arch.len a → Arch.GetEntity h' a' j = Arch.GetEntity h a j) ∧
    (∀ c lay, c ∈ components → Arch.layouts a !! C_ID c = Some lay →
       Arch.itemSize lay ≠ 0 →
       Arch.item h' a' (Arch.len a) (C_ID c)
       = load h (Comp c) (Arch.itemSize lay)) ∧
    (∀ row id, id ∈ Arch.Ids a → 0 ≤ row < Arch.len a →
       Arch.item h' a' row id = Arch.item h a row id).
Proof.
  intros Hinv Hsz Hlen1 Hcap1 Hecap1 Hcount Hnd Hmems Hsrc Hout.
  set (data := λ c : Component,
         match Arch.layouts a !! C_ID c with
         | Some lay => default [] (load h (Comp c) (Arch.itemSize lay))
         | None => []
         end).
  assert (∀ c lay, c ∈ components → Arch.layouts a !! C_ID c = Some lay →
            Arch.itemSize lay ≠ 0 →
            load h (Comp c) (Arch.itemSize lay) = Some (data c)) as Hdata.
  { intros c lay Hc Hlay Hnz. unfold data. rewrite Hlay.
    by destruct (Hsrc c lay Hc Hlay Hnz) as [bs ->]. }
  destruct (Arch_Add_spec h a e components data Hinv Hsz Hlen1 Hcap1 Hecap1
              Hcount Hnd Hmems Hdata Hout)
    as (h' & a' & HA & Hinv' & Hsz' & Hlen' & HIds & _ & _ & _ & Hnew & Hold
        & Hrow & Hrows).
  exists h', a'. split_and!; try done.
  intros c lay Hc Hlay Hnz. rewrite (Hdata c lay Hc Hlay Hnz).
  by eapply Hrow.
Qed.

(** ** [Remove] *)

(** X15.  [Remove] of a row of the archetype is a swap-remove of the whole row:
    the last row takes its place, in every column and among the
    entities; the other rows stay; [Len] goes down by one; the result
    tells whether a row has moved, that is whether the row removed was
    not the last one. *)
Theorem Remove_swaps_in_last_row h a index :
  arch_inv h a → 0 ≤ index < Arch.len a →
  ∃ h' a',
    Arch.Remove h a index
    = Ok (h', a', bool_decide (index ≠ Arch.len a - 1)) ∧
    arch_inv h' a' ∧ Arch.Len a' = Arch.len a - 1 ∧
    Arch.Cap a' = Arch.cap a ∧ Arch.Components a' = Arch.Components a ∧
    (∀ row id, id ∈ Arch.Ids a → 0 ≤ row < Arch.len a - 1 →
       Arch.item h' a' row id
       = Arch.item h a (if decide (row = index) then Arch.len a - 1 else row)
           id) ∧
    (∀ row, 0 ≤ row < Arch.len a - 1 →
       Arch.GetEntity h' a' row
       = Arch.GetEntity h a
           (if decide (row = index) then Arch.len a - 1 else row)).
Proof.
  intros Hinv Hidx.
  destruct (Arch_Remove_spec h a index Hinv Hidx)
    as (h' & a' & HR & Hinv' & Hlen' & Hcap' & HIds & _ & _ & _ & Hrows
        & Hents).
  exists h', a'. split_and!; try done.
  rewrite HR. do 2 f_equal. apply bool_decide_ext. lia.
Qed.

(** X16.  [Add] and then [Remove] of the index that [Add] returned: nothing
    moves, and the archetype has the rows and the entities it had
    before. *)
Theorem Add_then_Remove_restores h a e components :
  arch_inv h a → Stor.itemSize (Arch.entities a) = 8 →
  Arch.len a + 1 < 2 ^ 32 →
  Arch.cap a + Arch.capacityIncrement a < 2 ^ 32 →
  Stor.cap (Arch.entities a) + Stor.capacityIncrement (Arch.entities a)
    < 2 ^ 32 →
  length components = length (Arch.Ids a) →
  NoDup (C_ID <$> components) →
  (∀ c, c ∈ components → C_ID c ∈ Arch.Ids a) →
  (∀ c lay, c ∈ components → Arch.layouts a !! C_ID c = Some lay →
     Arch.itemSize lay ≠ 0 →
     is_Some (load h (Comp c) (Arch.itemSize lay))) →
  (∀ c b off, c ∈ components → Comp c = Ptr b off →
     Some b ∉ block_of (Stor.buffer (Arch.entities a))
              :: (block_of <$> Arch.buffers a)) →
  ∃ h1 a1 h2 a2,
    Arch.Add h a e components = Ok (h1, a1, Arch.len a) ∧
    Arch.Remove h1 a1 (Arch.len a) = Ok (h2, a2, false) ∧
    arch_inv h2 a2 ∧ Arch.Len a2 = Arch.Len a ∧
    Arch.Components a2 = Arch.Components a ∧
    (∀ row id, id ∈ Arch.Ids a → 0 ≤ row < Arch.len a →
       Arch.item h2 a2 row id = Arch.item h a row id) ∧
    (∀ row, 0 ≤ row < Arch.len a →
       Arch.GetEntity h2 a2 row = Arch.GetEntity h a row).
Proof.
  intros Hinv Hsz Hlen1 Hcap1 Hecap1 Hcount Hnd Hmems Hsrc Hout.
  set (data := λ c : Component,
         match Arch.layouts a !! C_ID c with
         | Some lay => default [] (load h (Comp c) (Arch.itemSize lay))
         | None => []
         end).
  assert (∀ c lay, c ∈ components → Arch.layouts a !! C_ID c = Some lay →
            Arch.itemSize lay ≠ 0 →
            load h (Comp c) (Arch.itemSize lay) = Some (data c)) as Hdata.
  { intros c lay Hc Hlay Hnz. unfold data. rewrite Hlay.
    by destruct (Hsrc c lay Hc Hlay Hnz) as [bs ->]. }
  destruct (Arch_Add_spec h a e components data Hinv Hsz Hlen1 Hcap1 Hecap1
              Hcount Hnd Hmems Hdata Hout)
    as (h1 & a1 & HA & Hinv1 & _ & Hlen' & HIds & _ & _ & _ & _ & Hold
        & _ & Hrows).
  pose proof Hinv as (_ & Hlen & _).
  destruct (Arch_Remove_spec h1 a1 (Arch.len a) Hinv1 ltac:(lia))
    as (h2 & a2 & HR & Hinv2 & Hlen2 & _ & HIds2 & _ & _ & _ & Hrows2
        & Hents2).
  exists h1, a1, h2, a2. split; [done|]. split.
  { rewrite HR. do 2 f_equal. apply bool_decide_eq_false_2. lia. }
  split; [done|]. split; [unfold Arch.Len; lia|].
  split; [unfold Arch.Components; congruence|]. split.
  - intros row id Hid Hrow. rewrite Hrows2 by (rewrite ?HIds; done || lia).
    rewrite decide_False by lia. by apply Hrows.
  - intros row Hrow. rewrite Hents2 by lia.
    rewrite decide_False by lia. by apply Hold.
Qed.

(** ** The nodes of the archetype graph *)

(** X17.  A new node has no transitions: for every id below [MaskTotalBits]
    both lookups return nil and false; for any other id they panic. *)
Theorem newArchetypeNode_no_transitions MaskTotalBits mask id :
  let n := newArchetypeNode MaskTotalBits mask in
  ((id < MaskTotalBits)%nat →
     GetTransitionAdd n id = Ok (None, false) ∧
     GetTransitionRemove n id = Ok (None, false)) ∧
  ((MaskTotalBits ≤ id)%nat →
     panics (GetTransitionAdd n id) ∧ panics (GetTransitionRemove n id)).
Proof.
  intros n. unfold GetTransitionAdd, GetTransitionRemove, index_slice.
  simpl. split; intros Hid.
  - by rewrite lookup_replicate_2 by done.
  - assert (replicate MaskTotalBits (None : option nat) !! id = None) as ->
      by (apply lookup_replicate_None; lia).
    split; by eexists.
Qed.

(** X18.  [SetTransitionAdd] and then [GetTransitionAdd] of the same id give
    the node that was set, and true exactly if it is not nil; the
    transitions of the other ids and all remove-transitions are as
    before.  An id outside the slice makes the call panic. *)
Theorem SetTransitionAdd_then_Get a id to :
  ((id < length (toAdd a))%nat →
   ∃ a',
     SetTransitionAdd a id to = Ok a' ∧
     GetTransitionAdd a' id = Ok (to, bool_decide (to ≠ None)) ∧
     (∀ id', id' ≠ id → GetTransitionAdd a' id' = GetTransitionAdd a id') ∧
     (∀ id', GetTransitionRemove a' id' = GetTransitionRemove a id') ∧
     node_mask a' = node_mask a ∧ node_archetype a' = node_archetype a) ∧
  ((length (toAdd a) ≤ id)%nat → panics (SetTransitionAdd a id to)).
Proof.
  unfold SetTransitionAdd. split; intros Hid.
  - rewrite decide_True by done. eexists. split; [done|].
    unfold GetTransitionAdd, GetTransitionRemove, index_slice. simpl.
    split; [by rewrite list_lookup_insert_eq by done|].
    split; [|done]. intros id' Hne.
    by rewrite list_lookup_insert_ne by done.
  - rewrite decide_False by lia. by eexists.
Qed.

(** X19.  [SetTransitionRemove] and then [GetTransitionRemove] of the
    same id give the node that was set, and true exactly if it is not
    nil; the transitions of the other ids and all add-transitions are as
    before.  An id outside the slice makes the call panic. *)
Theorem SetTransitionRemove_then_Get a id to :
  ((id < length (toRemove a))%nat →
   ∃ a',
     SetTransitionRemove a id to = Ok a' ∧
     GetTransitionRemove a' id = Ok (to, bool_decide (to ≠ None)) ∧
     (∀ id', id' ≠ id →
        GetTransitionRemove a' id' = GetTransitionRemove a id') ∧
     (∀ id', GetTransitionAdd a' id' = GetTransitionAdd a id') ∧
     node_mask a' = node_mask a ∧ node_archetype a' = node_archetype a) ∧
  ((length (toRemove a) ≤ id)%nat → panics (SetTransitionRemove a id to)).
Proof.
  unfold SetTransitionRemove. split; intros Hid.
  - rewrite decide_True by done. eexists. split; [done|].
    unfold GetTransitionAdd, GetTransitionRemove, index_slice. simpl.
    split; [by rewrite list_lookup_insert_eq by done|].
    split; [|done]. intros id' Hne.
    by rewrite list_lookup_insert_ne by done.
  - rewrite decide_False by lia. by eexists.
Qed.

(** ** Examples *)

Lemma demo_full_facts h a :
  demo_full = Ok (h, a) →
  arch_inv h a ∧ Arch.len a = 2 ∧ Arch.cap a = 2 ∧
  Arch.capacityIncrement a = 2 ∧
  Stor.itemSize (Arch.entities a) = 8 ∧ Stor.cap (Arch.entities a) = 2 ∧
  Stor.capacityIncrement (Arch.entities a) = 2 ∧
  Arch.Ids a = [0; 1; 2]%nat ∧
  Arch.layouts a
  = [Arch.mkLayout (Ptr 1 0) 8; Arch.mkLayout (Ptr 2 0) 4;
     Arch.mkLayout (Ptr 3 0) 0; Arch.mkLayout nil 0] ∧
  block_of (Stor.buffer (Arch.entities a)) :: (block_of <$> Arch.buffers a)
  = [Some 4; Some 1; Some 2; Some 3]%nat ∧
  load h (Ptr 0 0) 8 = Some demo_value ∧
  load h (Ptr 0 0) 4 = Some [x01; x00; x00; x00].
Proof.
  intros Hd. vm_compute in Hd. injection Hd as <- <-.
  split; [apply (bool_decide_eq_true_1 _); by vm_compute|].
  repeat split; by vm_compute.
Defined.

Lemma demo_facts h a :
  demo = Ok (h, a) →
  arch_inv h a ∧ Arch.len a = 3 ∧ Arch.cap a = 4 ∧
  Arch.Ids a = [0; 1; 2]%nat ∧
  Arch.layouts a !! 0%nat = Some (Arch.mkLayout (Ptr 9 0) 8) ∧
  Arch.GetEntity h a 2 = Some (Entity_bytes (Build_Entity 9 0)).
Proof.
  intros Hd. vm_compute in Hd. injection Hd as <- <-.
  split; [apply (bool_decide_eq_true_1 _); by vm_compute|].
  repeat split; by vm_compute.
Defined.

(** The hypotheses of [Add] on the components [demo_row]. *)
Lemma demo_row_facts h a :
  demo_full = Ok (h, a) →
  length demo_row = length (Arch.Ids a) ∧
  NoDup (C_ID <$> demo_row) ∧
  (∀ c, c ∈ demo_row → C_ID c ∈ Arch.Ids a) ∧
  (∀ c lay, c ∈ demo_row → Arch.layouts a !! C_ID c = Some lay →
     Arch.itemSize lay ≠ 0 →
     is_Some (load h (Comp c) (Arch.itemSize lay))) ∧
  (∀ c b off, c ∈ demo_row → Comp c = Ptr b off →
     Some b ∉ block_of (Stor.buffer (Arch.entities a))
              :: (block_of <$> Arch.buffers a)).
Proof.
  intros Hd.
  destruct (demo_full_facts h a Hd)
    as (_ & _ & _ & _ & _ & _ & _ & HIds & Hlays & Hblocks & Hl8 & Hl4).
  clear Hd. rewrite HIds, Hlays, Hblocks.
  split; [reflexivity|].
  split; [apply (bool_decide_eq_true_1 _); by vm_compute|].
  split; [|split].
  - intros c Hc. apply list_elem_of_In in Hc. simpl in Hc.
    destruct Hc as [<-|[<-|[<-|[]]]]; apply (bool_decide_eq_true_1 _);
      by vm_compute.
  - intros c lay Hc Hlay Hnz. apply list_elem_of_In in Hc. simpl in Hc.
    destruct Hc as [<-|[<-|[<-|[]]]]; cbn in Hlay; injection Hlay as <-;
      cbn [Comp Arch.itemSize] in *.
    + rewrite Hl8. by eexists.
    + rewrite Hl4. by eexists.
    + done.
  - intros c b off Hc Hp. apply list_elem_of_In in Hc. simpl in Hc.
    destruct Hc as [<-|[<-|[<-|[]]]]; injection Hp as <- <-;
      apply (bool_decide_eq_true_1 _); by vm_compute.
Defined.

Example Init_returns_or_panics_witness :
  (∃ h a, Arch.Init 4 [] 2 true demo_components = Ok (h, a)) ∧
  panics (Arch.Init 4 [] 2 true (reverse demo_components)).
Proof.
  assert (∀ l, l = demo_components ∨ l = reverse demo_components →
            Forall (λ c, 0 ≤ Size (Type_of c) ≤ MaxInt32
                         ∧ 0 ≤ Align (Type_of c)) l) as Hsizes.
  { intros l [->| ->]; repeat constructor; simpl; unfold MaxInt32; lia. }
  split.
  - apply (Init_returns_or_panics 4 [] 2 true demo_components);
      [lia|apply Hsizes; by left|lia|].
    split; [|split; [|lia]].
    + repeat constructor.
    + repeat constructor; simpl; lia.
  - apply (Init_returns_or_panics 4 [] 2 true (reverse demo_components));
      [lia|apply Hsizes; by right|lia|].
    intros (Hsort & _). vm_compute in Hsort.
    apply StronglySorted_inv in Hsort as [_ Hall].
    apply Forall_inv in Hall. lia.
Defined.

Example Init_establishes_invariant_witness :
  ∃ h' a,
    Arch.Init 4 [] 2 true demo_components = Ok (h', a) ∧
    arch_inv h' a ∧ Arch.Cap a = 2 ∧ Arch.Components a = [0; 1; 2]%nat.
Proof.
  destruct (Init_establishes_invariant 4 [] 2 true demo_components)
    as (h' & a & Hinit & Hinv & _ & Hcap & _ & Hids & _).
  - split; [|split; [|lia]].
    + repeat constructor.
    + repeat constructor; simpl; lia.
  - repeat constructor; simpl; unfold MaxInt32; lia.
  - lia.
  - exists h', a. split; [exact Hinit|]. split; [exact Hinv|].
    split; [exact Hcap|exact Hids].
Defined.

Example absent_component_is_skipped_witness :
  ∃ h a,
    Arch.Init 4 [] 2 true (take 2 demo_components) = Ok (h, a) ∧
    Arch.Get a 0 2 = Ok nil ∧
    Arch.Set_ h a 0 2 (Ptr 0 0) = Ok (h, nil).
Proof.
  destruct (Arch.Init 4 [] 2 true (take 2 demo_components))
    as [[h a]| |] eqn:Hinit; [|by vm_compute in Hinit..].
  destruct (absent_component_is_skipped 4 [] 2 true (take 2 demo_components)
              h a 2%nat h 0 (Ptr 0 0) Hinit)
    as (HG & HS & _).
  - lia.
  - apply (bool_decide_eq_true_1 _). by vm_compute.
  - exists h, a. split; [reflexivity|]. split; [exact HG|exact HS].
Defined.

Example extend_makes_room_witness :
  ∃ h a h' a',
    demo_full = Ok (h, a) ∧ Arch.extend h a = Ok (h', a') ∧
    Arch.cap a = 2 ∧ Arch.cap a' = 4.
Proof.
  destruct demo_full as [[h a]| |] eqn:Hd; [|by vm_compute in Hd..].
  destruct (demo_full_facts h a Hd)
    as ([Hcols _] & Hlen & Hcap & Hinc & _).
  clear Hd.
  destruct (extend_makes_room h a Hcols ltac:(rewrite Hlen, Hcap; lia)
              ltac:(rewrite Hcap, Hinc; lia))
    as (h' & a' & Hext & _ & _ & _ & _ & _ & Hfull & _).
  destruct (Hfull ltac:(rewrite Hlen, Hcap; reflexivity)) as [Hcap' _].
  rewrite Hcap, Hinc in Hcap'.
  exists h, a, h', a'. split; [reflexivity|]. split; [exact Hext|].
  split; [exact Hcap|exact Hcap'].
Defined.

Example ZeroAll_zeroes_one_row_witness :
  ∃ h a h',
    demo = Ok (h, a) ∧ Arch.ZeroAll h a 1 = Ok h' ∧
    Arch.item h' a 1 0 = Some (replicate 8 x00).
Proof.
  destruct demo as [[h a]| |] eqn:Hd; [|by vm_compute in Hd..].
  destruct (demo_facts h a Hd) as ([Hcols _] & Hlen & Hcap & HIds & Hlay & _).
  clear Hd.
  destruct (ZeroAll_zeroes_one_row h a 1 Hcols ltac:(rewrite Hcap; lia))
    as (h' & HZ & _ & Hzero & _).
  exists h, a, h'. split; [reflexivity|]. split; [exact HZ|].
  apply (Hzero 0%nat _ ltac:(rewrite HIds; by left) Hlay).
Defined.

Example Alloc_appends_entity_witness :
  ∃ h a h' a',
    demo_full = Ok (h, a) ∧
    Arch.Alloc h a (Build_Entity 9 0) false = Ok (h', a', 2) ∧
    Arch.Len a' = 3 ∧
    Arch.GetEntity h' a' 2 = Some (Entity_bytes (Build_Entity 9 0)).
Proof.
  destruct demo_full as [[h a]| |] eqn:Hd; [|by vm_compute in Hd..].
  destruct (demo_full_facts h a Hd)
    as (Hinv & Hlen & Hcap & Hinc & Hsz & Hecap & Heinc & _).
  clear Hd.
  destruct (Alloc_appends_entity h a (Build_Entity 9 0) false Hinv Hsz
              ltac:(rewrite Hlen; lia) ltac:(rewrite Hcap, Hinc; lia)
              ltac:(rewrite Hecap, Heinc; lia))
    as (h' & a' & HA & _ & _ & Hlen' & _ & _ & _ & Hnew & _).
  rewrite Hlen in *.
  exists h, a, h', a'. split; [reflexivity|]. split; [exact HA|].
  split; [exact Hlen'|exact Hnew].
Defined.

Example Alloc_keeps_rows_witness :
  ∃ h a h' a' idx,
    demo_full = Ok (h, a) ∧
    Arch.Alloc h a (Build_Entity 9 0) true = Ok (h', a', idx) ∧
    Arch.item h' a' 1 0 = Arch.item h a 1 0.
Proof.
  destruct demo_full as [[h a]| |] eqn:Hd; [|by vm_compute in Hd..].
  destruct (demo_full_facts h a Hd)
    as (Hinv & Hlen & Hcap & Hinc & Hsz & Hecap & Heinc & HIds & _).
  clear Hd.
  destruct (Alloc_keeps_rows h a (Build_Entity 9 0) true Hinv Hsz
              ltac:(rewrite Hlen; lia) ltac:(rewrite Hcap, Hinc; lia)
              ltac:(rewrite Hecap, Heinc; lia))
    as (h' & a' & idx & HA & Hrows & _).
  exists h, a, h', a', idx. split; [reflexivity|]. split; [exact HA|].
  apply Hrows; [rewrite HIds; by left|rewrite Hlen; lia].
Defined.

Example Add_writes_row_witness :
  ∃ h a h' a',
    demo_full = Ok (h, a) ∧
    Arch.Add h a (Build_Entity 9 0) demo_row = Ok (h', a', 2) ∧
    Arch.item h' a' 2 0 = Some demo_value ∧
    Arch.GetEntity h' a' 2 = Some (Entity_bytes (Build_Entity 9 0)).
Proof.
  destruct demo_full as [[h a]| |] eqn:Hd; [|by vm_compute in Hd..].
  destruct (demo_full_facts h a Hd)
    as (Hinv & Hlen & Hcap & Hinc & Hsz & Hecap & Heinc & HIds & Hlays & _
        & Hl8 & _).
  destruct (demo_row_facts h a Hd) as (Hcount & Hnd & Hmems & Hsrc & Hout).
  clear Hd.
  destruct (Add_writes_row h a (Build_Entity 9 0) demo_row Hinv Hsz
              ltac:(rewrite Hlen; lia) ltac:(rewrite Hcap, Hinc; lia)
              ltac:(rewrite Hecap, Heinc; lia) Hcount Hnd Hmems Hsrc Hout)
    as (h' & a' & HA & _ & _ & _ & _ & Hnew & _ & Hrow & _).
  rewrite Hlen in *.
  exists h, a, h', a'. split; [reflexivity|]. split; [exact HA|].
  split; [|exact Hnew].
  rewrite <- Hl8.
  apply (Hrow (Build_Component 0 (Ptr 0 0)) (Arch.mkLayout (Ptr 1 0) 8)).
  - by left.
  - by rewrite Hlays.
  - simpl. lia.
Defined.

Example Remove_swaps_in_last_row_witness :
  ∃ h a h' a',
    demo = Ok (h, a) ∧ Arch.Remove h a 0 = Ok (h', a', true) ∧
    Arch.Len a' = 2 ∧
    Arch.GetEntity h' a' 0 = Some (Entity_bytes (Build_Entity 9 0)).
Proof.
  destruct demo as [[h a]| |] eqn:Hd; [|by vm_compute in Hd..].
  destruct (demo_facts h a Hd) as (Hinv & Hlen & Hcap & HIds & _ & Hlast).
  clear Hd.
  destruct (Remove_swaps_in_last_row h a 0 Hinv ltac:(rewrite Hlen; lia))
    as (h' & a' & HR & _ & Hlen' & _ & _ & _ & Hents).
  specialize (Hents 0 ltac:(rewrite Hlen; lia)).
  rewrite Hlen in *. simpl in Hents, Hlen', HR.
  exists h, a, h', a'. split; [reflexivity|]. split; [exact HR|].
  split; [exact Hlen'|]. rewrite Hents. exact Hlast.
Defined.

Example Add_then_Remove_restores_witness :
  ∃ h a h1 a1 h2 a2,
    demo_full = Ok (h, a) ∧
    Arch.Add h a (Build_Entity 9 0) demo_row = Ok (h1, a1, 2) ∧
    Arch.Remove h1 a1 2 = Ok (h2, a2, false) ∧
    Arch.Len a2 = 2 ∧
    Arch.GetEntity h2 a2 1 = Arch.GetEntity h a 1.
Proof.
  destruct demo_full as [[h a]| |] eqn:Hd; [|by vm_compute in Hd..].
  destruct (demo_full_facts h a Hd)
    as (Hinv & Hlen & Hcap & Hinc & Hsz & Hecap & Heinc & _).
  destruct (demo_row_facts h a Hd) as (Hcount & Hnd & Hmems & Hsrc & Hout).
  clear Hd.
  destruct (Add_then_Remove_restores h a (Build_Entity 9 0) demo_row Hinv Hsz
              ltac:(rewrite Hlen; lia) ltac:(rewrite Hcap, Hinc; lia)
              ltac:(rewrite Hecap, Heinc; lia) Hcount Hnd Hmems Hsrc Hout)
    as (h1 & a1 & h2 & a2 & HA & HR & _ & Hlen2 & _ & _ & Hents).
  rewrite Hlen in HA, HR.
  exists h, a, h1, a1, h2, a2. split; [reflexivity|]. split; [exact HA|].
  split; [exact HR|]. split; [by rewrite Hlen2|].
  apply Hents. rewrite Hlen. lia.
Defined.

Example newArchetypeNode_no_transitions_witness :
  GetTransitionAdd (newArchetypeNode 4 0) 1 = Ok (None, false) ∧
  panics (GetTransitionRemove (newArchetypeNode 4 0) 4).
Proof.
  destruct (newArchetypeNode_no_transitions 4 0 1) as [Hin _].
  destruct (newArchetypeNode_no_transitions 4 0 4) as [_ Hout].
  split; [apply Hin; lia|apply Hout; lia].
Defined.

Example SetTransitionAdd_then_Get_witness :
  ∃ a',
    SetTransitionAdd (newArchetypeNode 4 0) 1 (Some 5%nat) = Ok a' ∧
    GetTransitionAdd a' 1 = Ok (Some 5%nat, true).
Proof.
  destruct (SetTransitionAdd_then_Get (newArchetypeNode 4 0) 1 (Some 5%nat))
    as [Hin _].
  destruct (Hin ltac:(simpl; lia)) as (a' & HS & HG & _).
  exists a'. split; [exact HS|exact HG].
Defined.

Example SetTransitionRemove_then_Get_witness :
  ∃ a',
    SetTransitionRemove (newArchetypeNode 4 0) 1 (Some 5%nat) = Ok a' ∧
    GetTransitionRemove a' 1 = Ok (Some 5%nat, true).
Proof.
  destruct (SetTransitionRemove_then_Get (newArchetypeNode 4 0) 1
              (Some 5%nat)) as [Hin _].
  destruct (Hin ltac:(simpl; lia)) as (a' & HS & HG & _).
  exists a'. split; [exact HS|exact HG].
Defined.

(** ** What the calls leave alone *)

(** X20.  [Alloc] does not change which components the archetype has:
    [HasComponent] and the mask answer for every id as before. *)
Theorem Alloc_keeps_components h a e zero id :
  arch_inv h a → Stor.itemSize (Arch.entities a) = 8 →
  Arch.len a + 1 < 2 ^ 32 →
  Arch.cap a + Arch.capacityIncrement a < 2 ^ 32 →
  Stor.cap (Arch.entities a) + Stor.capacityIncrement (Arch.entities a)
    < 2 ^ 32 →
  ∃ h' a' idx,
    Arch.Alloc h a e zero = Ok (h', a', idx) ∧
    Arch.HasComponent a' id = Arch.HasComponent a id ∧
    Mask_Get (Arch.Mask_of a') id = Mask_Get (Arch.Mask_of a) id.
Proof.
  intros Hinv Hsz Hlen1 Hcap1 Hecap1.
  destruct (Arch_Alloc_spec h a e zero Hinv Hsz Hlen1 Hcap1 Hecap1)
    as (h' & a' & HA & Hinv' & _ & _ & HIds & Hmask & _ & _ & _ & _ & _ & _
        & _ & Hout).
  exists h', a', (Arch.len a). split; [done|]. split; [|by rewrite Hmask].
  unfold Arch.HasComponent.
  destruct (decide (id ∈ Arch.Ids a)) as [Hid|Hid].
  - pose proof Hid as (i & Hi)%list_elem_of_lookup.
    pose proof Hid as Hid'. rewrite <- HIds in Hid'.
    apply list_elem_of_lookup in Hid' as (i' & Hi').
    destruct Hinv as [Hcols _]. destruct Hinv' as [Hcols' _].
    destruct (cols_col _ _ _ _ Hcols Hi)
      as (b & ty & n & blk & _ & _ & Hlay & _).
    destruct (cols_col _ _ _ _ Hcols' Hi')
      as (b' & ty' & n' & blk' & _ & _ & Hlay' & _).
    by rewrite (getStorage_Ok _ _ _ Hlay), (getStorage_Ok _ _ _ Hlay').
  - unfold Arch.getStorage. by rewrite (Hout id Hid).
Qed.

(** X21.  [Set] and [SetPointer] on a row and a component of the archetype
    return the pointer that [Get] returns, which is not nil, and keep the
    invariant; for a component without memory nothing is read or
    written. *)
Theorem Set_keeps_invariant h a row id src lay :
  arch_inv h a → 0 ≤ row < Arch.len a → id ∈ Arch.Ids a →
  Arch.layouts a !! id = Some lay →
  (Arch.itemSize lay ≠ 0 → is_Some (load h src (Arch.itemSize lay))) →
  ∃ h' dst,
    Arch.Set_ h a row id src = Ok (h', dst) ∧
    Arch.SetPointer h a row id src = Ok (h', dst) ∧
    Arch.Get a row id = Ok dst ∧ dst ≠ nil ∧
    arch_inv h' a ∧
    (Arch.itemSize lay = 0 → h' = h).
Proof.
  intros [Hcols [Hlen Hel]] Hrow Hid Hlay Hsrc.
  pose proof Hcols as (Hcap & _).
  pose proof Hid as (i & Hi)%list_elem_of_lookup.
  destruct (cols_col _ _ _ _ Hcols Hi)
    as (b & ty & n & blk & _ & _ & Hlay' & _ & _ & Hsz & _).
  rewrite Hlay in Hlay'. injection Hlay' as ->. simpl in Hsrc.
  unfold Arch.Set_, Arch.SetPointer, Arch.Get.
  rewrite (getStorage_Ok _ _ _ Hlay). cbn [mbind outcome_bind Arch.itemSize].
  rewrite layout_Get_eq by (done || lia).
  destruct (Size ty =? 0) eqn:Hz.
  - exists h, (Ptr b (row * Size ty)). by split_and!.
  - apply Z.eqb_neq in Hz. destruct (Hsrc Hz) as [bs Hbs].
    destruct (write_cell_step h a row (λ x : nat, x) (λ _, bs) [] id [] h)
      as (h' & Hw & Hshape & _); try done.
    + lia.
    + simpl. apply NoDup_singleton.
    + intros y Hy. apply list_elem_of_singleton in Hy. by subst y.
    + intros lay0 Hlay0. simpl in Hlay0. rewrite Hlay in Hlay0.
      injection Hlay0 as <-. simpl. by apply load_length in Hbs.
    + split; [done|]. split; [done|]. split; [|done].
      intros x Hx. by apply elem_of_nil in Hx.
    + unfold write_cell in Hw. rewrite (getStorage_Ok _ _ _ Hlay) in Hw.
      cbn [mbind outcome_bind Arch.itemSize] in Hw.
      rewrite (proj2 (Z.eqb_neq _ _) Hz), layout_Get_eq in Hw
        by (done || lia).
      unfold Arch.copy. rewrite (slice_copy_Ok _ _ _ _ bs) by (done || lia).
      rewrite Hw. cbn [mbind outcome_bind].
      exists h', (Ptr b (row * Size ty)).
      split; [done|]. split; [done|]. split; [done|]. split; [done|].
      split; [|done].
      split; [by apply (cols_ok_shape h)|done].
Qed.

Example Alloc_keeps_components_witness :
  ∃ h a h' a' idx,
    demo_full = Ok (h, a) ∧
    Arch.Alloc h a (Build_Entity 9 0) true = Ok (h', a', idx) ∧
    Arch.HasComponent a' 1 = Ok true ∧ Arch.HasComponent a' 3 = Ok false.
Proof.
  destruct demo_full as [[h a]| |] eqn:Hd; [|by vm_compute in Hd..].
  destruct (demo_full_facts h a Hd)
    as (Hinv & Hlen & Hcap & Hinc & Hsz & Hecap & Heinc & _ & Hlays & _).
  clear Hd.
  destruct (Alloc_keeps_components h a (Build_Entity 9 0) true 1%nat Hinv Hsz
              ltac:(rewrite Hlen; lia) ltac:(rewrite Hcap, Hinc; lia)
              ltac:(rewrite Hecap, Heinc; lia))
    as (h' & a' & idx & HA & H1 & _).
  destruct (Alloc_keeps_components h a (Build_Entity 9 0) true 3%nat Hinv Hsz
              ltac:(rewrite Hlen; lia) ltac:(rewrite Hcap, Hinc; lia)
              ltac:(rewrite Hecap, Heinc; lia))
    as (h'' & a'' & idx' & HA' & H3 & _).
  rewrite HA in HA'. injection HA' as <- <- <-.
  exists h, a, h', a', idx. split; [reflexivity|]. split; [exact HA|].
  rewrite H1, H3. unfold Arch.HasComponent, Arch.getStorage.
  rewrite Hlays. split; reflexivity.
Defined.

Example Set_keeps_invariant_witness :
  ∃ h a h' dst,
    demo = Ok (h, a) ∧
    Arch.Set_ h a 1 0 (Ptr 0 0) = Ok (h', dst) ∧ arch_inv h' a.
Proof.
  destruct demo as [[h a]| |] eqn:Hd; [|by vm_compute in Hd..].
  destruct (demo_facts h a Hd) as (Hinv & Hlen & Hcap & HIds & Hlay & _).
  assert (load h (Ptr 0 0) 8 = Some demo_value) as Hsrc.
  { vm_compute in Hd. injection Hd as <- <-. reflexivity. }
  clear Hd.
  destruct (Set_keeps_invariant h a 1 0%nat (Ptr 0 0) _ Hinv
              ltac:(rewrite Hlen; lia) ltac:(rewrite HIds; left) Hlay
              ltac:(intros _; exists demo_value; exact Hsrc))
    as (h' & dst & HS & _ & _ & _ & Hinv' & _).
  exists h, a, h', dst. split; [reflexivity|]. split; [exact HS|exact Hinv'].
Defined.

(** * The claims on zero sizes, growth, removal and [Alloc] *)

(** ** Components and columns without bytes *)






(** ** Growth *)






(** ** Removal *)

(** C4.  On a column that is not empty, [Remove] of an index below [len]
    takes one off [len] and returns [true] exactly when the index is below
    [len - 1]; then the element that was last is at the index, and every
    other element that remains is as it was.  [Remove] of the archetype
    does this to the column of the entities and to the column of every
    component, and returns the boolean that [Remove] of the entities
    returns. *)
Theorem swap_remove_rows :
  (∀ h s i,
     Stor.wf h s → 0 ≤ i < Stor.len s →
     ∃ h' s',
       Stor.Remove h s i = Ok (h', s', bool_decide (i < Stor.len s - 1)) ∧
       Stor.len s' = Stor.len s - 1 ∧
       (i < Stor.len s - 1 →
          Stor.item h' s' i = Stor.item h s (Stor.len s - 1)) ∧
       (∀ j, 0 ≤ j < Stor.len s - 1 → j ≠ i →
          Stor.item h' s' j = Stor.item h s j)) ∧
  (∀ h a i,
     arch_inv h a → 0 ≤ i < Arch.len a →
     ∃ h' a' he se,
       Arch.Remove h a i = Ok (h', a', bool_decide (i < Arch.len a - 1)) ∧
       Stor.Remove h (Arch.entities a) i
       = Ok (he, se, bool_decide (i < Arch.len a - 1)) ∧
       Arch.len a' = Arch.len a - 1 ∧
       Stor.len (Arch.entities a') = Arch.len a - 1 ∧
       (i < Arch.len a - 1 →
          Arch.GetEntity h' a' i = Arch.GetEntity h a (Arch.len a - 1) ∧
          ∀ id, id ∈ Arch.Ids a →
            Arch.item h' a' i id = Arch.item h a (Arch.len a - 1) id) ∧
       (∀ row, 0 ≤ row < Arch.len a - 1 → row ≠ i →
          Arch.GetEntity h' a' row = Arch.GetEntity h a row ∧
          ∀ id, id ∈ Arch.Ids a →
            Arch.item h' a' row id = Arch.item h a row id)).
Proof.
  split.
  - intros h s i Hwf Hi.
    destruct (Stor_wf_inv _ _ Hwf) as (_ & _ & _ & _ & _ & _ & _ & _ & Hl & _).
    destruct (Stor_Remove_in_bounds h s i Hwf Hi)
      as (h' & HRem & _ & Hat & Hother & _).
    eexists _, _. split; [done|]. split; [done|]. split.
    + intros Hlt. rewrite bool_decide_eq_true_2 in Hat by done. exact Hat.
    + intros j Hj Hne. apply Hother; [lia|done].
  - intros h a i Hinv Hi.
    pose proof Hinv as [Hcols [Hlen Hel]].
    pose proof Hcols as (_ & _ & _ & _ & _ & Hents).
    destruct (Arch_Remove_spec h a i Hinv Hi)
      as (h' & a' & HR & Hinv' & Hlen' & _ & _ & _ & _ & _ & Hrows & Hes).
    destruct (Stor_Remove_in_bounds h (Arch.entities a) i Hents
                ltac:(rewrite Hel; done)) as (he & HRem & _).
    rewrite Hel in HRem.
    destruct Hinv' as (_ & _ & Hel').
    eexists h', a', _, _. split; [done|]. split; [done|].
    split; [done|]. split; [lia|]. split.
    + intros Hlt. split.
      * rewrite (Hes i) by lia. by rewrite decide_True.
      * intros id Hid. rewrite (Hrows i id Hid) by lia. by rewrite decide_True.
    + intros row Hrow Hne. split.
      * rewrite (Hes row) by lia. by rewrite decide_False.
      * intros id Hid. rewrite (Hrows row id Hid) by lia.
        by rewrite decide_False.
Qed.

Example swap_remove_rows_witness :
  (∃ h s h' s',
     demo_column = Ok (h, s) ∧
     Stor.Remove h s 0 = Ok (h', s', true) ∧ Stor.len s' = 1) ∧
  (∃ h a h' a',
     demo = Ok (h, a) ∧ Arch.Remove h a 0 = Ok (h', a', true) ∧
     Arch.len a' = 2 ∧
     Arch.GetEntity h' a' 0 = Some (Entity_bytes (Build_Entity 9 0))).
Proof.
  destruct swap_remove_rows as [HS HA]. split.
  - destruct demo_column as [[h s]| |] eqn:Hd; [|by vm_compute in Hd..].
    destruct (demo_column_facts h s Hd) as (Hwf & Hlen & _).
    clear Hd.
    destruct (HS h s 0 Hwf ltac:(rewrite Hlen; lia))
      as (h' & s' & HR & Hlen' & _).
    rewrite Hlen in *. simpl in HR, Hlen'.
    exists h, s, h', s'. split; [reflexivity|]. split; [exact HR|exact Hlen'].
  - destruct demo as [[h a]| |] eqn:Hd; [|by vm_compute in Hd..].
    destruct (demo_facts h a Hd) as (Hinv & Hlen & _ & _ & _ & Hlast).
    clear Hd.
    destruct (HA h a 0 Hinv ltac:(rewrite Hlen; lia))
      as (h' & a' & he & se & HR & _ & Hlen' & _ & Hswap & _).
    rewrite Hlen in *. simpl in HR, Hlen'.
    destruct (Hswap ltac:(lia)) as [He _]. simpl in He.
    exists h, a, h', a'. split; [reflexivity|]. split; [exact HR|].
    split; [exact Hlen'|]. rewrite He. exact Hlast.
Defined.

(** ** [Alloc] and the [zero] flag *)

(** [Alloc] without the [zero] flag writes no row of a component: every
    row within the old capacity reads as before. *)
Lemma Arch_Alloc_no_zero h a e :
  arch_inv h a → Stor.itemSize (Arch.entities a) = 8 →
  Arch.len a + 1 < 2 ^ 32 →
  Arch.cap a + Arch.capacityIncrement a < 2 ^ 32 →
  Stor.cap (Arch.entities a) + Stor.capacityIncrement (Arch.entities a)
    < 2 ^ 32 →
  ∃ h' a',
    Arch.Alloc h a e false = Ok (h', a', Arch.len a) ∧
    (∀ row id, id ∈ Arch.Ids a → 0 ≤ row < Arch.cap a →
       Arch.item h' a' row id = Arch.item h a row id).
Proof.
  intros [Hcols [Hlen Hel]] Hsz Hlen1 Hcap1 Hecap1.
  destruct (Arch_push_entity h a e Hcols Hel Hsz Hlen1 Hecap1)
    as (h1 & ents1 & HAdd & Hcols1 & Hlen' & Hsz1 & Hinc1 & Hnew & Hold
        & Hlenh & Hframe).
  destruct (cols_entities_block _ _ Hcols) as (be & Hbe & Haddr & Hbelt & Hbenot).
  set (a1 := Arch.with_entities a ents1) in *.
  destruct (Arch_extend_spec h1 a1 Hcols1 Hlen Hcap1)
    as (h2 & a2 & Hext & Hcols2 & Hroom & Hcap2 & Hlen2 & Hents2 & HIds2
        & Hmask2 & Hinc2 & [hnew ->] & Hitems2 & Hout2 & _).
  simpl in Hlen2, Hitems2.
  unfold Arch.Alloc. cbn [escape]. rewrite HAdd. cbn [mbind outcome_bind].
  fold a1. rewrite Hext. cbn [mbind outcome_bind].
  rewrite Hlen2, (wrap32_small (Arch.len a + 1)) by lia.
  eexists _, _. split; [done|].
  intros row id Hid Hrow. rewrite item_with_len.
  rewrite Hitems2 by done. unfold a1.
  rewrite item_with_entities. apply (item_frame h); [done..|].
  intros b Hb. apply Hframe; [by eapply cols_block_lt|].
  rewrite Hbe. by intros [= ->].
Qed.

(** C5, as the code has it.  [Alloc] appends the entity to the column of
    the entities, makes room in the columns of the components when the
    archetype is full (all to the same capacity), adds one to [len] and
    returns the old [len] as the row; the rows that were there stay.  The
    new row is set to zero in every column when the [zero] flag is true;
    without the flag no row of a component is written, so that a new row
    within the old capacity holds what the buffers held there. *)
Theorem Alloc_appends_row h a e (zero : bool) :
  arch_inv h a → Stor.itemSize (Arch.entities a) = 8 →
  Arch.len a + 1 < 2 ^ 32 →
  Arch.cap a + Arch.capacityIncrement a < 2 ^ 32 →
  Stor.cap (Arch.entities a) + Stor.capacityIncrement (Arch.entities a)
    < 2 ^ 32 →
  ∃ h' a',
    Arch.Alloc h a e zero = Ok (h', a', Arch.len a) ∧
    arch_inv h' a' ∧ Arch.len a' = Arch.len a + 1 ∧
    Arch.Ids a' = Arch.Ids a ∧
    Arch.len a < Arch.cap a' ∧
    Arch.cap a' = (if decide (Arch.len a < Arch.cap a) then Arch.cap a
                   else Arch.grown_cap (Arch.cap a) (Arch.capacityIncrement a)) ∧
    Arch.GetEntity h' a' (Arch.len a) = Some (Entity_bytes e) ∧
    (∀ j, 0 ≤ j < Arch.len a → Arch.GetEntity h' a' j = Arch.GetEntity h a j) ∧
    (∀ row id, id ∈ Arch.Ids a → 0 ≤ row < Arch.len a →
       Arch.item h' a' row id = Arch.item h a row id) ∧
    (zero = true → ∀ id lay, id ∈ Arch.Ids a →
       Arch.layouts a' !! id = Some lay →
       Arch.item h' a' (Arch.len a) id
       = Some (replicate (Z.to_nat (Arch.itemSize lay)) x00)) ∧
    (zero = false → ∀ row id, id ∈ Arch.Ids a → 0 ≤ row < Arch.cap a →
       Arch.item h' a' row id = Arch.item h a row id).
Proof.
  intros Hinv Hsz Hlen1 Hcap1 Hecap1.
  destruct (Arch_Alloc_spec h a e zero Hinv Hsz Hlen1 Hcap1 Hecap1)
    as (h' & a' & HA & Hinv' & _ & Hlen' & HIds & _ & _ & _ & Hcap' & Hnew
        & Hold & Hzero & Hrows & _).
  exists h', a'. split; [done|]. split; [done|]. split; [done|].
  split; [done|]. split.
  { destruct Hinv' as (_ & Hl & _). lia. }
  split; [done|]. split; [done|]. split; [done|]. split; [done|].
  split; [done|].
  intros ->.
  destruct (Arch_Alloc_no_zero h a e Hinv Hsz Hlen1 Hcap1 Hecap1)
    as (h2 & a2 & HA2 & Hsame).
  rewrite HA in HA2. by injection HA2 as <- <-.
Qed.

Lemma demo_reused_facts h a :
  demo_reused = Ok (h, a) →
  arch_inv h a ∧ Arch.len a = 0 ∧ Arch.cap a = 2 ∧
  Arch.capacityIncrement a = 2 ∧
  Stor.itemSize (Arch.entities a) = 8 ∧ Stor.cap (Arch.entities a) = 2 ∧
  Stor.capacityIncrement (Arch.entities a) = 2 ∧
  Arch.Ids a = [0; 1; 2]%nat ∧
  Arch.item h a 0 0 = Some demo_value.
Proof.
  intros Hd. vm_compute in Hd. injection Hd as <- <-.
  split; [apply (bool_decide_eq_true_1 _); by vm_compute|].
  repeat split; by vm_compute.
Defined.

Example Alloc_appends_row_witness :
  (∃ h a h' a',
     demo_full = Ok (h, a) ∧
     Arch.Alloc h a (Build_Entity 9 0) true = Ok (h', a', 2) ∧
     Arch.len a' = 3 ∧ Arch.cap a' = 4 ∧
     Arch.GetEntity h' a' 2 = Some (Entity_bytes (Build_Entity 9 0))) ∧
  (∃ h a h' a',
     demo_reused = Ok (h, a) ∧
     Arch.Alloc h a (Build_Entity 8 0) false = Ok (h', a', 0) ∧
     Arch.item h' a' 0 0 = Some demo_value).
Proof.
  split.
  - destruct demo_full as [[h a]| |] eqn:Hd; [|by vm_compute in Hd..].
    destruct (demo_full_facts h a Hd)
      as (Hinv & Hlen & Hcap & Hinc & Hsz & Hecap & Heinc & _).
    clear Hd.
    destruct (Alloc_appends_row h a (Build_Entity 9 0) true Hinv Hsz
                ltac:(rewrite Hlen; lia) ltac:(rewrite Hcap, Hinc; lia)
                ltac:(rewrite Hecap, Heinc; lia))
      as (h' & a' & HA & _ & Hlen' & _ & _ & Hcap' & Hnew & _).
    rewrite Hlen, Hcap, Hinc in *.
    exists h, a, h', a'. split; [reflexivity|]. split; [exact HA|].
    split; [exact Hlen'|]. split; [rewrite Hcap'; reflexivity|exact Hnew].
  - destruct demo_reused as [[h a]| |] eqn:Hd; [|by vm_compute in Hd..].
    destruct (demo_reused_facts h a Hd)
      as (Hinv & Hlen & Hcap & Hinc & Hsz & Hecap & Heinc & HIds & Hrow).
    clear Hd.
    destruct (Alloc_appends_row h a (Build_Entity 8 0) false Hinv Hsz
                ltac:(rewrite Hlen; lia) ltac:(rewrite Hcap, Hinc; lia)
                ltac:(rewrite Hecap, Heinc; lia))
      as (h' & a' & HA & _ & _ & _ & _ & _ & _ & _ & _ & _ & Hsame).
    rewrite Hlen in HA.
    exists h, a, h', a'. split; [reflexivity|]. split; [exact HA|].
    rewrite (Hsame eq_refl 0 0%nat); [exact Hrow|rewrite HIds; left|].
    rewrite Hcap. lia.
Defined.

(** C5 as stated fails: in this archetype a row has come and gone, and
    the row that [Alloc] appends without the [zero] flag holds the
    position of the old row, not zero. *)
Example Alloc_without_zero_counterexample :
  ∃ h a h' a',
    demo_reused = Ok (h, a) ∧ Arch.len a = 0 ∧
    Arch.Alloc h a (Build_Entity 8 0) false = Ok (h', a', 0) ∧
    Arch.len a' = 1 ∧
    Arch.item h' a' 0 0 = Some demo_value ∧
    demo_value ≠ replicate 8 x00.
Proof.
  eexists _, _, _, _. split; [by vm_compute|]. split; [done|].
  split; [by vm_compute|]. split; [done|]. split; [by vm_compute|done].
Qed.
